(** * Tournament result processing (update-node.js): a shallow embedding

    The development follows the result-processing pipeline of
    [update-node.js]: tier classification ([getTierFromName]), the points
    table ([getPointsMapping]), grouping of participant rows into teams
    ([groupPlayersByTeam]), ordering of teams ([sortTeamsByPlacement]),
    the per-team eligibility and award rules ([processTeamResults]) with
    the writes they make, and the batch loop with its processed-tournament
    markers ([fetchAndProcessTournaments]).

    Modelling conventions.
    - Strings are ASCII strings; [toUpperCase], [toLowerCase] and the
      whitespace class [\s] are the ASCII restrictions of the JavaScript
      ones.
    - JavaScript numbers that carry points are IEEE 754 doubles, the
      primitive [float] of the kernel: a decimal literal is the nearest
      double, [+] is the rounded addition of doubles, and [x || 0] gives
      0 for a zero of either sign and for NaN. Counters and placements
      are integers ([Z]).
    - A plain JavaScript object used as a dictionary whose enumeration
      order or inherited members matter ([teams], [pointsMap]) is a
      [JsObject.t]: own properties in enumeration order (array-index keys
      first, in numeric order), with the members of [Object.prototype]
      visible to reads.
    - [Array.prototype.sort] is stable.
    - The Realtime Database is a typed record [Db]. Its reads and writes
      always succeed, and the ids used as path segments are valid keys:
      the [catch] branches that only guard against failures of the store
      have no counterpart. What can still throw is the request to the
      tournament feed and the grouping of rows. *)

From Stdlib Require Import ZArith Floats String Ascii List Sorted Lia.
From stdpp Require Import gmap strings list fin_maps.

(** A decimal literal denotes the nearest double, as in JavaScript. *)
Set Warnings "-inexact-float".

Open Scope string_scope.
Open Scope list_scope.
Open Scope Z_scope.

(** ** Strings *)

Module Str.

Definition isLower (c : ascii) : bool :=
  let n := nat_of_ascii c in ((97 <=? n) && (n <=? 122))%nat.

Definition isUpper (c : ascii) : bool :=
  let n := nat_of_ascii c in ((65 <=? n) && (n <=? 90))%nat.

Definition upperChar (c : ascii) : ascii :=
  if isLower c then ascii_of_nat (nat_of_ascii c - 32) else c.

Definition lowerChar (c : ascii) : ascii :=
  if isUpper c then ascii_of_nat (nat_of_ascii c + 32) else c.

(** [\s] on ASCII: tab, line feed, vertical tab, form feed, carriage
    return, space. *)
Definition isSpace (c : ascii) : bool :=
  let n := nat_of_ascii c in
  (((9 <=? n) && (n <=? 13)) || (n =? 32))%nat.

Fixpoint mapChars (f : ascii -> ascii) (s : string) : string :=
  match s with
  | EmptyString => EmptyString
  | String c s' => String (f c) (mapChars f s')
  end.

(** [s.toUpperCase()] *)
Definition toUpperCase (s : string) : string := mapChars upperChar s.

(** [s.toLowerCase()] *)
Definition toLowerCase (s : string) : string := mapChars lowerChar s.

(** [s.replace(/\s/g, '')] *)
Fixpoint removeSpaces (s : string) : string :=
  match s with
  | EmptyString => EmptyString
  | String c s' =>
      if isSpace c then removeSpaces s' else String c (removeSpaces s')
  end.

(** [s.includes(sub)] *)
Fixpoint includes (s sub : string) : bool :=
  String.prefix sub s
  || match s with
     | EmptyString => false
     | String _ s' => includes s' sub
     end.

Fixpoint allChars (p : ascii -> bool) (s : string) : bool :=
  match s with
  | EmptyString => true
  | String c s' => p c && allChars p s'
  end.

Fixpoint anyChar (p : ascii -> bool) (s : string) : bool :=
  match s with
  | EmptyString => false
  | String c s' => p c || anyChar p s'
  end.

(** A JavaScript string is truthy when it is not empty. *)
Definition truthy (s : string) : bool :=
  match s with EmptyString => false | _ => true end.

End Str.

(** ** Plain JavaScript objects used as dictionaries *)

Module JsObject.

(** The property names every plain object inherits from
    [Object.prototype]. A read [o[k]] of a name that is not an own
    property of [o] finds the inherited member, which is truthy. *)
Definition prototypeKeys : list string :=
  [ "constructor"; "__defineGetter__"; "__defineSetter__";
    "hasOwnProperty"; "__lookupGetter__"; "__lookupSetter__";
    "isPrototypeOf"; "propertyIsEnumerable"; "toString"; "valueOf";
    "__proto__"; "toLocaleString" ].

Definition isPrototypeKey (k : string) : bool :=
  existsb (String.eqb k) prototypeKeys.

Definition isDigit (c : ascii) : bool :=
  let n := nat_of_ascii c in ((48 <=? n) && (n <=? 57))%nat.

Fixpoint digitsValue (acc : N) (s : string) : N :=
  match s with
  | EmptyString => acc
  | String c s' =>
      digitsValue (acc * 10 + N.of_nat (nat_of_ascii c - 48))%N s'
  end.

(** A property name is an array index when it is the canonical decimal
    numeral of an integer below 2^32 - 1. Own properties that are array
    indices are enumerated first, in ascending numeric order; the other
    string keys follow in the order of their creation. *)
Definition arrayIndex (k : string) : option N :=
  match k with
  | EmptyString => None
  | String c rest =>
      if Str.allChars isDigit k
         && (negb (Ascii.eqb c "0") || negb (Str.truthy rest))
      then
        let n := digitsValue 0%N k in
        if (n <? 4294967295)%N then Some n else None
      else None
  end.

Section Ops.
Context {V : Type}.

(** Own properties, in enumeration order ([Object.entries]). *)
Definition t := list (string * V).

Definition empty : t := [].

Fixpoint getOwn (o : t) (k : string) : option V :=
  match o with
  | [] => None
  | (k', v) :: o' => if String.eqb k' k then Some v else getOwn o' k
  end.

Definition hasOwn (o : t) (k : string) : bool :=
  match getOwn o k with Some _ => true | None => false end.

(** In-place change of the value of an own property. *)
Fixpoint replaceOwn (o : t) (k : string) (v : V) : t :=
  match o with
  | [] => []
  | (k', v') :: o' =>
      if String.eqb k' k then (k', v) :: o'
      else (k', v') :: replaceOwn o' k v
  end.

(** Creation of an array-index property [k] with numeric value [n]. *)
Fixpoint insertIndex (o : t) (n : N) (k : string) (v : V) : t :=
  match o with
  | [] => [(k, v)]
  | (k', v') :: o' =>
      match arrayIndex k' with
      | Some n' =>
          if (n' <? n)%N then (k', v') :: insertIndex o' n k v
          else (k, v) :: (k', v') :: o'
      | None => (k, v) :: (k', v') :: o'
      end
  end.

(** [o[k] = v] *)
Definition set (o : t) (k : string) (v : V) : t :=
  if hasOwn o k then replaceOwn o k v
  else match arrayIndex k with
       | Some n => insertIndex o n k v
       | None => o ++ [(k, v)]
       end.

(** [Object.entries(o)] *)
Definition entries (o : t) : list (string * V) := o.
End Ops.

Arguments t V : clear implicits.

End JsObject.

(** ** Tier classification *)

(** [getTierFromName(name)]; [None] stands for a name that is missing or
    not a string. *)
Definition getTierFromName (name : option string) : string :=
  match name with
  | None => "Unknown"
  | Some name =>
      if negb (Str.truthy name) then "Unknown" else
      let normalizedName := Str.toLowerCase name in
      let has := Str.includes normalizedName in
      if has "silver" && has "singapore" then "silverAsia1"
      else if has "silver" && has "eu" && has "1" then "silverEu1"
      else if has "silver" && has "eu" && has "2" then "silverEu2"
      else if has "silver" && has "us" && has "1" then "silverUs1"
      else if has "silver" && has "us" && has "2" then "silverUs2"
      else if has "gold" && has "limited" then "goldLimited"
      else if has "halloween" then "halloweenCup"
      else if has "asia cup" then "asia"
      else if has "round madness" && has "eu" then "roundMadnessEu"
      else if has "round madness" && has "us" then "roundMadnessUs"
      else if has "round madness" && has "india" then "roundMadnessIndia"
      else if has "diamond" then "diamond"
      else if has "platinum" then "platinum"
      else if has "gold" then "gold"
      else if has "america" then "america"
      else if has "championship" then "Unknown"
      else "Unknown"
  end.

(** ** Points table *)

(** The object literal [pointsMap], own properties in source order. *)
Definition pointsMap : JsObject.t (list float) :=
  [ ("diamond", [36; 18; 9; 9]);
    ("platinum", [18; 9; 4.5; 4.5]);
    ("goldLimited", [6; 3; 1.5; 1.5]);
    ("gold", [5; 2.5; 1.2; 1.2]);
    ("silverEu2", [2; 1; 0.5; 0.5]);
    ("silverEu1", [1.6; 0.8; 0.4; 0.4]);
    ("silverUs1", [1.4; 0.7; 0.3; 0.3]);
    ("asia", [1.2; 0.6; 0.3; 0.3]);
    ("america", [2; 1; 0.5; 0.5]);
    ("silverUs2", [1.2; 0.6; 0; 0]);
    ("silverAsia1", [1.8; 0.9; 0.4; 0.4]);
    ("roundMadnessEu", [10; 5; 2.5; 1.7]);
    ("roundMadnessUs", [7; 3.5; 1.7; 1.2]);
    ("roundMadnessIndia", [6.4; 3.2; 1.6; 1.1]);
    ("halloweenCup", [10; 5; 2.5; 2.5]);
    ("Unknown", [0; 0; 0; 0]) ]%float.

(** What [pointsMap[tier] || [0, 0, 0, 0]] evaluates to: a points array,
    or the member of [Object.prototype] found under the name [tier]
    (a function, or the prototype object itself for ["__proto__"]). *)
Inductive PointsValue : Type :=
| PointsArray (points : list float)
| InheritedMember (key : string).

(** [getPointsMapping(tier)] *)
Definition getPointsMapping (tier : string) : PointsValue :=
  match JsObject.getOwn pointsMap tier with
  | Some points => PointsArray points
  | None =>
      if JsObject.isPrototypeKey tier then InheritedMember tier
      else PointsArray [0; 0; 0; 0]%float
  end.

(** [x || 0] on a number read from an array or from the store: a number
    that is missing, a zero of either sign and NaN give 0. *)
Definition orZero (x : option float) : float :=
  match x with
  | Some q => if PrimFloat.is_zero q || PrimFloat.is_nan q then 0%float else q
  | None => 0%float
  end.

(** [pointsForPlacement[placement - 1] || 0]; [None] is a placement that
    is [undefined]. An inherited member has no numeric properties. *)
Definition pointsAt (pointsForPlacement : PointsValue) (placement : option Z) : float :=
  match pointsForPlacement, placement with
  | PointsArray points, Some p =>
      if p - 1 <? 0 then 0%float
      else orZero (nth_error points (Z.to_nat (p - 1)))
  | _, _ => 0%float
  end.

(** ** Placement counters *)

Inductive StatField : Type := First | Second | Third.

(** [getStatFieldForPlacement(placement)]; [None] as argument is
    [undefined], [None] as result is [null]. *)
Definition getStatFieldForPlacement (placement : option Z) : option StatField :=
  match placement with
  | Some 1 => Some First
  | Some 2 => Some Second
  | Some 3 => Some Third
  | Some 4 => Some Third
  | _ => None
  end.

(** ** The store

    The paths the pipeline touches, as typed records. A node that does
    not exist is an absent key or a [None] field. *)

(** A tier node [{first, second, third}]; a counter that is missing in
    the store reads as 0, as the code reads it ([|| 0]). *)
Record TierStats : Type := mkTierStats
  { first : Z; second : Z; third : Z }.

Definition zeroStats : TierStats := mkTierStats 0 0 0.

(** A node [.../seasons/<season>]: its [totalPoints] and one child per
    tier. *)
Record SeasonData : Type := mkSeasonData
  { season_totalPoints : option float;
    season_tiers : gmap string TierStats }.

Definition emptySeason : SeasonData := mkSeasonData None ∅.

(** [players/<playfabId>]: the individual results. *)
Record PlayerResult : Type := mkPlayerResult
  { pr_totalPoints : option float;
    pr_isRegistered : option bool;
    pr_name : option string;
    pr_trophyCount : option Z;
    pr_tiers : gmap string TierStats;
    pr_seasons : gmap Z SeasonData }.

(** [clubs/<clubId>/players/<playerKey>]. *)
Record ClubPlayer : Type := mkClubPlayer
  { cp_playfabId : option string;
    cp_name : option string;
    cp_totalPoints : option float;
    cp_tiers : gmap string TierStats;
    cp_seasons : gmap Z SeasonData }.

(** [clubs/<clubId>]; the players in the order [Object.entries] yields
    them. *)
Record Club : Type := mkClub
  { club_name : option string;
    club_players : list (string * ClubPlayer);
    club_totalPoints : option float;
    club_tiers : gmap string TierStats;
    club_seasons : gmap Z SeasonData }.

(** The database: [clubs] in the order [Object.entries] yields them,
    [clubs_summary/<clubId>/totalPoints], [players], and the keys under
    [fetchedTournaments]. *)
Record Db : Type := mkDb
  { clubs : list (string * Club);
    clubs_summary : gmap string float;
    players : gmap string PlayerResult;
    fetchedTournaments : gset string }.

Definition withClubs (f : list (string * Club) -> list (string * Club)) (db : Db) : Db :=
  mkDb (f (clubs db)) (clubs_summary db) (players db) (fetchedTournaments db).

Definition withSummary (f : gmap string float -> gmap string float) (db : Db) : Db :=
  mkDb (clubs db) (f (clubs_summary db)) (players db) (fetchedTournaments db).

Definition withPlayers
    (f : gmap string PlayerResult -> gmap string PlayerResult) (db : Db) : Db :=
  mkDb (clubs db) (clubs_summary db) (f (players db)) (fetchedTournaments db).

Definition withFetched (f : gset string -> gset string) (db : Db) : Db :=
  mkDb (clubs db) (clubs_summary db) (players db) (f (fetchedTournaments db)).

(** Change of the first entry stored under key [k]. *)
Fixpoint alterEntry {V : Type} (k : string) (f : V -> V) (l : list (string * V))
  : list (string * V) :=
  match l with
  | [] => []
  | (k', v) :: l' =>
      if String.eqb k' k then (k', f v) :: l' else (k', v) :: alterEntry k f l'
  end.

Fixpoint lookupEntry {V : Type} (k : string) (l : list (string * V)) : option V :=
  match l with
  | [] => None
  | (k', v) :: l' => if String.eqb k' k then Some v else lookupEntry k l'
  end.

(** Counters of a tier node. *)
Definition readStat (f : StatField) (s : TierStats) : Z :=
  match f with First => first s | Second => second s | Third => third s end.

Definition writeStat (f : StatField) (v : Z) (s : TierStats) : TierStats :=
  match f with
  | First => mkTierStats v (second s) (third s)
  | Second => mkTierStats (first s) v (third s)
  | Third => mkTierStats (first s) (second s) v
  end.

(** [initializeTournamentStats(tierRef)] on the table that holds the tier
    node. *)
Definition initializeTournamentStats (tier : string) (t : gmap string TierStats)
  : gmap string TierStats :=
  match t !! tier with
  | Some _ => t
  | None => <[tier := zeroStats]> t
  end.

(** [(await tierRef.once('value')).val()?.[statField] || 0] *)
Definition currentValue (tier : string) (f : StatField) (t : gmap string TierStats) : Z :=
  match t !! tier with
  | Some s => readStat f s
  | None => 0
  end.

(** [tierRef.update({ [statField]: v })] *)
Definition updateStat (tier : string) (f : StatField) (v : Z) (t : gmap string TierStats)
  : gmap string TierStats :=
  <[tier := writeStat f v (default zeroStats (t !! tier))]> t.

(** A JavaScript string read from the store is truthy when present and
    not empty. *)
Definition truthyField (s : option string) : bool :=
  match s with Some s => Str.truthy s | None => false end.

(** The normalisation of a PlayFab id: upper case, whitespace removed. *)
Definition normalizeId (s : string) : string :=
  Str.removeSpaces (Str.toUpperCase s).

(** ** Roster cache *)

Record PlayerInfo : Type := mkPlayerInfo
  { pi_name : string;
    pi_clubName : string;
    pi_clubId : option string;
    pi_playerId : option string }.

(** The placeholder used for a competitor who is not in the cache. *)
Definition unknownPlayer : PlayerInfo :=
  mkPlayerInfo "Unknown Player" "No Club" None None.

(** [fetchClubsAndPlayers()]: the cache built from the [clubs] node. Its
    keys are upper-case, so no read of it meets an inherited member. *)
Definition cachePlayersOfClub (clubId : string) (clubData : Club)
    (cache : gmap string PlayerInfo) : gmap string PlayerInfo :=
  match club_name clubData with
  | None => cache
  | Some clubName =>
      if negb (Str.truthy clubName) then cache else
      fold_left
        (fun cache (entry : string * ClubPlayer) =>
           let '(playerId, playerData) := entry in
           match cp_playfabId playerData, cp_name playerData with
           | Some playfabId, Some name =>
               if negb (Str.truthy playfabId) || negb (Str.truthy name) then cache
               else <[normalizeId playfabId :=
                        mkPlayerInfo name clubName (Some clubId) (Some playerId)]> cache
           | _, _ => cache
           end)
        (club_players clubData) cache
  end.

Definition fetchClubsAndPlayers (db : Db) : gmap string PlayerInfo :=
  fold_left
    (fun cache (entry : string * Club) =>
       cachePlayersOfClub (fst entry) (snd entry) cache)
    (clubs db) ∅.

(** ** Teams *)

(** A participant row. [userPlayfabId] is a string when present;
    [userPlace] holds [parseInt(row.userPlace)], with [None] for [NaN];
    [partyId] holds the property name the value converts to, with [None]
    for a value that is missing or falsy. *)
Record Row : Type := mkRow
  { userPlayfabId : option string;
    userPlace : option Z;
    partyId : option string }.

Record Team : Type := mkTeam
  { placements : list Z;
    clubNames : list string;
    playerIds : list string;
    playerNames : list string;
    hasUnregisteredPlayers : bool }.

Definition newTeam : Team := mkTeam [] [] [] [] false.

Inductive Exception : Type := TypeError | FetchError.

Inductive Result (A : Type) : Type :=
| Returned (a : A)
| Thrown (e : Exception).

Arguments Returned {A} a.
Arguments Thrown {A} e.

(** The body of the [forEach] callback of [groupPlayersByTeam]. A
    [partyId] that names a member of [Object.prototype] reads as an
    existing team, and the [push] on its missing [clubNames] throws. *)
Definition groupRow (players : gmap string PlayerInfo) (teams : JsObject.t Team) (row : Row)
  : Result (JsObject.t Team) :=
  match userPlayfabId row, partyId row, userPlace row with
  | Some rawId, Some partyId, Some placement =>
      let playerId := Str.toUpperCase rawId in
      if negb (Str.truthy playerId) || negb (Str.truthy partyId)
         || (placement <? 1) || (placement >? 4)
      then Returned teams
      else
        let playerInfo := default unknownPlayer (players !! playerId) in
        match JsObject.getOwn teams partyId with
        | None =>
            if JsObject.isPrototypeKey partyId then Thrown TypeError
            else
              let team := newTeam in
              let unregistered :=
                match players !! playerId with
                | None => true
                | Some _ => hasUnregisteredPlayers team
                end in
              Returned (JsObject.set teams partyId
                (mkTeam (placements team ++ [placement])
                        (clubNames team ++ [pi_clubName playerInfo])
                        (playerIds team ++ [playerId])
                        (playerNames team ++ [pi_name playerInfo])
                        unregistered))
        | Some team =>
            let unregistered :=
              match players !! playerId with
              | None => true
              | Some _ => hasUnregisteredPlayers team
              end in
            Returned (JsObject.replaceOwn teams partyId
              (mkTeam (placements team ++ [placement])
                      (clubNames team ++ [pi_clubName playerInfo])
                      (playerIds team ++ [playerId])
                      (playerNames team ++ [pi_name playerInfo])
                      unregistered))
        end
  | _, _, _ => Returned teams
  end.

Fixpoint groupRows (players : gmap string PlayerInfo) (rows : list Row)
    (teams : JsObject.t Team) : Result (JsObject.t Team) :=
  match rows with
  | [] => Returned teams
  | row :: rows' =>
      match groupRow players teams row with
      | Returned teams' => groupRows players rows' teams'
      | Thrown e => Thrown e
      end
  end.

(** [groupPlayersByTeam(tournamentData, players)] *)
Definition groupPlayersByTeam (tournamentData : list Row) (players : gmap string PlayerInfo)
  : Result (JsObject.t Team) :=
  groupRows players tournamentData JsObject.empty.

(** [Math.min(...placements)]; [None] is [Infinity], the value for no
    arguments. *)
Definition mathMin (l : list Z) : option Z :=
  match l with
  | [] => None
  | x :: l' => Some (fold_left Z.min l' x)
  end.

(** Whether the comparator [bestPlacementA - bestPlacementB] is positive,
    that is, whether [sort] must place B before A. [Infinity - Infinity]
    is [NaN], which [sort] takes as 0. *)
Definition comparatorPositive (teamA teamB : Team) : bool :=
  match mathMin (placements teamA), mathMin (placements teamB) with
  | Some a, Some b => 0 <? a - b
  | None, Some _ => true
  | _, None => false
  end.

(** [Array.prototype.sort] is stable: an entry moves past exactly the
    entries it compares greater than. *)
Fixpoint insertSorted (e : string * Team) (l : list (string * Team))
  : list (string * Team) :=
  match l with
  | [] => [e]
  | e' :: l' =>
      if comparatorPositive (snd e) (snd e') then e' :: insertSorted e l'
      else e :: e' :: l'
  end.

Definition sortEntries (l : list (string * Team)) : list (string * Team) :=
  fold_right insertSorted [] l.

(** [sortTeamsByPlacement(teams)]: the sorted entries are written into a
    fresh object, whose own enumeration order is what callers see. *)
Definition sortTeamsByPlacement (teams : JsObject.t Team) : JsObject.t Team :=
  fold_left (fun acc (e : string * Team) => JsObject.set acc (fst e) (snd e))
    (sortEntries (JsObject.entries teams)) JsObject.empty.

(** ** Writes to the store *)

Section Pipeline.

(** The season loaded once per run ([loadCurrentSeason]). *)
Variable currentSeason : Z.

(** The participant rows the tournament feed returns for a tournament
    id; [None] is a failed request or a response that is not an array. *)
Variable feed : string -> option (list Row).

Definition seasonOf (seasons : gmap Z SeasonData) : SeasonData :=
  default emptySeason (seasons !! currentSeason).

(** [.../seasons/<currentSeason>/totalPoints || 0] *)
Definition seasonPoints (seasons : gmap Z SeasonData) : float :=
  orZero (season_totalPoints (seasonOf seasons)).

Definition setSeasonPoints (v : float) (seasons : gmap Z SeasonData) : gmap Z SeasonData :=
  <[currentSeason := mkSeasonData (Some v) (season_tiers (seasonOf seasons))]> seasons.

Definition withSeasonTiers (f : gmap string TierStats -> gmap string TierStats)
    (seasons : gmap Z SeasonData) : gmap Z SeasonData :=
  <[currentSeason :=
      mkSeasonData (season_totalPoints (seasonOf seasons))
                   (f (season_tiers (seasonOf seasons)))]> seasons.

(** The first club, in enumeration order, whose name is [clubName]. *)
Fixpoint findClubByName (clubName : string) (l : list (string * Club)) : option string :=
  match l with
  | [] => None
  | (clubId, clubData) :: l' =>
      match club_name clubData with
      | Some n => if String.eqb n clubName then Some clubId
                  else findClubByName clubName l'
      | None => findClubByName clubName l'
      end
  end.

(** [updateClubPoints(clubName, points)] *)
Definition updateClubPoints (clubName : string) (points : float) (db : Db) : Db :=
  match findClubByName clubName (clubs db) with
  | None => db
  | Some clubId =>
      match lookupEntry clubId (clubs db) with
      | None => db
      | Some currentData =>
          let currentTotalPoints := orZero (club_totalPoints currentData) in
          let currentSeasonPoints := seasonPoints (club_seasons currentData) in
          let db1 :=
            withClubs (alterEntry clubId (fun c =>
              mkClub (club_name c) (club_players c)
                     (Some (currentTotalPoints + points)%float)
                     (club_tiers c)
                     (setSeasonPoints (currentSeasonPoints + points)%float (club_seasons c)))) db in
          withSummary (insert clubId (currentTotalPoints + points)%float) db1
      end
  end.

(** The writes to a season tier node and to the overall tier node that
    the three [update...Stats] routines share: initialise both, then
    add one to the counter the placement selects. *)
Definition bumpTiers (tier : string) (placement : option Z)
    (tiers : gmap string TierStats) (seasons : gmap Z SeasonData)
  : gmap string TierStats * gmap Z SeasonData :=
  let seasons1 := withSeasonTiers (initializeTournamentStats tier) seasons in
  let tiers1 := initializeTournamentStats tier tiers in
  match getStatFieldForPlacement placement with
  | Some statField =>
      let currentSeasonValue :=
        currentValue tier statField (season_tiers (seasonOf seasons1)) in
      let currentOverallValue := currentValue tier statField tiers1 in
      (updateStat tier statField (currentOverallValue + 1) tiers1,
       withSeasonTiers (updateStat tier statField (currentSeasonValue + 1)) seasons1)
  | None => (tiers1, seasons1)
  end.

(** [updateClubTournamentStats(clubName, tier, placement)] *)
Definition updateClubTournamentStats (clubName tier : string) (placement : option Z)
    (db : Db) : Db :=
  if String.eqb tier "Unknown" then db else
  match findClubByName clubName (clubs db) with
  | None => db
  | Some clubId =>
      withClubs (alterEntry clubId (fun c =>
        let '(tiers, seasons) :=
          bumpTiers tier placement (club_tiers c) (club_seasons c) in
        mkClub (club_name c) (club_players c) (club_totalPoints c) tiers seasons)) db
  end.

Definition optionBoolEq (a b : option bool) : bool :=
  match a, b with
  | Some x, Some y => Bool.eqb x y
  | None, None => true
  | _, _ => false
  end.

(** [updateIndividualPlayerResult(playerId, tier, placement, points)] *)
Definition updateIndividualPlayerResult (playerId tier : string)
    (placement : option Z) (points : float) (db : Db) : Db :=
  if String.eqb tier "Unknown" then db else
  let existingPlayerData := players db !! playerId in
  let isRegistered :=
    match existingPlayerData with
    | Some d => default false (pr_isRegistered d)
    | None => false
    end in
  let playerSnapshot := players db !! playerId in
  (* the node itself: created, or its registration flag refreshed *)
  let node1 :=
    match playerSnapshot with
    | None =>
        match existingPlayerData with
        | Some d =>
            if isRegistered
            then mkPlayerResult (Some 0%float) (Some isRegistered)
                   (pr_name d) (pr_trophyCount d) ∅ ∅
            else mkPlayerResult (Some 0%float) (Some isRegistered) None None ∅ ∅
        | None => mkPlayerResult (Some 0%float) (Some isRegistered) None None ∅ ∅
        end
    | Some existingData =>
        if negb (optionBoolEq (pr_isRegistered existingData) (Some isRegistered))
        then
          match existingPlayerData with
          | Some d =>
              if isRegistered && negb (truthyField (pr_name existingData))
              then mkPlayerResult (pr_totalPoints existingData) (Some isRegistered)
                     (pr_name d) (pr_trophyCount d)
                     (pr_tiers existingData) (pr_seasons existingData)
              else mkPlayerResult (pr_totalPoints existingData) (Some isRegistered)
                     (pr_name existingData) (pr_trophyCount existingData)
                     (pr_tiers existingData) (pr_seasons existingData)
          | None => mkPlayerResult (pr_totalPoints existingData) (Some isRegistered)
                     (pr_name existingData) (pr_trophyCount existingData)
                     (pr_tiers existingData) (pr_seasons existingData)
          end
        else existingData
    end in
  (* the season node *)
  let seasons2 :=
    match pr_seasons node1 !! currentSeason with
    | Some _ => pr_seasons node1
    | None => <[currentSeason := mkSeasonData (Some 0%float) ∅]> (pr_seasons node1)
    end in
  (* tier counters, season and overall *)
  let '(tiers3, seasons3) := bumpTiers tier placement (pr_tiers node1) seasons2 in
  (* points; the lifetime total is read from the first snapshot *)
  let currentTotalPoints :=
    orZero (match playerSnapshot with Some d => pr_totalPoints d | None => None end) in
  let currentSeasonPoints := seasonPoints seasons3 in
  withPlayers
    (insert playerId
       (mkPlayerResult (Some (currentTotalPoints + points)%float)
          (pr_isRegistered node1) (pr_name node1) (pr_trophyCount node1)
          tiers3 (setSeasonPoints (currentSeasonPoints + points)%float seasons3)))
    db.

(** The first player of a club whose normalised PlayFab id is
    [playerId]. *)
Fixpoint findPlayerKey (playerId : string) (l : list (string * ClubPlayer))
  : option string :=
  match l with
  | [] => None
  | (playerKey, playerData) :: l' =>
      match cp_playfabId playerData with
      | Some raw =>
          if String.eqb (normalizeId raw) playerId then Some playerKey
          else findPlayerKey playerId l'
      | None => findPlayerKey playerId l'
      end
  end.

(** [findPlayerLocation(playerId)] *)
Fixpoint findPlayerLocationIn (playerId : string) (l : list (string * Club))
  : option (string * string) :=
  match l with
  | [] => None
  | (clubId, clubData) :: l' =>
      match findPlayerKey playerId (club_players clubData) with
      | Some playerKey => Some (clubId, playerKey)
      | None => findPlayerLocationIn playerId l'
      end
  end.

Definition findPlayerLocation (playerId : string) (db : Db) : option (string * string) :=
  findPlayerLocationIn playerId (clubs db).

Definition alterClubPlayer (clubId playerKey : string) (f : ClubPlayer -> ClubPlayer)
    (db : Db) : Db :=
  withClubs (alterEntry clubId (fun c =>
    mkClub (club_name c) (alterEntry playerKey f (club_players c))
           (club_totalPoints c) (club_tiers c) (club_seasons c))) db.

(** [updatePlayerPoints(playerId, points)] *)
Definition updatePlayerPoints (playerId : string) (points : float) (db : Db) : Db :=
  match findPlayerLocation playerId db with
  | None => db
  | Some (clubId, playerKey) =>
      alterClubPlayer clubId playerKey (fun p =>
        let currentTotalPoints := orZero (cp_totalPoints p) in
        let currentSeasonPoints := seasonPoints (cp_seasons p) in
        mkClubPlayer (cp_playfabId p) (cp_name p)
          (Some (currentTotalPoints + points)%float) (cp_tiers p)
          (setSeasonPoints (currentSeasonPoints + points)%float (cp_seasons p))) db
  end.

(** [updatePlayerTournamentStats(playerId, tier, placement)] *)
Definition updatePlayerTournamentStats (playerId tier : string) (placement : option Z)
    (db : Db) : Db :=
  if String.eqb tier "Unknown" then db else
  match findPlayerLocation playerId db with
  | None => db
  | Some (clubId, playerKey) =>
      alterClubPlayer clubId playerKey (fun p =>
        let '(tiers, seasons) :=
          bumpTiers tier placement (cp_tiers p) (cp_seasons p) in
        mkClubPlayer (cp_playfabId p) (cp_name p) (cp_totalPoints p) tiers seasons) db
  end.

(** ** Per-team processing *)

Definition isClub (club : string) : bool := negb (String.eqb club "No Club").

(** The elements of [new Set(l)], in insertion order. *)
Fixpoint distinct (l : list string) : list string :=
  match l with
  | [] => []
  | x :: l' => x :: List.filter (fun y => negb (String.eqb y x)) (distinct l')
  end.

(** [hasThreePlayers && uniqueClubs.size === 1 &&
     team.clubNames.filter(club => club !== 'No Club').length === 3] *)
Definition allPlayersFromSameClub (team : Team) : bool :=
  let uniqueClubs := distinct (List.filter isClub (clubNames team)) in
  let hasThreePlayers := (length (playerIds team) =? 3)%nat in
  hasThreePlayers
  && (length uniqueClubs =? 1)%nat
  && (length (List.filter isClub (clubNames team)) =? 3)%nat.

(** What [processTeamResults] returns. *)
Inductive ProcessResult : Type :=
| Awarded (clubName : string) (pointsAwarded : float) (placement : option Z)
          (playerCount individualResults : nat)
| NotAwarded (reason : string) (individualResults : nat).

Definition processed (r : ProcessResult) : bool :=
  match r with Awarded _ _ _ _ _ => true | NotAwarded _ _ => false end.

(** The first loop of [processTeamResults]: one individual result per
    member, [placements[i]] going with [playerIds[i]]. *)
Fixpoint recordIndividualResults (pointsForPlacement : PointsValue) (tier : string)
    (ids : list string) (places : list Z) (db : Db) : Db :=
  match ids with
  | [] => db
  | playerId :: ids' =>
      let individualPlacement := head places in
      let individualPoints := pointsAt pointsForPlacement individualPlacement in
      recordIndividualResults pointsForPlacement tier ids' (tail places)
        (updateIndividualPlayerResult playerId tier individualPlacement
           individualPoints db)
  end.

(** The second loop: the members' entries inside their club. *)
Fixpoint recordClubPlayerResults (pointsForPlacement : PointsValue) (tier : string)
    (roster : gmap string PlayerInfo)
    (ids : list string) (places : list Z) (db : Db) : Db :=
  match ids with
  | [] => db
  | playerId :: ids' =>
      let individualPlacement := head places in
      let individualPoints := pointsAt pointsForPlacement individualPlacement in
      let db' :=
        match roster !! playerId with
        | Some _ =>
            updatePlayerTournamentStats playerId tier individualPlacement
              (updatePlayerPoints playerId individualPoints db)
        | None => db
        end in
      recordClubPlayerResults pointsForPlacement tier roster ids' (tail places) db'
  end.

(** [processTeamResults(team, pointsForPlacement, tier,
     clubsAlreadyAwarded, players)] *)
Definition processTeamResults (team : Team) (pointsForPlacement : PointsValue)
    (tier : string) (clubsAlreadyAwarded : gset string)
    (roster : gmap string PlayerInfo) (db : Db)
  : ProcessResult * gset string * Db :=
  let hasThreePlayers := (length (playerIds team) =? 3)%nat in
  let placement := head (placements team) in
  let pointsAwarded := pointsAt pointsForPlacement placement in
  let db1 :=
    recordIndividualResults pointsForPlacement tier
      (playerIds team) (placements team) db in
  let db2 :=
    if allPlayersFromSameClub team
    then recordClubPlayerResults pointsForPlacement tier roster
           (playerIds team) (placements team) db1
    else db1 in
  let notAwarded :=
    NotAwarded
      (if negb hasThreePlayers then "Invalid team size"
       else if negb (allPlayersFromSameClub team)
            then "Not all players from same registered club"
            else "Club already awarded")
      (length (playerIds team)) in
  if allPlayersFromSameClub team then
    match List.find isClub (clubNames team) with
    | Some clubName =>
        if Str.truthy clubName && negb (bool_decide (clubName ∈ clubsAlreadyAwarded))
        then
          (Awarded clubName pointsAwarded placement
             (length (playerIds team)) (length (playerIds team)),
           {[clubName]} ∪ clubsAlreadyAwarded,
           updateClubTournamentStats clubName tier placement
             (updateClubPoints clubName pointsAwarded db2))
        else (notAwarded, clubsAlreadyAwarded, db2)
    | None => (notAwarded, clubsAlreadyAwarded, db2)
    end
  else (notAwarded, clubsAlreadyAwarded, db2).

(** ** Per-tournament processing *)

(** The loop of [processTournamentResults] over the entries of the
    sorted teams, threading the set of clubs already awarded. *)
Fixpoint processTeams (teams : list (string * Team)) (pointsForPlacement : PointsValue)
    (tier : string) (clubsAlreadyAwarded : gset string)
    (roster : gmap string PlayerInfo) (db : Db)
  : list ProcessResult * gset string * Db :=
  match teams with
  | [] => ([], clubsAlreadyAwarded, db)
  | (_, team) :: teams' =>
      let '(processResult, awarded', db') :=
        processTeamResults team pointsForPlacement tier clubsAlreadyAwarded roster db in
      let '(results, awarded'', db'') :=
        processTeams teams' pointsForPlacement tier awarded' roster db' in
      (processResult :: results, awarded'', db'')
  end.

(** How a routine that may throw completes; the store is the one at
    that moment, writes made before a throw stay. *)
Inductive Completion : Type :=
| Normal (db : Db)
| Abrupt (e : Exception) (db : Db).

(** [processTournamentResults(tournamentData, tier, tournamentName)] *)
Definition processTournamentResults (tournamentData : list Row) (tier : string)
    (db : Db) : Completion :=
  let roster := fetchClubsAndPlayers db in
  match groupPlayersByTeam tournamentData roster with
  | Thrown e => Abrupt e db
  | Returned teams =>
      let sortedTeams := sortTeamsByPlacement teams in
      let pointsForPlacement := getPointsMapping tier in
      let '(_, _, db') :=
        processTeams (JsObject.entries sortedTeams) pointsForPlacement tier ∅ roster db in
      Normal db'
  end.

(** [fetchAndProcessTournamentData(tournamentId, tier, tournamentName)] *)
Definition fetchAndProcessTournamentData (tournamentId tier : string) (db : Db)
  : Completion :=
  match feed tournamentId with
  | None => Abrupt FetchError db
  | Some tournamentData => processTournamentResults tournamentData tier db
  end.

(** ** The batch loop and its markers *)

Record Tournament : Type := mkTournament
  { tournamentId : string;
    tournamentName : option string }.

(** [isTournamentAlreadyProcessed(tournamentId)] *)
Definition isTournamentAlreadyProcessed (tournamentId : string) (db : Db) : bool :=
  bool_decide (tournamentId ∈ fetchedTournaments db).

(** [markTournamentAsProcessed(tournamentId)] *)
Definition markTournamentAsProcessed (tournamentId : string) (db : Db) : Db :=
  withFetched (fun s => {[tournamentId]} ∪ s) db.

(** The [for] loop of [fetchAndProcessTournaments] over the fetched
    tournaments; a throw leaves the loop for the [catch] that encloses
    it. *)
Fixpoint fetchAndProcessTournaments (tournaments : list Tournament) (db : Db) : Db :=
  match tournaments with
  | [] => db
  | tournament :: rest =>
      let tier := getTierFromName (tournamentName tournament) in
      let alreadyFetched :=
        isTournamentAlreadyProcessed (tournamentId tournament) db in
      if negb alreadyFetched then
        match fetchAndProcessTournamentData (tournamentId tournament) tier db with
        | Normal db1 =>
            fetchAndProcessTournaments rest
              (markTournamentAsProcessed (tournamentId tournament) db1)
        | Abrupt _ db1 => db1
        end
      else fetchAndProcessTournaments rest db
  end.

End Pipeline.

(** * Auxiliary definitions for the statements *)

(** Whether one of the five silver rules, which come first, applies. *)
Definition matchesSilverRule (name : string) : bool :=
  let has := Str.includes (Str.toLowerCase name) in
  has "silver"
  && (has "singapore" || (has "eu" && (has "1" || has "2"))
      || (has "us" && (has "1" || has "2"))).


(** ** Sample data *)

Module Sample.

Definition clubPlayer (playfabId name : string) : ClubPlayer :=
  mkClubPlayer (Some playfabId) (Some name) None ∅ ∅.

(** A store with one club, "Club A", of three players. The PlayFab id
    of the second one is stored with a space and in lower case. *)
Definition clubA : Club :=
  mkClub (Some "Club A")
    [ ("k1", clubPlayer "A1" "Ann");
      ("k2", clubPlayer "a 2" "Bob");
      ("k3", clubPlayer "A3" "Cy") ]
    None ∅ ∅.

Definition db : Db := mkDb [("clubA", clubA)] ∅ ∅ ∅.

(** The same store after the club has earned 0.4 points. *)
Definition dbWithPoints : Db :=
  mkDb [("clubA", mkClub (club_name clubA) (club_players clubA) (Some 0.4%float) ∅ ∅)]
    ∅ ∅ ∅.

Definition row (playfabId : string) (place : Z) (party : string) : Row :=
  mkRow (Some playfabId) (Some place) (Some party).

(** Four teams of three; the team of Club A is second. *)
Definition rows : list Row :=
  [ row "x1" 1 "t1"; row "x2" 1 "t1"; row "x3" 1 "t1";
    row "a1" 2 "t2"; row "a2" 2 "t2"; row "a3" 2 "t2";
    row "c1" 3 "t3"; row "c2" 3 "t3"; row "c3" 3 "t3";
    row "d1" 4 "t4"; row "d2" 4 "t4"; row "d3" 4 "t4" ].

Definition feed (tournamentId : string) : option (list Row) :=
  if String.eqb tournamentId "T1" then Some rows else None.

Definition silverCup : Tournament := mkTournament "T1" (Some "EU Silver Cup 1").

Definition friendly : Tournament := mkTournament "T1" (Some "Friendly Cup").

(** Rows of one team of Club A that carry different placements, in two
    orders, and the teams they are grouped into. *)
Definition unevenRows : list Row :=
  [ row "a1" 3 "p"; row "a2" 1 "p"; row "a3" 1 "p" ].

Definition unevenRows' : list Row :=
  [ row "a2" 1 "p"; row "a1" 3 "p"; row "a3" 1 "p" ].

Definition unevenTeam : Team :=
  mkTeam [3; 1; 1] ["Club A"; "Club A"; "Club A"] ["A1"; "A2"; "A3"]
    ["Ann"; "Bob"; "Cy"] false.

Definition unevenTeam' : Team :=
  mkTeam [1; 3; 1] ["Club A"; "Club A"; "Club A"] ["A2"; "A1"; "A3"]
    ["Bob"; "Ann"; "Cy"] false.

(** The teams the rows of [rows] are grouped into. *)
Definition teamA : Team :=
  mkTeam [2; 2; 2] ["Club A"; "Club A"; "Club A"] ["A1"; "A2"; "A3"]
    ["Ann"; "Bob"; "Cy"] false.

Definition strangers (place : Z) (a b c : string) : Team :=
  mkTeam [place; place; place] ["No Club"; "No Club"; "No Club"] [a; b; c]
    ["Unknown Player"; "Unknown Player"; "Unknown Player"] true.

Definition grouped : JsObject.t Team :=
  [ ("t1", strangers 1 "X1" "X2" "X3");
    ("t2", teamA);
    ("t3", strangers 3 "C1" "C2" "C3");
    ("t4", strangers 4 "D1" "D2" "D3") ].

End Sample.

(** ** Teams as [groupPlayersByTeam] builds them *)

(** The club name a competitor id resolves to in the roster cache; a
    competitor who is not in the cache resolves to "No Club". *)
Definition resolveClub (roster : gmap string PlayerInfo) (playerId : string) : string :=
  pi_clubName (default unknownPlayer (roster !! playerId)).

(** What holds of every team in the object that [groupPlayersByTeam]
    returns. *)
Record GroupedTeam (roster : gmap string PlayerInfo) (team : Team) : Prop :=
  { grouped_clubNames : clubNames team = map (resolveClub roster) (playerIds team);
    grouped_length : length (placements team) = length (playerIds team);
    grouped_placements : Forall (fun p => 1 <= p <= 4) (placements team);
    grouped_nonempty : playerIds team <> [];
    grouped_unregistered :
      hasUnregisteredPlayers team = true <->
      exists playerId, playerId ∈ playerIds team /\ roster !! playerId = None }.

(** ** Club awards *)

(** The club a team can be awarded for: the team passes the same-club
    test, and the club name found on it is a usable name. *)
Definition eligibleClub (team : Team) : option string :=
  if allPlayersFromSameClub team then
    match List.find isClub (clubNames team) with
    | Some clubName => if Str.truthy clubName then Some clubName else None
    | None => None
    end
  else None.

(** The club-level aggregates of the store: for every club its name,
    totals and tier counters (not the entries of its players), and the
    summary of the club totals. *)
Definition clubAggregates (c : Club)
  : option string * option float * gmap string TierStats * gmap Z SeasonData :=
  (club_name c, club_totalPoints c, club_tiers c, club_seasons c).

Definition clubLevel (db : Db)
  : list (string * (option string * option float * gmap string TierStats * gmap Z SeasonData))
    * gmap string float :=
  (map (fun e => (fst e, clubAggregates (snd e))) (clubs db), clubs_summary db).

(** The store after the two member loops of [processTeamResults]. *)
Definition afterMembers (currentSeason : Z) (team : Team) (points : PointsValue)
    (tier : string) (roster : gmap string PlayerInfo) (db : Db) : Db :=
  let db1 :=
    recordIndividualResults currentSeason points tier
      (playerIds team) (placements team) db in
  if allPlayersFromSameClub team
  then recordClubPlayerResults currentSeason points tier roster
         (playerIds team) (placements team) db1
  else db1.

(** ** Totals and counters, as they are read *)





(** The lifetime total of the club stored under [clubId]. *)
Definition clubLifetimePoints (db : Db) (clubId : string) : float :=
  orZero (match lookupEntry clubId (clubs db) with
          | Some c => club_totalPoints c
          | None => None
          end).

(** The season total of a club, and its counters, lifetime and season. *)
Definition clubSeasonPoints (currentSeason : Z) (db : Db) (clubId : string) : float :=
  match lookupEntry clubId (clubs db) with
  | Some c => seasonPoints currentSeason (club_seasons c)
  | None => 0%float
  end.

Definition clubCounter (db : Db) (clubId tier : string) (f : StatField) : Z :=
  match lookupEntry clubId (clubs db) with
  | Some c => currentValue tier f (club_tiers c)
  | None => 0
  end.

Definition clubSeasonCounter (currentSeason : Z) (db : Db) (clubId tier : string)
    (f : StatField) : Z :=
  match lookupEntry clubId (clubs db) with
  | Some c => currentValue tier f (season_tiers (seasonOf currentSeason (club_seasons c)))
  | None => 0
  end.

(** The individual totals and counters of a competitor ([players/<id>]). *)
Definition individualPoints (db : Db) (playerId : string) : float :=
  orZero (match players db !! playerId with
          | Some r => pr_totalPoints r
          | None => None
          end).

Definition individualSeasonPoints (currentSeason : Z) (db : Db) (playerId : string) : float :=
  match players db !! playerId with
  | Some r => seasonPoints currentSeason (pr_seasons r)
  | None => 0%float
  end.

Definition individualCounter (db : Db) (playerId tier : string) (f : StatField) : Z :=
  match players db !! playerId with
  | Some r => currentValue tier f (pr_tiers r)
  | None => 0
  end.

Definition individualSeasonCounter (currentSeason : Z) (db : Db) (playerId tier : string)
    (f : StatField) : Z :=
  match players db !! playerId with
  | Some r => currentValue tier f (season_tiers (seasonOf currentSeason (pr_seasons r)))
  | None => 0
  end.

(** The keys and names of the clubs: what the lookups by name read. *)
Definition directory (db : Db) : list (string * option string) :=
  map (fun e => (fst e, club_name (snd e))) (clubs db).

(** The totals as the store holds them; [None] is a node or a field
    that is missing. *)
Definition storedClubPoints (db : Db) (clubId : string) : option float :=
  lookupEntry clubId (clubs db) ≫= club_totalPoints.

Definition storedClubSeasonPoints (currentSeason : Z) (db : Db) (clubId : string)
  : option float :=
  lookupEntry clubId (clubs db) ≫= fun c =>
  club_seasons c !! currentSeason ≫= season_totalPoints.

Definition storedIndividualPoints (db : Db) (playerId : string) : option float :=
  players db !! playerId ≫= pr_totalPoints.

Definition storedIndividualSeasonPoints (currentSeason : Z) (db : Db) (playerId : string)
  : option float :=
  players db !! playerId ≫= fun r =>
  pr_seasons r !! currentSeason ≫= season_totalPoints.

(** What one individual result adds for a competitor: each of the two
    totals stored afterwards is the sum, as doubles add, of the total
    read before (a missing one as 0) and the points; and the counter,
    lifetime and season, is one more. *)
Definition individualResultAdded (currentSeason : Z) (db db' : Db)
    (playerId tier : string) (f : StatField) (points : float) : Prop :=
  storedIndividualPoints db' playerId
  = Some (individualPoints db playerId + points)%float
  /\ storedIndividualSeasonPoints currentSeason db' playerId
     = Some (individualSeasonPoints currentSeason db playerId + points)%float
  /\ individualCounter db' playerId tier f = individualCounter db playerId tier f + 1
  /\ individualSeasonCounter currentSeason db' playerId tier f
     = individualSeasonCounter currentSeason db playerId tier f + 1.

(** What one club award adds for a club, in the same way. *)
Definition clubAwardAdded (currentSeason : Z) (db db' : Db)
    (clubId tier : string) (f : StatField) (points : float) : Prop :=
  storedClubPoints db' clubId = Some (clubLifetimePoints db clubId + points)%float
  /\ storedClubSeasonPoints currentSeason db' clubId
     = Some (clubSeasonPoints currentSeason db clubId + points)%float
  /\ clubCounter db' clubId tier f = clubCounter db clubId tier f + 1
  /\ clubSeasonCounter currentSeason db' clubId tier f
     = clubSeasonCounter currentSeason db clubId tier f + 1.

(** The aggregates of the club stored under [clubId]. *)
Definition clubEntryAggregates (db : Db) (clubId : string) :=
  clubAggregates <$> lookupEntry clubId (clubs db).

(** The competitor ids of all teams, in processing order. *)
Definition allPlayerIds (teams : list (string * Team)) : list string :=
  concat (map (fun e => playerIds (snd e)) teams).

(** Every team of an object is as grouping builds teams. *)
Definition GroupedTeams (roster : gmap string PlayerInfo) (teams : JsObject.t Team) : Prop :=
  Forall (fun e => GroupedTeam roster (snd e)) teams.


(** ** Ordering of teams *)

(** The best placement of a team; [None] is [Infinity]. *)
Definition bestPlacement (team : Team) : option Z := mathMin (placements team).

(** [a <= b] on best placements. *)
Definition bestLe (a b : option Z) : Prop :=
  match a, b with
  | Some x, Some y => x <= y
  | _, None => True
  | None, Some _ => False
  end.

(** Whether the best placement of an entry is [k]. *)
Definition hasBest (k : option Z) (e : string * Team) : bool :=
  match bestPlacement (snd e), k with
  | Some x, Some y => x =? y
  | None, None => true
  | _, _ => false
  end.

(** A key that an object enumerates in creation order. *)
Definition plainKey (k : string) : Prop :=
  JsObject.arrayIndex k = None.

(** The order [sort] establishes on entries. *)
Definition entryLe (e1 e2 : string * Team) : Prop :=
  bestLe (bestPlacement (snd e1)) (bestPlacement (snd e2)).

(** * Further definitions for the statements *)

(** ** Rows, as grouping reads them *)

(** The competitor id, the party and the placement under which
    [groupPlayersByTeam] files a row; [None] for a row it skips. *)
Definition acceptedRow (row : Row) : option (string * string * Z) :=
  match userPlayfabId row, partyId row, userPlace row with
  | Some rawId, Some party, Some placement =>
      if negb (Str.truthy (Str.toUpperCase rawId)) || negb (Str.truthy party)
         || (placement <? 1) || (placement >? 4)
      then None
      else Some (Str.toUpperCase rawId, party, placement)
  | _, _, _ => None
  end.

Definition acceptedRows (rows : list Row) : list (string * string * Z) :=
  omap acceptedRow rows.

Definition memberId (m : string * string * Z) : string := fst (fst m).
Definition memberParty (m : string * string * Z) : string := snd (fst m).
Definition memberPlace (m : string * string * Z) : Z := snd m.

(** The accepted rows of one party, in the order of the rows. *)
Definition membersOf (party : string) (rows : list Row) : list (string * string * Z) :=
  List.filter (fun m => String.eqb (memberParty m) party) (acceptedRows rows).

(** The team that a list of accepted rows of one party makes. *)
Definition teamOfMembers (roster : gmap string PlayerInfo)
    (members : list (string * string * Z)) : Team :=
  mkTeam (map memberPlace members)
         (map (fun m => resolveClub roster (memberId m)) members)
         (map memberId members)
         (map (fun m => pi_name (default unknownPlayer (roster !! memberId m))) members)
         (existsb (fun m => match roster !! memberId m with
                            | None => true
                            | Some _ => false
                            end) members).

(** A row on which grouping throws: one it would accept, for a party id
    that names a member of [Object.prototype]. *)
Definition throwingRow (row : Row) : bool :=
  match acceptedRow row with
  | Some m => JsObject.isPrototypeKey (memberParty m)
  | None => false
  end.

(** ** What [processTeamResults] reports *)

Definition individualResults (r : ProcessResult) : nat :=
  match r with
  | Awarded _ _ _ _ n => n
  | NotAwarded _ n => n
  end.

(** ** Tournaments whose processing throws *)

(** Whether processing the data of a tournament throws: the feed gives
    no rows, or grouping throws on one of them. *)
Definition failing (feed : string -> option (list Row)) (t : Tournament) : bool :=
  match feed (tournamentId t) with
  | None => true
  | Some rows => existsb throwingRow rows
  end.

(** A team with one more accepted row. *)
Definition withMember (roster : gmap string PlayerInfo) (team : Team)
    (m : string * string * Z) : Team :=
  mkTeam (placements team ++ [memberPlace m])
         (clubNames team ++ [pi_clubName (default unknownPlayer (roster !! memberId m))])
         (playerIds team ++ [memberId m])
         (playerNames team ++ [pi_name (default unknownPlayer (roster !! memberId m))])
         (match roster !! memberId m with
          | None => true
          | Some _ => hasUnregisteredPlayers team
          end).

(** The team stored for a party with the given accepted rows: none when
    it has no accepted row. *)
Definition teamFor (roster : gmap string PlayerInfo)
    (members : list (string * string * Z)) : option Team :=
  match members with
  | [] => None
  | _ => Some (teamOfMembers roster members)
  end.

(** Rows with a party id that names a member of [Object.prototype]. *)
Module SampleRows.

Definition poisoned : list Row :=
  [ Sample.row "x1" 1 "t1"; Sample.row "x2" 2 "constructor"; Sample.row "x3" 3 "t3" ].

Definition poisonedFeed (tournamentId : string) : option (list Row) :=
  if String.eqb tournamentId "T1" then Some poisoned else None.

End SampleRows.

(** ** Players of the store, as the roster cache lists them *)

(** A player that [fetchClubsAndPlayers] puts into the cache: a player
    with a PlayFab id and a name, of a club with a name and a key. *)
Definition listedPlayer (db : Db) (k : string) (info : PlayerInfo) : Prop :=
  exists clubId clubData playerKey playerData playfabId,
    (clubId, clubData) ∈ clubs db
    /\ (playerKey, playerData) ∈ club_players clubData
    /\ cp_playfabId playerData = Some playfabId
    /\ Str.truthy playfabId = true
    /\ normalizeId playfabId = k
    /\ club_name clubData = Some (pi_clubName info)
    /\ Str.truthy (pi_clubName info) = true
    /\ cp_name playerData = Some (pi_name info)
    /\ Str.truthy (pi_name info) = true
    /\ pi_clubId info = Some clubId
    /\ pi_playerId info = Some playerKey.

(** A player of the store whose PlayFab id normalises to [playerId]. *)
Definition storedPlayer (db : Db) (playerId clubId playerKey : string) : Prop :=
  exists clubData playerData playfabId,
    (clubId, clubData) ∈ clubs db
    /\ (playerKey, playerData) ∈ club_players clubData
    /\ cp_playfabId playerData = Some playfabId
    /\ normalizeId playfabId = playerId.

(** ** Counters *)

Definition statFieldEqb (f g : StatField) : bool :=
  match f, g with
  | First, First | Second, Second | Third, Third => true
  | _, _ => false
  end.

(** What a result for [tier] at [placement] adds to the counter [f'] of
    the tier [tier']. *)
Definition counterStep (tier : string) (placement : option Z)
    (tier' : string) (f' : StatField) : Z :=
  match getStatFieldForPlacement placement with
  | Some f => if String.eqb tier' tier && statFieldEqb f' f then 1 else 0
  | None => 0
  end.

(** The counter that a club result with [placement] in [tier] for the
    club named [clubName] is for. *)
Definition clubResultCounter (db : Db) (clubName tier : string) (placement : option Z)
    (clubId tier' : string) (f' : StatField) : Prop :=
  findClubByName clubName (clubs db) = Some clubId
  /\ tier' = tier /\ tier <> "Unknown"
  /\ getStatFieldForPlacement placement = Some f'.

Module SampleStore.

(** A store in which the competitor "X1" already has a node. *)
Definition registered : Db :=
  mkDb [("clubA", Sample.clubA)] ∅
       {[ "X1" := mkPlayerResult (Some 2%float) (Some true) (Some "Xena") (Some 40) ∅ ∅ ]}
       ∅.

(** Rows that grouping skips: no party, no id, a placement out of
    range. *)
Definition skipped : list Row :=
  [ mkRow (Some "x1") (Some 1) None; mkRow None (Some 2) (Some "t2");
    Sample.row "x3" 7 "t3"; Sample.row "x4" 0 "t4" ].

Definition skippedFeed (tournamentId : string) : option (list Row) :=
  if String.eqb tournamentId "T1" then Some skipped else None.

(** Rows in which the team that placed third comes first, and the teams
    they are grouped into. *)
Definition shuffledRows : list Row :=
  [ Sample.row "c1" 3 "t3"; Sample.row "x1" 1 "t1"; Sample.row "c2" 3 "t3";
    Sample.row "b1" 2 "t2" ].

Definition shuffled : JsObject.t Team :=
  [ ("t3", mkTeam [3; 3] ["No Club"; "No Club"] ["C1"; "C2"]
             ["Unknown Player"; "Unknown Player"] true);
    ("t1", mkTeam [1] ["No Club"] ["X1"] ["Unknown Player"] true);
    ("t2", mkTeam [2] ["No Club"] ["B1"] ["Unknown Player"] true) ].

End SampleStore.

(** ** The entry of a player inside a club *)

(** [clubs/<clubId>/players/<playerKey>] *)
Definition clubPlayerEntry (db : Db) (clubId playerKey : string) : option ClubPlayer :=
  lookupEntry clubId (clubs db) ≫= fun c => lookupEntry playerKey (club_players c).

(** The keys of the clubs are distinct, and so are, in every club, the
    keys of its players: the store is a tree of JavaScript objects. *)
Definition distinctKeys (db : Db) : Prop :=
  NoDup (map fst (clubs db))
  /\ Forall (fun e => NoDup (map fst (club_players (snd e)))) (clubs db).

(** ** Two teams of one club *)

Module SampleOrder.

(** A store with one club, "Club A", of six players. *)
Definition clubA : Club :=
  mkClub (Some "Club A")
    [ ("k1", Sample.clubPlayer "A1" "Ann");
      ("k2", Sample.clubPlayer "A2" "Bob");
      ("k3", Sample.clubPlayer "A3" "Cy");
      ("k4", Sample.clubPlayer "A4" "Di");
      ("k5", Sample.clubPlayer "A5" "Ed");
      ("k6", Sample.clubPlayer "A6" "Flo") ]
    None ∅ ∅.

Definition db : Db := mkDb [("clubA", clubA)] ∅ ∅ ∅.

(** Two teams of Club A: the team with party id [first] placed first,
    the team with party id [second] placed second. *)
Definition rows (first second : string) : list Row :=
  [ Sample.row "a1" 1 first; Sample.row "a2" 1 first; Sample.row "a3" 1 first;
    Sample.row "a4" 2 second; Sample.row "a5" 2 second; Sample.row "a6" 2 second ].

Definition feed (first second tournamentId : string) : option (list Row) :=
  if String.eqb tournamentId "T1" then Some (rows first second) else None.

Definition winners : Team :=
  mkTeam [1; 1; 1] ["Club A"; "Club A"; "Club A"] ["A1"; "A2"; "A3"]
    ["Ann"; "Bob"; "Cy"] false.

Definition runnersUp : Team :=
  mkTeam [2; 2; 2] ["Club A"; "Club A"; "Club A"] ["A4"; "A5"; "A6"]
    ["Di"; "Ed"; "Flo"] false.

End SampleOrder.

(** ** The individual results of a team *)

(** The placements of the results that the first loop of
    [processTeamResults] records for [playerId]: [placements[i]] for
    every [i] with [playerIds[i]] equal to [playerId], in order. *)
Fixpoint memberResults (playerId : string) (ids : list string) (places : list Z)
  : list (option Z) :=
  match ids with
  | [] => []
  | id :: ids' =>
      (if String.eqb id playerId then [head places] else [])
      ++ memberResults playerId ids' (tail places)
  end.

(** The total that one result stores: the stored total, read with
    [|| 0], plus the points of the placement, in doubles. *)
Definition addPoints (points : PointsValue) (stored : option float)
    (placement : option Z) : option float :=
  Some (orZero stored + pointsAt points placement)%float.

(** The value of the counter [f'] of [tier'] after one result with
    [placement] in [tier]. *)
Definition addCount (tier tier' : string) (f' : StatField) (n : Z)
    (placement : option Z) : Z :=
  n + counterStep tier placement tier' f'.

(** ** Names of ASCII characters *)

(** A string of ASCII characters only: on these, [Str.toUpperCase] and
    [Str.toLowerCase] are the [toUpperCase] and [toLowerCase] of
    JavaScript. *)
Definition asciiOnly (s : string) : bool :=
  Str.allChars (fun c => (nat_of_ascii c <? 128)%nat) s.

(** The pairs of placements [(p, q)] with [1 <= p <= q <= 4]. *)
Definition placementPairs : list (Z * Z) :=
  [ (1, 1); (1, 2); (1, 3); (1, 4); (2, 2); (2, 3); (2, 4); (3, 3); (3, 4); (4, 4) ].

(** * The PlayFab sync ([syncPlayFabPlayerData])

    After the tournaments, the run copies the display name and the
    trophy count of every club player from PlayFab into the store, and
    then sets the trophy total of every club to the sum of the trophy
    counts of its players.

    The sync reads and writes fields that the tournament pipeline does
    not touch, so it has a store record of its own, [SyncStore], with
    those fields: of a player inside a club the PlayFab id, the name,
    [trophyCount] and [lastPlayFabSync] (the other fields of the entry
    are copied by the spread [...playerData] and stay as they are); of a
    club [totalTrophies] and [seasons/<season>/totalTrophies]; the
    trophy total in [clubs_summary]; and of a node of [players] the
    name, [trophyCount] and [seasons/<season>/trophyCount].

    Trophy counts are integers. What PlayFab answers is a parameter: the
    display name of a profile and the statistic [NUM_TROPHIES_SEASON],
    each per PlayFab id, absent when the request fails or the answer has
    no such member; so is the clock that stamps [lastPlayFabSync]. The
    keys of the store contain no [/], so that a path names one node. *)

Record SyncedPlayer : Type := mkSyncedPlayer
  { sy_playfabId : option string;
    sy_name : option string;
    sy_trophyCount : option Z;
    sy_lastPlayFabSync : option string }.

Record SyncedClub : Type := mkSyncedClub
  { sy_clubName : option string;
    sy_players : list (string * SyncedPlayer);
    sy_totalTrophies : option Z;
    sy_seasonTotalTrophies : gmap Z Z }.

(** [players/<id>]: name, [trophyCount], [seasons/<season>/trophyCount]. *)
Record PlayerTrophies : Type := mkPlayerTrophies
  { pt_name : option string;
    pt_trophyCount : option Z;
    pt_seasonTrophyCount : gmap Z Z }.

Definition noPlayerTrophies : PlayerTrophies := mkPlayerTrophies None None ∅.

Record SyncStore : Type := mkSyncStore
  { sy_clubs : list (string * SyncedClub);
    sy_summaryTrophies : gmap string Z;
    sy_playersTable : gmap string PlayerTrophies }.

(** What PlayFab answers: whether the credentials are configured
    ([PLAYFAB_ENABLED]), [profile?.DisplayName] and
    [statistics?.NUM_TROPHIES_SEASON] for a PlayFab id. *)
Record PlayFab : Type := mkPlayFab
  { PLAYFAB_ENABLED : bool;
    displayName : string -> option string;
    NUM_TROPHIES_SEASON : string -> option Z }.

(** [x || 0] on a trophy count. *)
Definition orZeroZ (x : option Z) : Z :=
  match x with Some v => v | None => 0 end.

(** [a !== b] on a string and a field that may be missing. *)
Definition differsFromField (a : string) (b : option string) : bool :=
  match b with
  | Some s => negb (String.eqb a s)
  | None => true
  end.

(** [a !== b] on a number and a field that may be missing. *)
Definition differsFromCount (a : Z) (b : option Z) : bool :=
  match b with
  | Some v => negb (a =? v)
  | None => true
  end.

(** One member of the [updates] object: a path and the value queued for
    it. *)
Inductive Update : Type :=
| SetClubPlayer (clubId playerKey : string) (entry : SyncedPlayer)
| SetPlayerTrophyCount (playerId : string) (trophyCount : Z)
| SetPlayerSeasonTrophyCount (playerId : string) (trophyCount : Z)
| SetPlayerName (playerId : string) (name : string).

(** Whether two updates are for the same path. *)
Definition samePath (u v : Update) : bool :=
  match u, v with
  | SetClubPlayer c k _, SetClubPlayer c' k' _ => String.eqb c c' && String.eqb k k'
  | SetPlayerTrophyCount i _, SetPlayerTrophyCount i' _ => String.eqb i i'
  | SetPlayerSeasonTrophyCount i _, SetPlayerSeasonTrophyCount i' _ => String.eqb i i'
  | SetPlayerName i _, SetPlayerName i' _ => String.eqb i i'
  | _, _ => false
  end.

(** [updates[path] = value]: a path that is there keeps its place. *)
Fixpoint setUpdate (u : Update) (updates : list Update) : list Update :=
  match updates with
  | [] => [u]
  | v :: updates' =>
      if samePath v u then u :: updates' else v :: setUpdate u updates'
  end.

(** [Object.fromEntries(batch)] *)
Definition fromEntries (batch : list Update) : list Update :=
  fold_left (fun updates u => setUpdate u updates) batch [].

(** A write to a child of an object node: the child is replaced, or
    added. *)
Fixpoint putEntry {V : Type} (k : string) (v : V) (l : list (string * V))
  : list (string * V) :=
  match l with
  | [] => [(k, v)]
  | (k', v') :: l' =>
      if String.eqb k' k then (k', v) :: l' else (k', v') :: putEntry k v l'
  end.

Definition withSyncClubs (f : list (string * SyncedClub) -> list (string * SyncedClub))
    (db : SyncStore) : SyncStore :=
  mkSyncStore (f (sy_clubs db)) (sy_summaryTrophies db) (sy_playersTable db).

Definition withPlayersTable
    (f : gmap string PlayerTrophies -> gmap string PlayerTrophies)
    (db : SyncStore) : SyncStore :=
  mkSyncStore (sy_clubs db) (sy_summaryTrophies db) (f (sy_playersTable db)).

(** [array.slice(i, j)] for [0 <= i <= j]. *)
Definition slice {A : Type} (i j : nat) (l : list A) : list A :=
  take (j - i) (drop i l).

Definition batchSize : nat := 100.

(** The values of [batch] in
    [for (let i = 0; i < updateEntries.length; i += batchSize)]. *)
Fixpoint batchesFrom {A : Type} (fuel : nat) (updateEntries : list A) (i : nat)
  : list (list A) :=
  match fuel with
  | O => []
  | S fuel' =>
      if (i <? length updateEntries)%nat
      then slice i (i + batchSize) updateEntries
           :: batchesFrom fuel' updateEntries (i + batchSize)
      else []
  end.

(** The loop is entered at most once per entry. *)
Definition batches {A : Type} (updateEntries : list A) : list (list A) :=
  batchesFrom (length updateEntries) updateEntries 0.

Section Sync.

Variable currentSeason : Z.
Variable playfab : PlayFab.

(** The time [new Date().toISOString()] gives when the update of the
    player under [clubs/<clubId>/players/<playerKey>] is queued. *)
Variable now : string -> string -> string.

(** The write of one member of a multi-path update. *)
Definition applyUpdate (db : SyncStore) (u : Update) : SyncStore :=
  match u with
  | SetClubPlayer clubId playerKey entry =>
      withSyncClubs (fun clubs =>
        match lookupEntry clubId clubs with
        | Some _ =>
            alterEntry clubId (fun c =>
              mkSyncedClub (sy_clubName c) (putEntry playerKey entry (sy_players c))
                (sy_totalTrophies c) (sy_seasonTotalTrophies c)) clubs
        | None => clubs ++ [(clubId, mkSyncedClub None [(playerKey, entry)] None ∅)]
        end) db
  | SetPlayerTrophyCount playerId trophyCount =>
      withPlayersTable (fun t =>
        let node := default noPlayerTrophies (t !! playerId) in
        <[playerId := mkPlayerTrophies (pt_name node) (Some trophyCount)
                        (pt_seasonTrophyCount node)]> t) db
  | SetPlayerSeasonTrophyCount playerId trophyCount =>
      withPlayersTable (fun t =>
        let node := default noPlayerTrophies (t !! playerId) in
        <[playerId := mkPlayerTrophies (pt_name node) (pt_trophyCount node)
                        (<[currentSeason := trophyCount]> (pt_seasonTrophyCount node))]> t)
        db
  | SetPlayerName playerId name =>
      withPlayersTable (fun t =>
        let node := default noPlayerTrophies (t !! playerId) in
        <[playerId := mkPlayerTrophies (Some name) (pt_trophyCount node)
                        (pt_seasonTrophyCount node)]> t) db
  end.

(** [database.ref().update(batchUpdates)] *)
Definition update (batchUpdates : list Update) (db : SyncStore) : SyncStore :=
  fold_left applyUpdate batchUpdates db.

(** [playerUpdates.name]: the display name, when PlayFab gives one that
    is not empty and is not the stored name. *)
Definition nameUpdate (normalizedId : string) (playerData : SyncedPlayer) : option string :=
  match displayName playfab normalizedId with
  | Some name =>
      if Str.truthy name && differsFromField name (sy_name playerData)
      then Some name else None
  | None => None
  end.

(** [playerUpdates.trophyCount]: the statistic, when PlayFab gives one
    that is not the stored count. *)
Definition trophyCountUpdate (normalizedId : string) (playerData : SyncedPlayer)
  : option Z :=
  match NUM_TROPHIES_SEASON playfab normalizedId with
  | Some newTrophyCount =>
      if differsFromCount newTrophyCount (sy_trophyCount playerData)
      then Some newTrophyCount else None
  | None => None
  end.

(** The body of the loop over the players of a club. *)
Definition queuePlayerUpdates (clubId : string) (updates : list Update)
    (entry : string * SyncedPlayer) : list Update :=
  let '(playerKey, playerData) := entry in
  match sy_playfabId playerData with
  | None => updates
  | Some playfabId =>
      if negb (Str.truthy playfabId) then updates else
      let normalizedId := normalizeId playfabId in
      let name := nameUpdate normalizedId playerData in
      let trophyCount := trophyCountUpdate normalizedId playerData in
      let hasUpdates :=
        match name, trophyCount with None, None => false | _, _ => true end in
      if hasUpdates then
        let updates1 :=
          setUpdate
            (SetClubPlayer clubId playerKey
               (mkSyncedPlayer (sy_playfabId playerData)
                  (match name with Some n => Some n | None => sy_name playerData end)
                  (match trophyCount with
                   | Some v => Some v
                   | None => sy_trophyCount playerData
                   end)
                  (Some (now clubId playerKey))))
            updates in
        let updates2 :=
          match trophyCount with
          | Some v =>
              setUpdate (SetPlayerSeasonTrophyCount normalizedId v)
                (setUpdate (SetPlayerTrophyCount normalizedId v) updates1)
          | None => updates1
          end in
        match name with
        | Some n => setUpdate (SetPlayerName normalizedId n) updates2
        | None => updates2
        end
      else updates
  end.

(** The loop over the clubs that collects [updates]. *)
Definition collectUpdates (clubs : list (string * SyncedClub)) : list Update :=
  fold_left (fun updates (club : string * SyncedClub) =>
               fold_left (queuePlayerUpdates (fst club)) (sy_players (snd club)) updates)
    clubs [].

(** The sum of [playerData.trophyCount || 0] over the players. *)
Definition clubTotalTrophies (players : list (string * SyncedPlayer)) : Z :=
  fold_left (fun total (entry : string * SyncedPlayer) =>
               total + orZeroZ (sy_trophyCount (snd entry))) players 0.

(** Whether the second loop queues the trophy total of a club. *)
Definition trophiesDiffer (clubData : SyncedClub) : bool :=
  let total := clubTotalTrophies (sy_players clubData) in
  let currentClubTrophies := orZeroZ (sy_totalTrophies clubData) in
  let currentSeasonTrophies :=
    orZeroZ (sy_seasonTotalTrophies clubData !! currentSeason) in
  negb (total =? currentClubTrophies) || negb (total =? currentSeasonTrophies).

(** The members of [clubTrophyUpdates], three paths per club queued:
    the club and the total written to them. *)
Definition collectClubTrophyUpdates (updatedClubs : list (string * SyncedClub))
  : list (string * Z) :=
  fold_left (fun clubTrophyUpdates (club : string * SyncedClub) =>
               let '(clubId, clubData) := club in
               match sy_players clubData with
               | [] => clubTrophyUpdates
               | _ =>
                   if trophiesDiffer clubData
                   then putEntry clubId (clubTotalTrophies (sy_players clubData))
                          clubTrophyUpdates
                   else clubTrophyUpdates
               end)
    updatedClubs [].

(** The three writes queued for a club: [clubs/<clubId>/totalTrophies],
    [clubs_summary/<clubId>/totalTrophies] and
    [clubs/<clubId>/seasons/<season>/totalTrophies]. *)
Definition applyClubTrophies (db : SyncStore) (u : string * Z) : SyncStore :=
  let '(clubId, total) := u in
  mkSyncStore
    (match lookupEntry clubId (sy_clubs db) with
     | Some _ =>
         alterEntry clubId (fun c =>
           mkSyncedClub (sy_clubName c) (sy_players c) (Some total)
             (<[currentSeason := total]> (sy_seasonTotalTrophies c))) (sy_clubs db)
     | None =>
         sy_clubs db ++ [(clubId, mkSyncedClub None [] (Some total) {[currentSeason := total]})]
     end)
    (<[clubId := total]> (sy_summaryTrophies db))
    (sy_playersTable db).

(** [syncPlayFabPlayerData()] *)
Definition syncPlayFabPlayerData (db : SyncStore) : SyncStore :=
  if negb (PLAYFAB_ENABLED playfab) then db else
  let clubs := sy_clubs db in
  let updates := collectUpdates clubs in
  let db1 :=
    fold_left (fun db batch => update (fromEntries batch) db) (batches updates) db in
  let updatedClubs := sy_clubs db1 in
  let clubTrophyUpdates := collectClubTrophyUpdates updatedClubs in
  fold_left applyClubTrophies clubTrophyUpdates db1.

End Sync.

(** ** Definitions for the statements about the sync *)

(** The path of an update. *)
Inductive UpdatePath : Type :=
| ClubPlayerPath (clubId playerKey : string)
| PlayerTrophyCountPath (playerId : string)
| PlayerSeasonTrophyCountPath (playerId : string)
| PlayerNamePath (playerId : string).

Definition pathOf (u : Update) : UpdatePath :=
  match u with
  | SetClubPlayer c k _ => ClubPlayerPath c k
  | SetPlayerTrophyCount i _ => PlayerTrophyCountPath i
  | SetPlayerSeasonTrophyCount i _ => PlayerSeasonTrophyCountPath i
  | SetPlayerName i _ => PlayerNamePath i
  end.

(** The updates of entries of club players among the updates. *)
Definition clubPlayerUpdate (u : Update) : option (string * (string * SyncedPlayer)) :=
  match u with
  | SetClubPlayer c k p => Some (c, (k, p))
  | _ => None
  end.

Definition clubPlayerUpdates (updates : list Update)
  : list (string * (string * SyncedPlayer)) :=
  omap clubPlayerUpdate updates.

(** The keys of the clubs are distinct, and so are the keys of the
    players of every club. *)
Definition syncKeysDistinct (db : SyncStore) : Prop :=
  NoDup (map fst (sy_clubs db))
  /\ Forall (fun e => NoDup (map fst (sy_players (snd e)))) (sy_clubs db).

(** [clubs/<clubId>/players/<playerKey>] in the store of the sync. *)
Definition syncedEntry (db : SyncStore) (clubId playerKey : string) : option SyncedPlayer :=
  lookupEntry clubId (sy_clubs db) ≫= fun c => lookupEntry playerKey (sy_players c).

(** The name PlayFab has for a club player: the display name of the
    profile of the normalised id, when the player has a PlayFab id and
    the display name is not empty. *)
Definition playfabName (playfab : PlayFab) (p : SyncedPlayer) : option string :=
  match sy_playfabId p with
  | Some playfabId =>
      if Str.truthy playfabId then
        match displayName playfab (normalizeId playfabId) with
        | Some name => if Str.truthy name then Some name else None
        | None => None
        end
      else None
  | None => None
  end.

(** The trophy count PlayFab has for a club player. *)
Definition playfabTrophyCount (playfab : PlayFab) (p : SyncedPlayer) : option Z :=
  match sy_playfabId p with
  | Some playfabId =>
      if Str.truthy playfabId then NUM_TROPHIES_SEASON playfab (normalizeId playfabId)
      else None
  | None => None
  end.

(** The entry of a player after the first part of the sync. *)
Definition syncedPlayer (playfab : PlayFab) (now : string -> string -> string)
    (clubId : string) (entry : string * SyncedPlayer) : string * SyncedPlayer :=
  let '(playerKey, playerData) := entry in
  match sy_playfabId playerData with
  | Some playfabId =>
      if Str.truthy playfabId then
        match nameUpdate playfab (normalizeId playfabId) playerData,
              trophyCountUpdate playfab (normalizeId playfabId) playerData with
        | None, None => (playerKey, playerData)
        | name, trophyCount =>
            (playerKey,
             mkSyncedPlayer (sy_playfabId playerData)
               (match name with Some n => Some n | None => sy_name playerData end)
               (match trophyCount with
                | Some v => Some v
                | None => sy_trophyCount playerData
                end)
               (Some (now clubId playerKey)))
        end
      else (playerKey, playerData)
  | None => (playerKey, playerData)
  end.

(** The update queued for the entry of a player, if any. *)
Definition queuedEntry (playfab : PlayFab) (now : string -> string -> string)
    (clubId : string) (entry : string * SyncedPlayer) : option (string * SyncedPlayer) :=
  let '(playerKey, playerData) := entry in
  match sy_playfabId playerData with
  | Some playfabId =>
      if Str.truthy playfabId then
        match nameUpdate playfab (normalizeId playfabId) playerData,
              trophyCountUpdate playfab (normalizeId playfabId) playerData with
        | None, None => None
        | _, _ => Some (syncedPlayer playfab now clubId entry)
        end
      else None
  | None => None
  end.

(** A club after the first part of the sync. *)
Definition clubWithSyncedPlayers (playfab : PlayFab) (now : string -> string -> string)
    (club : string * SyncedClub) : string * SyncedClub :=
  (fst club,
   mkSyncedClub (sy_clubName (snd club))
     (map (syncedPlayer playfab now (fst club)) (sy_players (snd club)))
     (sy_totalTrophies (snd club)) (sy_seasonTotalTrophies (snd club))).

(** A club after the second part of the sync. *)
Definition clubWithTrophies (currentSeason : Z) (club : string * SyncedClub)
  : string * SyncedClub :=
  match sy_players (snd club) with
  | [] => club
  | _ =>
      if trophiesDiffer currentSeason (snd club)
      then (fst club,
            mkSyncedClub (sy_clubName (snd club)) (sy_players (snd club))
              (Some (clubTotalTrophies (sy_players (snd club))))
              (<[currentSeason := clubTotalTrophies (sy_players (snd club))]>
                 (sy_seasonTotalTrophies (snd club))))
      else club
  end.

(** The trophy total queued for a club, if any. *)
Definition queuedTrophies (currentSeason : Z) (club : string * SyncedClub)
  : option (string * Z) :=
  match sy_players (snd club) with
  | [] => None
  | _ =>
      if trophiesDiffer currentSeason (snd club)
      then Some (fst club, clubTotalTrophies (sy_players (snd club)))
      else None
  end.

(** The write of the entry of a club player, on the clubs. *)
Definition putClubPlayer (clubs : list (string * SyncedClub))
    (u : string * (string * SyncedPlayer)) : list (string * SyncedClub) :=
  match lookupEntry (fst u) clubs with
  | Some _ =>
      alterEntry (fst u) (fun c =>
        mkSyncedClub (sy_clubName c) (putEntry (fst (snd u)) (snd (snd u)) (sy_players c))
          (sy_totalTrophies c) (sy_seasonTotalTrophies c)) clubs
  | None =>
      clubs ++ [(fst u, mkSyncedClub None [(fst (snd u), snd (snd u))] None ∅)]
  end.

(** The writes of a trophy total, on the clubs. *)
Definition putClubTrophies (currentSeason : Z) (clubs : list (string * SyncedClub))
    (u : string * Z) : list (string * SyncedClub) :=
  match lookupEntry (fst u) clubs with
  | Some _ =>
      alterEntry (fst u) (fun c =>
        mkSyncedClub (sy_clubName c) (sy_players c) (Some (snd u))
          (<[currentSeason := snd u]> (sy_seasonTotalTrophies c))) clubs
  | None =>
      clubs ++ [(fst u, mkSyncedClub None [] (Some (snd u)) {[currentSeason := snd u]})]
  end.

(** The updates queued for the entries of the players of a club. *)
Definition queuedEntries (playfab : PlayFab) (now : string -> string -> string)
    (club : string * SyncedClub) : list (string * (string * SyncedPlayer)) :=
  map (fun e => (fst club, e))
      (omap (queuedEntry playfab now (fst club)) (sy_players (snd club))).

(** An update of the [players] table carries what PlayFab answers for
    the id of its path. *)
Definition fromPlayFab (playfab : PlayFab) (u : Update) : Prop :=
  match u with
  | SetClubPlayer _ _ _ => True
  | SetPlayerTrophyCount playerId v => NUM_TROPHIES_SEASON playfab playerId = Some v
  | SetPlayerSeasonTrophyCount playerId v => NUM_TROPHIES_SEASON playfab playerId = Some v
  | SetPlayerName playerId n =>
      displayName playfab playerId = Some n /\ Str.truthy n = true
  end.

(** A node of the [players] table holds, field by field, what the node
    [old] held or what PlayFab answers for the id. *)
Definition nodeFromPlayFab (currentSeason : Z) (playfab : PlayFab) (playerId : string)
    (old node : PlayerTrophies) : Prop :=
  (pt_name node = pt_name old
   \/ exists n, displayName playfab playerId = Some n /\ Str.truthy n = true
                /\ pt_name node = Some n)
  /\ (pt_trophyCount node = pt_trophyCount old
      \/ exists v, NUM_TROPHIES_SEASON playfab playerId = Some v
                   /\ pt_trophyCount node = Some v)
  /\ (pt_seasonTrophyCount node = pt_seasonTrophyCount old
      \/ exists v, NUM_TROPHIES_SEASON playfab playerId = Some v
                   /\ pt_seasonTrophyCount node
                      = <[currentSeason := v]> (pt_seasonTrophyCount old)).

(** The same, of a table: no node is removed, and a node is new only
    with what PlayFab answers. *)
Definition tableFromPlayFab (currentSeason : Z) (playfab : PlayFab)
    (table table' : gmap string PlayerTrophies) : Prop :=
  forall playerId,
    match table' !! playerId with
    | Some node =>
        nodeFromPlayFab currentSeason playfab playerId
          (default noPlayerTrophies (table !! playerId)) node
    | None => table !! playerId = None
    end.

Module SampleSync.

(** PlayFab knows "A1" under a new name and with 12 trophies, and "A2"
    with 30 trophies; it does not know "A3". *)
Definition playfab : PlayFab :=
  mkPlayFab true
    (fun id => if String.eqb id "A1" then Some "Anna" else None)
    (fun id => if String.eqb id "A1" then Some 12
               else if String.eqb id "A2" then Some 30 else None).

Definition now (clubId playerKey : string) : string := "2024-05-01T00:00:00.000Z".

Definition player (playfabId name : string) (trophyCount : option Z) : SyncedPlayer :=
  mkSyncedPlayer (Some playfabId) (Some name) trophyCount None.

Definition clubA : SyncedClub :=
  mkSyncedClub (Some "Club A")
    [ ("k1", player "A1" "Ann" (Some 10));
      ("k2", player "a 2" "Bob" None);
      ("k3", player "A3" "Cy" (Some 5)) ]
    (Some 15) ∅.

Definition db : SyncStore := mkSyncStore [("clubA", clubA)] ∅ ∅.

End SampleSync.

(** * Properties *)

(** ** Tier classification and the points table *)

Lemma includes_empty (sub : string) :
  Str.truthy sub = true -> Str.includes EmptyString sub = false.
Proof. destruct sub; [discriminate | reflexivity]. Qed.

Lemma includes_truthy (s sub : string) :
  Str.truthy sub = true -> Str.includes s sub = true -> Str.truthy s = true.
Proof.
  intros Hsub Hinc. destruct s; [| reflexivity].
  rewrite includes_empty in Hinc by exact Hsub. discriminate.
Qed.

Lemma toLowerCase_truthy (s : string) :
  Str.truthy (Str.toLowerCase s) = Str.truthy s.
Proof. destruct s; reflexivity. Qed.

(** The tests of the rule chain, as booleans, so that the chain can be
    analysed without looking into the name. *)
Ltac abstract_tests name :=
  repeat match goal with
  | |- context [Str.includes (Str.toLowerCase name) ?lit] =>
      let b := fresh "b" in
      let E := fresh "E" in
      remember (Str.includes (Str.toLowerCase name) lit) as b eqn:E;
      clear E
  end.

(** C5, as amended: a name that contains both "gold" and "limited" is
    never classified as gold, and is classified as goldLimited unless one
    of the silver rules, which are tested earlier, applies to it; a name
    that contains "silver", "eu" and "1" is classified as silverEu1 unless
    it also contains "singapore", in which case it is silverAsia1. *)
Theorem getTierFromName_precedence (name : string) :
  let has := Str.includes (Str.toLowerCase name) in
  (has "gold" = true -> has "limited" = true ->
     getTierFromName (Some name) <> "gold"
     /\ (matchesSilverRule name = false ->
         getTierFromName (Some name) = "goldLimited"))
  /\ (has "silver" = true -> has "eu" = true -> has "1" = true ->
      getTierFromName (Some name) =
        if has "singapore" then "silverAsia1" else "silverEu1").
Proof.
  cbv zeta. split.
  - intros Hgold Hlimited.
    assert (Ht : Str.truthy name = true).
    { rewrite <- toLowerCase_truthy.
      eapply includes_truthy; [| exact Hgold]. reflexivity. }
    unfold getTierFromName, matchesSilverRule. rewrite Ht, Hgold, Hlimited.
    cbn [negb andb]. abstract_tests name.
    destruct b, b0, b1, b2, b3, b4; cbn; split; (discriminate || reflexivity || (intros; discriminate)).
  - intros Hsilver Heu Hone.
    assert (Ht : Str.truthy name = true).
    { rewrite <- toLowerCase_truthy.
      eapply includes_truthy; [| exact Hsilver]. reflexivity. }
    unfold getTierFromName. rewrite Ht, Hsilver, Heu, Hone.
    cbn [negb andb]. abstract_tests name.
    destruct b; reflexivity.
Qed.

Lemma getTierFromName_precedence_witness :
  getTierFromName (Some "Gold Limited Cup") = "goldLimited"
  /\ getTierFromName (Some "EU Silver Cup 1") = "silverEu1".
Proof.
  split.
  - apply (getTierFromName_precedence "Gold Limited Cup"); reflexivity.
  - apply (getTierFromName_precedence "EU Silver Cup 1"); reflexivity.
Defined.

(** C5, as stated, fails: these names contain "gold" and "limited", and
    "silver", "eu" and "1", and are classified by the earlier rule for
    Singapore. *)
Lemma getTierFromName_precedence_counterexample :
  let has name := Str.includes (Str.toLowerCase name) in
  (has "Gold Limited Silver Singapore" "gold" = true
   /\ has "Gold Limited Silver Singapore" "limited" = true
   /\ getTierFromName (Some "Gold Limited Silver Singapore") <> "goldLimited")
  /\ (has "Silver Singapore EU 1" "silver" = true
      /\ has "Silver Singapore EU 1" "eu" = true
      /\ has "Silver Singapore EU 1" "1" = true
      /\ getTierFromName (Some "Silver Singapore EU 1") <> "silverEu1").
Proof. cbv zeta. repeat split; (reflexivity || (vm_compute; discriminate)). Qed.

(** The own properties of [pointsMap] are returned as they are. *)
Lemma getPointsMapping_known (tier : string) (points : list float) :
  JsObject.getOwn pointsMap tier = Some points ->
  getPointsMapping tier = PointsArray points.
Proof. intros H. unfold getPointsMapping. rewrite H. reflexivity. Qed.

(** A string that is neither an own property of [pointsMap] nor a member
    of [Object.prototype] gets the default. *)
Lemma getPointsMapping_default (tier : string) :
  JsObject.getOwn pointsMap tier = None ->
  JsObject.isPrototypeKey tier = false ->
  getPointsMapping tier = PointsArray [0; 0; 0; 0]%float.
Proof. intros H1 H2. unfold getPointsMapping. rewrite H1, H2. reflexivity. Qed.

(** C8: the known tiers have their vectors, but an unrecognized string
    that names a member of [Object.prototype] does not get
    [[0, 0, 0, 0]]: the inherited member is truthy and is returned. *)
Theorem getPointsMapping_inherited_member :
  getPointsMapping "diamond" = PointsArray [36; 18; 9; 9]%float
  /\ getPointsMapping "silverEu1" = PointsArray [1.6; 0.8; 0.4; 0.4]%float
  /\ getPointsMapping "Unknown" = PointsArray [0; 0; 0; 0]%float
  /\ JsObject.getOwn pointsMap "constructor" = None
  /\ getPointsMapping "constructor" = InheritedMember "constructor"
  /\ getPointsMapping "constructor" <> PointsArray [0; 0; 0; 0]%float.
Proof. repeat split; (reflexivity || discriminate). Qed.

(** ** Normalisation of competitor ids *)

Lemma isSpace_upperChar (c : ascii) : Str.isSpace (Str.upperChar c) = Str.isSpace c.
Proof. destruct c as [[] [] [] [] [] [] [] []]; reflexivity. Qed.

(** On an id without whitespace the two normalisations agree. *)
Lemma toUpperCase_normalizeId (s : string) :
  Str.anyChar Str.isSpace s = false -> Str.toUpperCase s = normalizeId s.
Proof.
  unfold normalizeId, Str.toUpperCase.
  induction s as [| c s IH]; cbn [Str.anyChar Str.mapChars Str.removeSpaces]; [reflexivity |].
  intros H. apply orb_false_iff in H as [Hc Hs].
  rewrite isSpace_upperChar, Hc. f_equal. apply IH, Hs.
Qed.

Lemma isLower_upperChar (c : ascii) : Str.isLower (Str.upperChar c) = false.
Proof. destruct c as [[] [] [] [] [] [] [] []]; reflexivity. Qed.

Lemma toUpperCase_no_lower (s : string) :
  Str.anyChar Str.isLower (Str.toUpperCase s) = false.
Proof.
  induction s as [| c s IH]; [reflexivity |].
  cbn. rewrite isLower_upperChar. exact IH.
Qed.

Lemma prototypeKey_has_lower (k : string) :
  JsObject.isPrototypeKey k = true -> Str.anyChar Str.isLower k = true.
Proof.
  unfold JsObject.isPrototypeKey, JsObject.prototypeKeys. cbn [existsb].
  repeat match goal with
  | |- context [String.eqb k ?lit] =>
      destruct (String.eqb_spec k lit) as [-> | _]; [intros _; reflexivity | cbn [orb]]
  end.
  intros H. discriminate H.
Qed.

(** An upper-cased id never names a member of [Object.prototype]: the
    reads [players[playerId]] see own properties of the cache only. *)
Lemma toUpperCase_not_prototypeKey (s : string) :
  JsObject.isPrototypeKey (Str.toUpperCase s) = false.
Proof.
  destruct (JsObject.isPrototypeKey (Str.toUpperCase s)) eqn:E; [| reflexivity].
  apply prototypeKey_has_lower in E. rewrite toUpperCase_no_lower in E. discriminate.
Qed.

Lemma removeSpaces_no_space (s : string) :
  Str.anyChar Str.isSpace (Str.removeSpaces s) = false.
Proof.
  induction s as [| c s IH]; [reflexivity |].
  cbn. destruct (Str.isSpace c) eqn:E; [exact IH |]. cbn. rewrite E. exact IH.
Qed.

Lemma toUpperCase_keeps_space (s : string) :
  Str.anyChar Str.isSpace (Str.toUpperCase s) = Str.anyChar Str.isSpace s.
Proof.
  induction s as [| c s IH]; [reflexivity |].
  cbn. rewrite isSpace_upperChar. f_equal. exact IH.
Qed.

(** No key of the roster cache contains whitespace. *)
Lemma cachePlayersOfClub_keys (clubId : string) (clubData : Club)
    (cache : gmap string PlayerInfo) :
  (forall k, is_Some (cache !! k) -> Str.anyChar Str.isSpace k = false) ->
  forall k, is_Some (cachePlayersOfClub clubId clubData cache !! k) ->
    Str.anyChar Str.isSpace k = false.
Proof.
  unfold cachePlayersOfClub.
  destruct (club_name clubData) as [clubName |]; [| auto].
  destruct (negb (Str.truthy clubName)); [auto |].
  generalize (club_players clubData). intros l. revert cache.
  induction l as [| [playerId playerData] l IH]; intros cache Hcache; cbn [fold_left];
    [exact Hcache |].
  apply IH.
  destruct (cp_playfabId playerData) as [playfabId |]; [| exact Hcache].
  destruct (cp_name playerData) as [name |]; [| exact Hcache].
  destruct (negb (Str.truthy playfabId) || negb (Str.truthy name)); [exact Hcache |].
  intros k. destruct (decide (normalizeId playfabId = k)) as [<- | Hne].
  - intros _. apply removeSpaces_no_space.
  - rewrite lookup_insert_ne by exact Hne. apply Hcache.
Qed.

Lemma fetchClubsAndPlayers_keys (db : Db) (k : string) :
  is_Some (fetchClubsAndPlayers db !! k) -> Str.anyChar Str.isSpace k = false.
Proof.
  unfold fetchClubsAndPlayers. revert k.
  assert (H : forall (l : list (string * Club)) (cache : gmap string PlayerInfo),
    (forall k, is_Some (cache !! k) -> Str.anyChar Str.isSpace k = false) ->
    forall k,
      is_Some (fold_left (fun cache (entry : string * Club) =>
                 cachePlayersOfClub (fst entry) (snd entry) cache) l cache !! k) ->
      Str.anyChar Str.isSpace k = false).
  { induction l as [| [clubId clubData] l IH]; intros cache Hcache; cbn [fold_left];
      [exact Hcache |].
    apply IH. apply cachePlayersOfClub_keys. exact Hcache. }
  apply H. intros k. rewrite lookup_empty. intros [x Hx]. discriminate Hx.
Qed.

(** A row whose id contains whitespace finds no roster player, whatever
    the roster. *)
Lemma lookup_with_whitespace (db : Db) (rawId : string) :
  Str.anyChar Str.isSpace rawId = true ->
  fetchClubsAndPlayers db !! Str.toUpperCase rawId = None.
Proof.
  intros Hspace.
  destruct (fetchClubsAndPlayers db !! Str.toUpperCase rawId) as [info |] eqn:E;
    [| reflexivity].
  assert (Hsome : is_Some (fetchClubsAndPlayers db !! Str.toUpperCase rawId))
    by (rewrite E; eauto).
  apply fetchClubsAndPlayers_keys in Hsome.
  rewrite toUpperCase_keeps_space, Hspace in Hsome. discriminate.
Qed.

(** C3: the cache is keyed by the upper-cased id with whitespace removed,
    but [groupPlayersByTeam] looks a row up by the upper-cased id only.
    A row that carries the id of a roster player with its space is not
    found: the player is grouped as unregistered, with no club. *)
Theorem groupPlayersByTeam_keeps_whitespace :
  let roster := fetchClubsAndPlayers Sample.db in
  roster !! normalizeId "a 2" = Some (mkPlayerInfo "Bob" "Club A" (Some "clubA") (Some "k2"))
  /\ Str.toUpperCase "a 2" <> normalizeId "a 2"
  /\ groupPlayersByTeam [Sample.row "a 2" 1 "party"] roster =
       Returned [("party", mkTeam [1] ["No Club"] ["A 2"] ["Unknown Player"] true)].
Proof. cbv zeta. repeat split; (vm_compute; (reflexivity || discriminate)). Qed.

(** ** Team placement *)

(** C4: the club award of a team is taken from [placements[0]], the
    placement on the first row of the team, not from the minimum. The
    team of these rows has minimum placement 1 and is awarded as third,
    with the third-place points of the tier; with the same rows in
    another order it is awarded as first. *)
Theorem processTeamResults_uses_first_placement :
  let roster := fetchClubsAndPlayers Sample.db in
  let award team :=
    fst (fst (processTeamResults 1 team (getPointsMapping "silverEu1")
                "silverEu1" ∅ roster Sample.db)) in
  groupPlayersByTeam Sample.unevenRows roster = Returned [("p", Sample.unevenTeam)]
  /\ groupPlayersByTeam Sample.unevenRows' roster = Returned [("p", Sample.unevenTeam')]
  /\ mathMin (placements Sample.unevenTeam) = Some 1
  /\ mathMin (placements Sample.unevenTeam') = Some 1
  /\ award Sample.unevenTeam = Awarded "Club A" 0.4 (Some 3) 3 3
  /\ award Sample.unevenTeam' = Awarded "Club A" 1.6 (Some 1) 3 3.
Proof. cbv zeta. repeat split; vm_compute; reflexivity. Qed.

(** ** Ordering of teams *)

Lemma comparatorPositive_false (a b : Team) :
  comparatorPositive a b = false <-> bestLe (bestPlacement a) (bestPlacement b).
Proof.
  unfold comparatorPositive, bestLe, bestPlacement.
  destruct (mathMin (placements a)) as [x |], (mathMin (placements b)) as [y |];
    cbn; try tauto; [| split; [discriminate | tauto]].
  rewrite Z.ltb_ge. lia.
Qed.

Lemma comparatorPositive_true (a b : Team) :
  comparatorPositive a b = true ->
  bestLe (bestPlacement b) (bestPlacement a) /\ bestPlacement a <> bestPlacement b.
Proof.
  unfold comparatorPositive, bestLe, bestPlacement.
  destruct (mathMin (placements a)) as [x |], (mathMin (placements b)) as [y |];
    cbn; try discriminate; [| split; [exact I | discriminate]].
  rewrite Z.ltb_lt. intros H. split; [lia | intros [= ->]; lia].
Qed.

Lemma bestLe_trans (a b c : option Z) : bestLe a b -> bestLe b c -> bestLe a c.
Proof. destruct a, b, c; cbn; try tauto; lia. Qed.

Lemma insertSorted_perm (e : string * Team) (l : list (string * Team)) :
  insertSorted e l ≡ₚ e :: l.
Proof.
  induction l as [| e' l IH]; cbn; [reflexivity |].
  destruct (comparatorPositive (snd e) (snd e')); [| reflexivity].
  rewrite IH. apply Permutation_swap.
Qed.

(** Sorting keeps every entry, once. *)
Lemma sortEntries_perm (l : list (string * Team)) : sortEntries l ≡ₚ l.
Proof.
  induction l as [| e l IH]; cbn; [reflexivity |].
  rewrite insertSorted_perm, IH. reflexivity.
Qed.

Lemma insertSorted_sorted (e : string * Team) (l : list (string * Team)) :
  StronglySorted entryLe l -> StronglySorted entryLe (insertSorted e l).
Proof.
  induction 1 as [| e' l Hsorted IH Hall]; cbn.
  - repeat constructor.
  - destruct (comparatorPositive (snd e) (snd e')) eqn:E.
    + apply comparatorPositive_true in E as [Hle _].
      constructor; [exact IH |].
      rewrite (insertSorted_perm e l). constructor; [exact Hle | exact Hall].
    + apply comparatorPositive_false in E.
      constructor; [constructor; assumption |].
      constructor; [exact E |].
      eapply Forall_impl; [exact Hall |]. intros e'' Hle. cbv beta in Hle.
      unfold entryLe in *. eapply bestLe_trans; eassumption.
Qed.

(** The sorted entries are in ascending order of best placement. *)
Lemma sortEntries_sorted (l : list (string * Team)) : StronglySorted entryLe (sortEntries l).
Proof.
  induction l as [| e l IH]; cbn; [constructor |]. apply insertSorted_sorted, IH.
Qed.

Lemma hasBest_exclusive (k : option Z) (e e' : string * Team) :
  bestPlacement (snd e) <> bestPlacement (snd e') ->
  hasBest k e = true -> hasBest k e' = false.
Proof.
  unfold hasBest.
  destruct (bestPlacement (snd e)) as [x |], (bestPlacement (snd e')) as [y |],
    k as [z |]; try reflexivity; try discriminate; try congruence.
  intros Hne Hx. apply Z.eqb_eq in Hx. subst z. apply Z.eqb_neq. congruence.
Qed.

Lemma insertSorted_stable (k : option Z) (e : string * Team) (l : list (string * Team)) :
  List.filter (hasBest k) (insertSorted e l) = List.filter (hasBest k) (e :: l).
Proof.
  induction l as [| e' l IH]; [reflexivity |].
  cbn [insertSorted].
  destruct (comparatorPositive (snd e) (snd e')) eqn:E; [| reflexivity].
  apply comparatorPositive_true in E as [_ Hne].
  cbn [List.filter] in *. rewrite IH.
  destruct (hasBest k e) eqn:He, (hasBest k e') eqn:He'; try reflexivity.
  rewrite (hasBest_exclusive k e e' Hne He) in He'. discriminate.
Qed.

(** Sorting is stable: the entries of one best placement keep their
    order. *)
Lemma sortEntries_stable (k : option Z) (l : list (string * Team)) :
  List.filter (hasBest k) (sortEntries l) = List.filter (hasBest k) l.
Proof.
  induction l as [| e l IH]; [reflexivity |].
  cbn [sortEntries fold_right]. fold (sortEntries l).
  rewrite insertSorted_stable. cbn [List.filter]. rewrite IH. reflexivity.
Qed.

Lemma getOwn_None {V : Type} (o : JsObject.t V) (k : string) :
  k ∉ map fst o -> JsObject.getOwn o k = None.
Proof.
  induction o as [| [k' v'] o IH]; cbn; [reflexivity |].
  intros Hnot. apply not_elem_of_cons in Hnot as [Hne Hnot].
  destruct (String.eqb_spec k' k) as [-> | _]; [congruence | apply IH, Hnot].
Qed.

(** Written into an object in turn, entries with distinct keys that are
    not array indices are enumerated in the order they were written. *)
Lemma copy_plain_entries {V : Type} (l : list (string * V)) (acc : JsObject.t V) :
  NoDup (map fst (acc ++ l)) ->
  Forall (fun e => plainKey (fst e)) l ->
  fold_left (fun acc (e : string * V) => JsObject.set acc (fst e) (snd e)) l acc
  = acc ++ l.
Proof.
  revert acc. induction l as [| [k v] l IH]; intros acc Hnodup Hplain; cbn [fold_left].
  - rewrite app_nil_r. reflexivity.
  - apply Forall_cons in Hplain as [Hk Hplain]. cbn [fst snd] in *.
    assert (Hset : JsObject.set acc k v = acc ++ [(k, v)]).
    { unfold JsObject.set, JsObject.hasOwn. rewrite getOwn_None.
      - unfold plainKey in Hk. rewrite Hk. reflexivity.
      - rewrite map_app in Hnodup. apply NoDup_app in Hnodup as (_ & Hdisjoint & _).
        intros Hin. apply (Hdisjoint k Hin). apply list_elem_of_here. }
    rewrite Hset, IH; [rewrite <- app_assoc; reflexivity | | exact Hplain].
    rewrite <- app_assoc. exact Hnodup.
Qed.

(** With party ids that are not array indices, [sortTeamsByPlacement]
    enumerates the teams as [sort] ordered them: every team once, in
    ascending order of best placement, teams of equal best placement in
    the order of the input. *)
Lemma sortTeamsByPlacement_plain_keys (teams : JsObject.t Team) :
  NoDup (map fst teams) ->
  Forall (fun e => plainKey (fst e)) teams ->
  JsObject.entries (sortTeamsByPlacement teams) = sortEntries teams
  /\ sortEntries teams ≡ₚ teams
  /\ StronglySorted entryLe (sortEntries teams)
  /\ forall k, List.filter (hasBest k) (sortEntries teams) = List.filter (hasBest k) teams.
Proof.
  intros Hnodup Hplain.
  split; [| split; [apply sortEntries_perm | split;
    [apply sortEntries_sorted | intros k; apply sortEntries_stable]]].
  unfold sortTeamsByPlacement, JsObject.entries, JsObject.empty.
  rewrite copy_plain_entries; [reflexivity | |].
  - cbn [app]. rewrite (sortEntries_perm teams). exact Hnodup.
  - rewrite (sortEntries_perm teams). exact Hplain.
Qed.

(** C9: the sorted entries are copied into a fresh object, and an object
    enumerates its array-index keys first, in numeric order. With party
    ids "7" (first place) and "3" (second place) the team that placed
    second is enumerated first. *)
Theorem sortTeamsByPlacement_numeric_keys :
  let rows := [Sample.row "x1" 1 "7"; Sample.row "x2" 2 "3"] in
  let winner := mkTeam [1] ["No Club"] ["X1"] ["Unknown Player"] true in
  let second := mkTeam [2] ["No Club"] ["X2"] ["Unknown Player"] true in
  groupPlayersByTeam rows ∅ = Returned [("3", second); ("7", winner)]
  /\ sortEntries [("3", second); ("7", winner)] = [("7", winner); ("3", second)]
  /\ JsObject.entries (sortTeamsByPlacement [("3", second); ("7", winner)]) =
       [("3", second); ("7", winner)].
Proof. cbv zeta. repeat split; vm_compute; reflexivity. Qed.

(** ** Objects: what [set] and [replaceOwn] keep *)

Section ObjectFacts.
Context {V : Type}.
Implicit Types (o : JsObject.t V) (k : string) (v : V).

Lemma getOwn_elem o k v : JsObject.getOwn o k = Some v -> (k, v) ∈ o.
Proof.
  induction o as [| [k' v'] o IH]; cbn; [discriminate |].
  destruct (String.eqb_spec k' k) as [-> | Hne].
  - intros [= ->]. apply list_elem_of_here.
  - intros H. apply list_elem_of_further, IH, H.
Qed.

Lemma replaceOwn_Forall (P : string * V -> Prop) o k v :
  Forall P o -> (forall k', P (k', v)) -> Forall P (JsObject.replaceOwn o k v).
Proof.
  intros Ho Hv. induction Ho as [| [k' v'] o Hx Ho IH]; cbn; [constructor |].
  destruct (String.eqb k' k); constructor; auto.
Qed.

Lemma insertIndex_Forall (P : string * V -> Prop) o n k v :
  Forall P o -> P (k, v) -> Forall P (JsObject.insertIndex o n k v).
Proof.
  intros Ho Hv. induction Ho as [| [k' v'] o Hx Ho IH]; cbn.
  - constructor; [exact Hv | constructor].
  - destruct (JsObject.arrayIndex k') as [n' |].
    + destruct (n' <? n)%N; repeat constructor; auto.
    + repeat constructor; auto.
Qed.

Lemma set_Forall (P : string * V -> Prop) o k v :
  Forall P o -> (forall k', P (k', v)) -> Forall P (JsObject.set o k v).
Proof.
  intros Ho Hv. unfold JsObject.set.
  destruct (JsObject.hasOwn o k).
  - apply replaceOwn_Forall; assumption.
  - destruct (JsObject.arrayIndex k).
    + apply insertIndex_Forall; auto.
    + apply Forall_app. split; [assumption |]. repeat constructor. apply Hv.
Qed.
Lemma getOwn_Some_key o k v : JsObject.getOwn o k = Some v -> k ∈ map fst o.
Proof. intros H. apply getOwn_elem in H. apply (list_elem_of_fmap_2 fst) in H. exact H. Qed.

Lemma getOwn_None_key o k : JsObject.getOwn o k = None -> k ∉ map fst o.
Proof.
  induction o as [| [k' v'] o IH]; cbn; [intros _ H; inversion H |].
  destruct (String.eqb_spec k' k) as [-> | Hne]; [discriminate |].
  intros H. apply not_elem_of_cons. split; [congruence | apply IH, H].
Qed.

Lemma replaceOwn_keys o k v : map fst (JsObject.replaceOwn o k v) = map fst o.
Proof.
  induction o as [| [k' v'] o IH]; cbn; [reflexivity |].
  destruct (String.eqb k' k); cbn; [reflexivity | rewrite IH; reflexivity].
Qed.

Lemma insertIndex_keys o n k v : map fst (JsObject.insertIndex o n k v) ≡ₚ k :: map fst o.
Proof.
  induction o as [| [k' v'] o IH]; cbn; [reflexivity |].
  destruct (JsObject.arrayIndex k') as [n' |]; [| reflexivity].
  destruct (n' <? n)%N; cbn; [| reflexivity].
  rewrite IH. apply Permutation_swap.
Qed.

(** The keys of an object stay distinct. *)
Lemma set_keys_NoDup o k v : NoDup (map fst o) -> NoDup (map fst (JsObject.set o k v)).
Proof.
  intros Hnodup. unfold JsObject.set, JsObject.hasOwn.
  destruct (JsObject.getOwn o k) eqn:Hget.
  - rewrite replaceOwn_keys. exact Hnodup.
  - apply getOwn_None_key in Hget.
    destruct (JsObject.arrayIndex k).
    + rewrite insertIndex_keys. apply NoDup_cons. split; assumption.
    + rewrite map_app. cbn. apply NoDup_app. repeat split; [exact Hnodup | | ].
      * intros x Hx Hin. apply list_elem_of_singleton in Hin. subst x. contradiction.
      * apply NoDup_singleton.
Qed.
End ObjectFacts.

(** ** What grouping guarantees of a team *)

Section Grouping.
Variable roster : gmap string PlayerInfo.

(** Adding a valid row to a team, new or grouped, gives a grouped team. *)
Lemma addMember_grouped (team : Team) (playerId : string) (placement : Z) :
  (team = newTeam \/ GroupedTeam roster team) ->
  1 <= placement <= 4 ->
  GroupedTeam roster
    (mkTeam (placements team ++ [placement])
            (clubNames team ++ [pi_clubName (default unknownPlayer (roster !! playerId))])
            (playerIds team ++ [playerId])
            (playerNames team ++ [pi_name (default unknownPlayer (roster !! playerId))])
            (match roster !! playerId with
             | None => true
             | Some _ => hasUnregisteredPlayers team
             end)).
Proof.
  intros Hteam Hp.
  assert (Hc : clubNames team = map (resolveClub roster) (playerIds team)).
  { destruct Hteam as [-> | H]; [reflexivity | apply H]. }
  assert (Hl : length (placements team) = length (playerIds team)).
  { destruct Hteam as [-> | H]; [reflexivity | apply H]. }
  assert (Hpl : Forall (fun p => 1 <= p <= 4) (placements team)).
  { destruct Hteam as [-> | H]; [constructor | apply H]. }
  assert (Hu : hasUnregisteredPlayers team = true <->
               exists id, id ∈ playerIds team /\ roster !! id = None).
  { destruct Hteam as [-> | H]; [| apply H]. cbn. split; [discriminate |].
    intros (id & Hin & _). inversion Hin. }
  constructor; cbn.
  - rewrite map_app, Hc. reflexivity.
  - rewrite !length_app, Hl. reflexivity.
  - apply Forall_app. split; [exact Hpl |]. repeat constructor; lia.
  - destruct (playerIds team); discriminate.
  - destruct (roster !! playerId) eqn:E.
    + rewrite Hu. split.
      * intros (id & Hin & Hnone). exists id. split; [| exact Hnone].
        apply elem_of_app. left. exact Hin.
      * intros (id & Hin & Hnone). apply elem_of_app in Hin as [Hin | Hin].
        -- exists id. split; assumption.
        -- apply list_elem_of_singleton in Hin. subst id. congruence.
    + split; [| reflexivity]. intros _. exists playerId. split; [| exact E].
      apply elem_of_app. right. apply list_elem_of_singleton. reflexivity.
Qed.

Lemma groupRow_grouped (teams teams' : JsObject.t Team) (row : Row) :
  GroupedTeams roster teams -> groupRow roster teams row = Returned teams' -> GroupedTeams roster teams'.
Proof.
  intros Hok. unfold groupRow.
  destruct (userPlayfabId row) as [rawId |]; [| intros [= <-]; exact Hok].
  destruct (partyId row) as [party |]; [| intros [= <-]; exact Hok].
  destruct (userPlace row) as [placement |]; [| intros [= <-]; exact Hok].
  destruct (negb (Str.truthy (Str.toUpperCase rawId)) || negb (Str.truthy party)
            || (placement <? 1) || (placement >? 4)) eqn:Hskip;
    [intros [= <-]; exact Hok |].
  apply orb_false_iff in Hskip as [Hskip Hgt].
  apply orb_false_iff in Hskip as [_ Hlt].
  assert (Hp : 1 <= placement <= 4) by lia.
  destruct (JsObject.getOwn teams party) as [team |] eqn:Hget.
  - intros [= <-]. apply replaceOwn_Forall; [exact Hok |].
    intros k'. cbn. apply addMember_grouped; [| exact Hp].
    right. apply getOwn_elem in Hget.
    unfold GroupedTeams in Hok. rewrite Forall_forall in Hok.
    apply (Hok _ Hget).
  - destruct (JsObject.isPrototypeKey party); [discriminate |].
    intros [= <-]. apply set_Forall; [exact Hok |].
    intros k'. cbn [snd]. apply (addMember_grouped newTeam); [left; reflexivity | exact Hp].
Qed.

Lemma groupRows_grouped (rows : list Row) (teams teams' : JsObject.t Team) :
  GroupedTeams roster teams -> groupRows roster rows teams = Returned teams' -> GroupedTeams roster teams'.
Proof.
  revert teams. induction rows as [| row rows IH]; intros teams Hok; cbn.
  - intros [= <-]. exact Hok.
  - destruct (groupRow roster teams row) as [teams1 | e] eqn:Hrow; [| discriminate].
    apply IH. eapply groupRow_grouped; eassumption.
Qed.

(** Every team of the object that [groupPlayersByTeam] returns. *)
Lemma groupPlayersByTeam_grouped (rows : list Row) (teams : JsObject.t Team)
    (party : string) (team : Team) :
  groupPlayersByTeam rows roster = Returned teams ->
  (party, team) ∈ JsObject.entries teams ->
  GroupedTeam roster team.
Proof.
  intros Hgroup Hin.
  assert (Hok : GroupedTeams roster teams).
  { eapply groupRows_grouped; [| exact Hgroup]. constructor. }
  unfold GroupedTeams in Hok. rewrite Forall_forall in Hok.
  apply (Hok _ Hin).
Qed.
(** The party ids of the returned object are distinct. *)
Lemma groupRows_keys_NoDup (rows : list Row) (teams teams' : JsObject.t Team) :
  NoDup (map fst teams) -> groupRows roster rows teams = Returned teams' ->
  NoDup (map fst teams').
Proof.
  revert teams. induction rows as [| row rows IH]; intros teams Hnodup; cbn.
  - intros [= <-]. exact Hnodup.
  - destruct (groupRow roster teams row) as [teams1 | e] eqn:Hrow; [| discriminate].
    apply IH. revert Hrow. unfold groupRow.
    destruct (userPlayfabId row) as [rawId |]; [| intros [= <-]; exact Hnodup].
    destruct (partyId row) as [party |]; [| intros [= <-]; exact Hnodup].
    destruct (userPlace row) as [placement |]; [| intros [= <-]; exact Hnodup].
    destruct (negb _ || negb _ || _ || _); [intros [= <-]; exact Hnodup |].
    destruct (JsObject.getOwn teams party) as [team |].
    + intros [= <-]. rewrite replaceOwn_keys. exact Hnodup.
    + destruct (JsObject.isPrototypeKey party); [discriminate |].
      intros [= <-]. apply set_keys_NoDup. exact Hnodup.
Qed.

Lemma groupPlayersByTeam_keys_NoDup (rows : list Row) (teams : JsObject.t Team) :
  groupPlayersByTeam rows roster = Returned teams -> NoDup (map fst teams).
Proof. apply groupRows_keys_NoDup. constructor. Qed.
End Grouping.

(** ** Eligibility for the club award *)

Lemma isClub_true (club : string) : isClub club = true <-> club <> "No Club".
Proof.
  unfold isClub. destruct (String.eqb_spec club "No Club"); cbn; split; congruence.
Qed.

(** The test of [processTeamResults] on the club names of three members. *)
Lemma sameClub_three (a b c : string) :
  ((length (distinct (List.filter isClub [a; b; c])) =? 1)%nat
   && (length (List.filter isClub [a; b; c]) =? 3)%nat = true)
  <-> a <> "No Club" /\ b = a /\ c = a.
Proof.
  cbn [List.filter].
  destruct (isClub a) eqn:Ha, (isClub b) eqn:Hb, (isClub c) eqn:Hc;
    cbn [distinct List.filter length Nat.eqb andb];
    try (rewrite andb_false_r);
    try (split; [discriminate | intros (Hna & -> & ->); apply isClub_true in Hna; congruence]).
  apply isClub_true in Ha.
  destruct (String.eqb_spec c b) as [-> | Hcb]; cbn [negb List.filter];
    destruct (String.eqb_spec b a) as [-> | Hba]; cbn [negb List.filter length Nat.eqb andb];
    try (destruct (String.eqb_spec c a) as [-> | Hca]; cbn [negb List.filter length Nat.eqb andb]);
    split; try discriminate; try (intros (_ & ? & ?); congruence); auto.
Qed.

Lemma allPlayersFromSameClub_iff (team : Team) :
  length (clubNames team) = length (playerIds team) ->
  allPlayersFromSameClub team = true <->
  length (playerIds team) = 3%nat
  /\ exists club, club <> "No Club" /\ clubNames team = [club; club; club].
Proof.
  intros Hlen. unfold allPlayersFromSameClub.
  rewrite <- andb_assoc, andb_true_iff, Nat.eqb_eq.
  split.
  - intros [H3 Hsame]. split; [exact H3 |].
    rewrite H3 in Hlen.
    destruct (clubNames team) as [| a [| b [| c [| d l]]]]; try discriminate.
    apply sameClub_three in Hsame as (Ha & -> & ->). exists a. split; [exact Ha | reflexivity].
  - intros [H3 (club & Hclub & Hnames)]. split; [exact H3 |].
    rewrite Hnames. apply sameClub_three. auto.
Qed.

(** ** The [players] collection is written by the individual results only *)

Section PlayersCollection.
Variable currentSeason : Z.

Lemma players_updateClubPoints clubName points db :
  players (updateClubPoints currentSeason clubName points db) = players db.
Proof.
  unfold updateClubPoints.
  destruct (findClubByName clubName (clubs db)); [| reflexivity].
  destruct (lookupEntry s (clubs db)); reflexivity.
Qed.

Lemma players_updateClubTournamentStats clubName tier placement db :
  players (updateClubTournamentStats currentSeason clubName tier placement db) = players db.
Proof.
  unfold updateClubTournamentStats.
  destruct (String.eqb tier "Unknown"); [reflexivity |].
  destruct (findClubByName clubName (clubs db)); reflexivity.
Qed.

Lemma players_updatePlayerPoints playerId points db :
  players (updatePlayerPoints currentSeason playerId points db) = players db.
Proof.
  unfold updatePlayerPoints.
  destruct (findPlayerLocation playerId db) as [[clubId playerKey] |]; reflexivity.
Qed.

Lemma players_updatePlayerTournamentStats playerId tier placement db :
  players (updatePlayerTournamentStats currentSeason playerId tier placement db) = players db.
Proof.
  unfold updatePlayerTournamentStats.
  destruct (String.eqb tier "Unknown"); [reflexivity |].
  destruct (findPlayerLocation playerId db) as [[clubId playerKey] |]; reflexivity.
Qed.

Lemma players_recordClubPlayerResults points tier roster ids places db :
  players (recordClubPlayerResults currentSeason points tier roster ids places db)
  = players db.
Proof.
  revert places db. induction ids as [| id ids IH]; intros places db; cbn; [reflexivity |].
  rewrite IH. destruct (roster !! id); [| reflexivity].
  rewrite players_updatePlayerTournamentStats, players_updatePlayerPoints. reflexivity.
Qed.

(** For a tracked tier an individual result leaves a node for the
    player, and removes none. *)
Lemma updateIndividualPlayerResult_is_Some playerId tier placement points db other :
  tier <> "Unknown" ->
  other = playerId \/ is_Some (players db !! other) ->
  is_Some (players (updateIndividualPlayerResult currentSeason playerId tier
                      placement points db) !! other).
Proof.
  intros Htier Hother. unfold updateIndividualPlayerResult.
  destruct (String.eqb_spec tier "Unknown") as [-> | _]; [congruence |].
  destruct (bumpTiers _ _ _ _ _) as [tiers3 seasons3]. cbn.
  destruct (decide (playerId = other)) as [-> | Hne].
  - rewrite lookup_insert_eq. eauto.
  - rewrite lookup_insert_ne by exact Hne.
    destruct Hother as [-> | H]; [congruence | exact H].
Qed.

Lemma recordIndividualResults_is_Some points tier ids places db other :
  tier <> "Unknown" ->
  other ∈ ids \/ is_Some (players db !! other) ->
  is_Some (players (recordIndividualResults currentSeason points tier ids places db)
           !! other).
Proof.
  intros Htier. revert places db.
  induction ids as [| id ids IH]; intros places db Hother; cbn.
  - destruct Hother as [Hin | H]; [inversion Hin | exact H].
  - apply IH. destruct Hother as [Hin | H].
    + apply elem_of_cons in Hin as [-> | Hin]; [| left; exact Hin].
      right. apply updateIndividualPlayerResult_is_Some; auto.
    + right. apply updateIndividualPlayerResult_is_Some; auto.
Qed.

(** The part of [processTeamResults] that is independent of the
    eligibility of the team. *)
Lemma players_processTeamResults team points tier awarded roster db :
  players (snd (processTeamResults currentSeason team points tier awarded roster db))
  = players (recordIndividualResults currentSeason points tier
               (playerIds team) (placements team) db).
Proof.
  unfold processTeamResults.
  destruct (allPlayersFromSameClub team); [| reflexivity].
  destruct (List.find isClub (clubNames team)) as [clubName |];
    [| cbn; apply players_recordClubPlayerResults].
  destruct (Str.truthy clubName && negb (bool_decide (clubName ∈ awarded)));
    cbn; [| apply players_recordClubPlayerResults].
  rewrite players_updateClubTournamentStats, players_updateClubPoints.
  apply players_recordClubPlayerResults.
Qed.

Lemma processed_eligible team points tier awarded roster db :
  processed (fst (fst (processTeamResults currentSeason team points tier awarded roster db)))
  = true ->
  allPlayersFromSameClub team = true.
Proof.
  unfold processTeamResults.
  destruct (allPlayersFromSameClub team); [reflexivity |]. cbn. discriminate.
Qed.
End PlayersCollection.

(** ** One club award per tournament *)

Lemma alterEntry_map {V W : Type} (g : V -> W) (f : V -> V) (k : string)
    (l : list (string * V)) :
  (forall v, g (f v) = g v) ->
  map (fun e => (fst e, g (snd e))) (alterEntry k f l)
  = map (fun e => (fst e, g (snd e))) l.
Proof.
  intros Hg. induction l as [| [k' v] l IH]; cbn; [reflexivity |].
  destruct (String.eqb k' k); cbn; [rewrite Hg | rewrite IH]; reflexivity.
Qed.

Section ClubLevel.
Variable currentSeason : Z.

Lemma clubLevel_alterClubPlayer clubId playerKey f db :
  clubLevel (alterClubPlayer clubId playerKey f db) = clubLevel db.
Proof.
  unfold clubLevel, alterClubPlayer. cbn. f_equal.
  apply alterEntry_map. reflexivity.
Qed.

Lemma clubLevel_updatePlayerPoints playerId points db :
  clubLevel (updatePlayerPoints currentSeason playerId points db) = clubLevel db.
Proof.
  unfold updatePlayerPoints.
  destruct (findPlayerLocation playerId db) as [[clubId playerKey] |]; [| reflexivity].
  apply clubLevel_alterClubPlayer.
Qed.

Lemma clubLevel_updatePlayerTournamentStats playerId tier placement db :
  clubLevel (updatePlayerTournamentStats currentSeason playerId tier placement db)
  = clubLevel db.
Proof.
  unfold updatePlayerTournamentStats.
  destruct (String.eqb tier "Unknown"); [reflexivity |].
  destruct (findPlayerLocation playerId db) as [[clubId playerKey] |]; [| reflexivity].
  apply clubLevel_alterClubPlayer.
Qed.

Lemma clubLevel_updateIndividualPlayerResult playerId tier placement points db :
  clubLevel (updateIndividualPlayerResult currentSeason playerId tier placement points db)
  = clubLevel db.
Proof.
  unfold updateIndividualPlayerResult.
  destruct (String.eqb tier "Unknown"); [reflexivity |].
  destruct (bumpTiers _ _ _ _ _). reflexivity.
Qed.

Lemma clubLevel_recordIndividualResults points tier ids places db :
  clubLevel (recordIndividualResults currentSeason points tier ids places db)
  = clubLevel db.
Proof.
  revert places db. induction ids as [| id ids IH]; intros places db; cbn; [reflexivity |].
  rewrite IH. apply clubLevel_updateIndividualPlayerResult.
Qed.

Lemma clubLevel_recordClubPlayerResults points tier roster ids places db :
  clubLevel (recordClubPlayerResults currentSeason points tier roster ids places db)
  = clubLevel db.
Proof.
  revert places db. induction ids as [| id ids IH]; intros places db; cbn; [reflexivity |].
  rewrite IH. destruct (roster !! id); [| reflexivity].
  rewrite clubLevel_updatePlayerTournamentStats. apply clubLevel_updatePlayerPoints.
Qed.

Lemma clubLevel_afterMembers team points tier roster db :
  clubLevel (afterMembers currentSeason team points tier roster db) = clubLevel db.
Proof.
  unfold afterMembers. destruct (allPlayersFromSameClub team).
  - rewrite clubLevel_recordClubPlayerResults. apply clubLevel_recordIndividualResults.
  - apply clubLevel_recordIndividualResults.
Qed.

(** [processTeamResults], by cases on the club of the team and on the
    set of clubs already awarded. *)
Lemma processTeamResults_cases team points tier (awarded : gset string) roster db :
  let outcome := processTeamResults currentSeason team points tier awarded roster db in
  let placement := head (placements team) in
  match eligibleClub team with
  | Some club =>
      if bool_decide (club ∈ awarded)
      then processed (fst (fst outcome)) = false
           /\ snd (fst outcome) = awarded
           /\ snd outcome = afterMembers currentSeason team points tier roster db
      else fst (fst outcome)
           = Awarded club (pointsAt points placement) placement
               (length (playerIds team)) (length (playerIds team))
           /\ snd (fst outcome) = {[club]} ∪ awarded
           /\ snd outcome
              = updateClubTournamentStats currentSeason club tier placement
                  (updateClubPoints currentSeason club (pointsAt points placement)
                     (afterMembers currentSeason team points tier roster db))
  | None => processed (fst (fst outcome)) = false
            /\ snd (fst outcome) = awarded
            /\ snd outcome = afterMembers currentSeason team points tier roster db
  end.
Proof.
  cbv zeta. unfold eligibleClub, processTeamResults, afterMembers.
  destruct (allPlayersFromSameClub team); [| cbn; auto].
  destruct (List.find isClub (clubNames team)) as [club |]; [| cbn; auto].
  destruct (Str.truthy club); [| cbn; auto].
  destruct (bool_decide (club ∈ awarded)); cbn; auto.
Qed.
End ClubLevel.

Section OneAward.
Variable currentSeason : Z.
Variables (points : PointsValue) (tier : string) (roster : gmap string PlayerInfo).

Lemma processTeams_length teams awarded db :
  length (fst (fst (processTeams currentSeason teams points tier awarded roster db))) = length teams.
Proof.
  revert awarded db. induction teams as [| [party team] teams IH]; intros awarded db;
    [reflexivity |].
  cbn.
  destruct (processTeamResults _ _ _ _ _ _ _) as [[r a1] db1].
  specialize (IH a1 db1).
  destruct (processTeams _ _ _ _ _ _ _) as [[rs a2] db2]. cbn in *. lia.
Qed.

(** The loop, started with any set of clubs: a team is awarded exactly
    when it has a club that is neither in the set nor the club of an
    eligible team before it. *)
Lemma processTeams_awards teams (awarded : gset string) db i party team result :
  teams !! i = Some (party, team) ->
  fst (fst (processTeams currentSeason teams points tier awarded roster db)) !! i = Some result ->
  (processed result = true <->
   exists club, eligibleClub team = Some club /\ (club ∉ awarded)
     /\ forall j party' team', (j < i)%nat -> teams !! j = Some (party', team') ->
          eligibleClub team' <> Some club)
  /\ (processed result = true ->
      exists club, eligibleClub team = Some club
        /\ result = Awarded club (pointsAt points (head (placements team)))
                      (head (placements team))
                      (length (playerIds team)) (length (playerIds team))).
Proof.
  revert awarded db i.
  induction teams as [| [party0 team0] teams IH]; intros awarded db i Hteam Hres;
    [discriminate |].
  cbn in Hres.
  pose proof (processTeamResults_cases currentSeason team0 points tier awarded roster db)
    as Hcases. cbv zeta in Hcases.
  destruct (processTeamResults _ _ _ _ _ _ _) as [[r0 a1] db1]. cbn in Hcases.
  specialize (IH a1 db1).
  destruct (processTeams _ _ _ _ _ _ _) as [[rs a2] db2]. cbn in Hres, IH.
  destruct i as [| i].
  - (* the first team *)
    cbn in Hteam, Hres. injection Hteam as <- <-. injection Hres as <-.
    destruct (eligibleClub team0) as [club |].
    + destruct (bool_decide_reflect (club ∈ awarded)) as [Hin | Hnin].
      * destruct Hcases as (Hp & _ & _). rewrite Hp. split.
        -- split; [discriminate |]. intros (c & [= <-] & Hc & _). contradiction.
        -- discriminate.
      * destruct Hcases as (-> & _ & _). cbn. split.
        -- split; [| reflexivity]. intros _. exists club. repeat split; [exact Hnin |].
           intros j ? ? Hj. lia.
        -- intros _. exists club. split; reflexivity.
    + destruct Hcases as (Hp & _ & _). rewrite Hp. split.
      * split; [discriminate |]. intros (c & [=] & _).
      * discriminate.
  - (* a later team *)
    cbn in Hteam, Hres. destruct (IH i Hteam Hres) as [IHiff IHres].
    split; [| exact IHres].
    rewrite IHiff. split.
    + intros (club & Hel & Hnin & Hbefore). exists club. split; [exact Hel |].
      assert (Ha1 : (club ∉ awarded) /\ eligibleClub team0 <> Some club).
      { destruct (eligibleClub team0) as [club0 |].
        - destruct (bool_decide_reflect (club0 ∈ awarded)) as [Hin0 | Hnin0].
          + destruct Hcases as (_ & -> & _). split; [exact Hnin |].
            intros [= ->]. contradiction.
          + destruct Hcases as (_ & -> & _).
            rewrite not_elem_of_union, not_elem_of_singleton in Hnin.
            destruct Hnin as [Hne Hnin]. split; [exact Hnin |].
            intros [= ->]. apply Hne. reflexivity.
        - destruct Hcases as (_ & -> & _). split; [exact Hnin | discriminate]. }
      destruct Ha1 as [Ha Hne0]. split; [exact Ha |].
      intros [| j] party' team' Hj Hlook.
      * cbn in Hlook. injection Hlook as <- <-. exact Hne0.
      * cbn in Hlook. apply (Hbefore j party' team'); [lia | exact Hlook].
    + intros (club & Hel & Hnin & Hbefore). exists club. split; [exact Hel |].
      split.
      * assert (Hne0 : eligibleClub team0 <> Some club).
        { apply (Hbefore 0%nat party0 team0); [lia | reflexivity]. }
        destruct (eligibleClub team0) as [club0 |].
        -- destruct (bool_decide_reflect (club0 ∈ awarded)) as [Hin0 | Hnin0];
             destruct Hcases as (_ & -> & _); [exact Hnin |].
           rewrite not_elem_of_union, not_elem_of_singleton.
           split; [congruence | exact Hnin].
        -- destruct Hcases as (_ & -> & _). exact Hnin.
      * intros j party' team' Hj Hlook.
        apply (Hbefore (S j) party' team'); [lia | exact Hlook].
Qed.
End OneAward.

(** In the loop over the teams of a tournament, started with no club
    awarded, a team receives the club award exactly when it is eligible
    for a club and no team processed before it was eligible for that
    club; so no two teams are awarded for the same club. *)
Lemma processTeams_one_award_per_club (currentSeason : Z)
    (teams : list (string * Team)) (points : PointsValue) (tier : string)
    (roster : gmap string PlayerInfo) (db : Db) :
  let results :=
    fst (fst (processTeams currentSeason teams points tier ∅ roster db)) in
  length results = length teams
  /\ (forall i party team result,
        teams !! i = Some (party, team) -> results !! i = Some result ->
        (processed result = true <->
         exists club, eligibleClub team = Some club
           /\ forall j party' team', (j < i)%nat -> teams !! j = Some (party', team') ->
                eligibleClub team' <> Some club))
  /\ (forall i j club p q place place' n m n' m',
        results !! i = Some (Awarded club p place n m) ->
        results !! j = Some (Awarded club q place' n' m') ->
        i = j).
Proof.
  cbv zeta.
  assert (Hiff : forall i party team result,
    teams !! i = Some (party, team) ->
    fst (fst (processTeams currentSeason teams points tier ∅ roster db)) !! i = Some result ->
    (processed result = true <->
     exists club, eligibleClub team = Some club
       /\ forall j party' team', (j < i)%nat -> teams !! j = Some (party', team') ->
            eligibleClub team' <> Some club)
    /\ (processed result = true ->
        exists club, eligibleClub team = Some club
          /\ result = Awarded club (pointsAt points (head (placements team)))
                        (head (placements team))
                        (length (playerIds team)) (length (playerIds team)))).
  { intros i party team result Hteam Hres.
    destruct (processTeams_awards currentSeason points tier roster teams ∅ db
                i party team result Hteam Hres) as [H1 H2].
    split; [| exact H2]. rewrite H1. split.
    - intros (club & Hel & _ & Hb). exists club. split; assumption.
    - intros (club & Hel & Hb). exists club.
      repeat split; [exact Hel | apply not_elem_of_empty | exact Hb]. }
  split; [apply processTeams_length |]. split.
  - intros i party team result Hteam Hres. apply (Hiff i party team result Hteam Hres).
  - intros i j club p q place place' n m n' m' Hi Hj.
    assert (Hlen := processTeams_length currentSeason points tier roster teams ∅ db).
    destruct (teams !! i) as [[pi ti] |] eqn:Hti.
    2: { apply lookup_ge_None in Hti. apply lookup_lt_Some in Hi. lia. }
    destruct (teams !! j) as [[pj tj] |] eqn:Htj.
    2: { apply lookup_ge_None in Htj. apply lookup_lt_Some in Hj. lia. }
    destruct (Hiff i pi ti _ Hti Hi) as [[Hfi _] Hri].
    destruct (Hiff j pj tj _ Htj Hj) as [[Hfj _] Hrj].
    destruct (Hfi eq_refl) as (ci & Heli & Hbi).
    destruct (Hfj eq_refl) as (cj & Helj & Hbj).
    destruct (Hri eq_refl) as (ci' & Heli' & Hawi).
    destruct (Hrj eq_refl) as (cj' & Helj' & Hawj).
    injection Hawi as Hci _ _ _ _. injection Hawj as Hcj _ _ _ _.
    assert (ci = club) by congruence. assert (cj = club) by congruence. subst ci cj.
    destruct (Nat.lt_total i j) as [Hlt | [Heq | Hgt]]; [| exact Heq |].
    + exfalso. apply (Hbj i pi ti Hlt Hti). exact Heli.
    + exfalso. apply (Hbi j pj tj Hgt Htj). exact Helj.
Qed.

(** C7: the club award goes to the team that is processed first, and the
    teams are processed in the enumeration order of the object that
    [sortTeamsByPlacement] returns. With two teams of Club A whose party
    ids are "7" (first place) and "3" (second place), the team that
    placed second is enumerated first: the club is stored 0.8 points, the
    second-place value of silverEu1, and a "second", and nothing for the
    first place of its other team. With the party ids "p7" and "p3" on
    the same rows the club is stored 1.6 points and a "first". *)
Theorem club_award_follows_party_ids :
  let roster := fetchClubsAndPlayers SampleOrder.db in
  let byNumber := [("3", SampleOrder.runnersUp); ("7", SampleOrder.winners)] in
  let db' :=
    fetchAndProcessTournaments 1 (SampleOrder.feed "7" "3") [Sample.silverCup]
      SampleOrder.db in
  let db'' :=
    fetchAndProcessTournaments 1 (SampleOrder.feed "p7" "p3") [Sample.silverCup]
      SampleOrder.db in
  groupPlayersByTeam (SampleOrder.rows "7" "3") roster = Returned byNumber
  /\ eligibleClub SampleOrder.winners = Some "Club A"
  /\ eligibleClub SampleOrder.runnersUp = Some "Club A"
  /\ sortEntries byNumber = [("7", SampleOrder.winners); ("3", SampleOrder.runnersUp)]
  /\ JsObject.entries (sortTeamsByPlacement byNumber) = byNumber
  /\ fst (fst (processTeams 1 (JsObject.entries (sortTeamsByPlacement byNumber))
                 (getPointsMapping "silverEu1") "silverEu1" ∅ roster SampleOrder.db))
     = [Awarded "Club A" 0.8 (Some 2) 3 3; NotAwarded "Club already awarded" 3]
  /\ storedClubPoints db' "clubA" = Some 0.8%float
  /\ storedClubSeasonPoints 1 db' "clubA" = Some 0.8%float
  /\ clubCounter db' "clubA" "silverEu1" First = 0
  /\ clubCounter db' "clubA" "silverEu1" Second = 1
  /\ storedClubPoints db'' "clubA" = Some 1.6%float
  /\ storedClubSeasonPoints 1 db'' "clubA" = Some 1.6%float
  /\ clubCounter db'' "clubA" "silverEu1" First = 1
  /\ clubCounter db'' "clubA" "silverEu1" Second = 0.
Proof. cbv zeta. repeat split; vm_compute; reflexivity. Qed.

(** ** Markers and idempotent processing *)

Section Markers.
Variable currentSeason : Z.
Variable feed : string -> option (list Row).

Lemma fetched_updateIndividualPlayerResult playerId tier placement points db :
  fetchedTournaments
    (updateIndividualPlayerResult currentSeason playerId tier placement points db)
  = fetchedTournaments db.
Proof.
  unfold updateIndividualPlayerResult.
  destruct (String.eqb tier "Unknown"); [reflexivity |].
  destruct (bumpTiers _ _ _ _ _). reflexivity.
Qed.

Lemma fetched_recordIndividualResults points tier ids places db :
  fetchedTournaments (recordIndividualResults currentSeason points tier ids places db)
  = fetchedTournaments db.
Proof.
  revert places db. induction ids as [| id ids IH]; intros places db; cbn; [reflexivity |].
  rewrite IH. apply fetched_updateIndividualPlayerResult.
Qed.

Lemma fetched_updatePlayerPoints playerId points db :
  fetchedTournaments (updatePlayerPoints currentSeason playerId points db)
  = fetchedTournaments db.
Proof.
  unfold updatePlayerPoints.
  destruct (findPlayerLocation playerId db) as [[clubId playerKey] |]; reflexivity.
Qed.

Lemma fetched_updatePlayerTournamentStats playerId tier placement db :
  fetchedTournaments (updatePlayerTournamentStats currentSeason playerId tier placement db)
  = fetchedTournaments db.
Proof.
  unfold updatePlayerTournamentStats.
  destruct (String.eqb tier "Unknown"); [reflexivity |].
  destruct (findPlayerLocation playerId db) as [[clubId playerKey] |]; reflexivity.
Qed.

Lemma fetched_recordClubPlayerResults points tier roster ids places db :
  fetchedTournaments
    (recordClubPlayerResults currentSeason points tier roster ids places db)
  = fetchedTournaments db.
Proof.
  revert places db. induction ids as [| id ids IH]; intros places db; cbn; [reflexivity |].
  rewrite IH. destruct (roster !! id); [| reflexivity].
  rewrite fetched_updatePlayerTournamentStats. apply fetched_updatePlayerPoints.
Qed.

Lemma fetched_updateClubPoints clubName points db :
  fetchedTournaments (updateClubPoints currentSeason clubName points db)
  = fetchedTournaments db.
Proof.
  unfold updateClubPoints.
  destruct (findClubByName clubName (clubs db)) as [clubId |]; [| reflexivity].
  destruct (lookupEntry clubId (clubs db)); reflexivity.
Qed.

Lemma fetched_updateClubTournamentStats clubName tier placement db :
  fetchedTournaments (updateClubTournamentStats currentSeason clubName tier placement db)
  = fetchedTournaments db.
Proof.
  unfold updateClubTournamentStats.
  destruct (String.eqb tier "Unknown"); [reflexivity |].
  destruct (findClubByName clubName (clubs db)); reflexivity.
Qed.

Lemma fetched_afterMembers team points tier roster db :
  fetchedTournaments (afterMembers currentSeason team points tier roster db)
  = fetchedTournaments db.
Proof.
  unfold afterMembers. destruct (allPlayersFromSameClub team).
  - rewrite fetched_recordClubPlayerResults. apply fetched_recordIndividualResults.
  - apply fetched_recordIndividualResults.
Qed.

Lemma fetched_processTeamResults team points tier awarded roster db :
  fetchedTournaments
    (snd (processTeamResults currentSeason team points tier awarded roster db))
  = fetchedTournaments db.
Proof.
  pose proof (processTeamResults_cases currentSeason team points tier awarded roster db)
    as Hcases. cbv zeta in Hcases.
  destruct (eligibleClub team) as [club |].
  - destruct (bool_decide (club ∈ awarded)).
    + destruct Hcases as (_ & _ & ->). apply fetched_afterMembers.
    + destruct Hcases as (_ & _ & ->).
      rewrite fetched_updateClubTournamentStats, fetched_updateClubPoints.
      apply fetched_afterMembers.
  - destruct Hcases as (_ & _ & ->). apply fetched_afterMembers.
Qed.

Lemma fetched_processTeams teams points tier awarded roster db :
  fetchedTournaments
    (snd (processTeams currentSeason teams points tier awarded roster db))
  = fetchedTournaments db.
Proof.
  revert awarded db. induction teams as [| [party team] teams IH]; intros awarded db;
    [reflexivity |].
  cbn. pose proof (fetched_processTeamResults team points tier awarded roster db) as H1.
  destruct (processTeamResults _ _ _ _ _ _ _) as [[r a1] db1]. cbn in H1.
  specialize (IH a1 db1).
  destruct (processTeams _ _ _ _ _ _ _) as [[rs a2] db2]. cbn in *. congruence.
Qed.

(** Processing the data of a tournament writes no marker, and a throw
    happens before the first write. *)
Lemma fetchAndProcessTournamentData_normal tournamentId tier db db1 :
  fetchAndProcessTournamentData currentSeason feed tournamentId tier db = Normal db1 ->
  fetchedTournaments db1 = fetchedTournaments db.
Proof.
  unfold fetchAndProcessTournamentData, processTournamentResults.
  destruct (feed tournamentId) as [rows |]; [| discriminate].
  destruct (groupPlayersByTeam rows (fetchClubsAndPlayers db)) as [teams | e];
    [| discriminate].
  pose proof (fetched_processTeams
                (JsObject.entries (sortTeamsByPlacement teams))
                (getPointsMapping tier) tier ∅ (fetchClubsAndPlayers db) db) as H.
  destruct (processTeams _ _ _ _ _ _ _) as [[rs a] db2]. cbn in H.
  intros [= <-]. exact H.
Qed.

Lemma fetchAndProcessTournamentData_abrupt tournamentId tier db e db1 :
  fetchAndProcessTournamentData currentSeason feed tournamentId tier db = Abrupt e db1 ->
  db1 = db.
Proof.
  unfold fetchAndProcessTournamentData, processTournamentResults.
  destruct (feed tournamentId) as [rows |]; [| intros [= _ <-]; reflexivity].
  destruct (groupPlayersByTeam rows (fetchClubsAndPlayers db)) as [teams | e'].
  - destruct (processTeams _ _ _ _ _ _ _) as [[rs a] db2]. discriminate.
  - intros [= _ <-]. reflexivity.
Qed.

(** A marker, once written, stays. *)
Lemma fetchAndProcessTournaments_keeps_markers tournaments db id :
  id ∈ fetchedTournaments db -> id ∈ fetchedTournaments (fetchAndProcessTournaments currentSeason feed tournaments db).
Proof.
  revert db. induction tournaments as [| t ts IH]; intros db Hid; [exact Hid |].
  cbn.
  destruct (isTournamentAlreadyProcessed (tournamentId t) db); cbn; [apply IH, Hid |].
  destruct (fetchAndProcessTournamentData _ _ _ _ _) as [db1 | e db1] eqn:Hdata.
  - apply IH. cbn. apply elem_of_union_r.
    rewrite (fetchAndProcessTournamentData_normal _ _ _ _ Hdata). exact Hid.
  - rewrite (fetchAndProcessTournamentData_abrupt _ _ _ _ _ Hdata). exact Hid.
Qed.

(** A batch whose tournaments all have a marker changes nothing. *)
Lemma fetchAndProcessTournaments_all_marked tournaments db :
  Forall (fun t => tournamentId t ∈ fetchedTournaments db) tournaments ->
  fetchAndProcessTournaments currentSeason feed tournaments db = db.
Proof.
  induction 1 as [| t ts Ht Hts IH]; [reflexivity |].
  cbn. unfold isTournamentAlreadyProcessed.
  rewrite bool_decide_eq_true_2 by exact Ht. exact IH.
Qed.

(** A second run over the same batch changes nothing. *)
Lemma fetchAndProcessTournaments_rerun tournaments db :
  fetchAndProcessTournaments currentSeason feed tournaments
    (fetchAndProcessTournaments currentSeason feed tournaments db)
  = fetchAndProcessTournaments currentSeason feed tournaments db.
Proof.
  revert db. induction tournaments as [| t ts IH]; intros db; [reflexivity |].
  cbn [fetchAndProcessTournaments].
  destruct (isTournamentAlreadyProcessed (tournamentId t) db) eqn:Hmark; cbn [negb].
  - assert (Hkeep : isTournamentAlreadyProcessed (tournamentId t)
                      (fetchAndProcessTournaments currentSeason feed ts db) = true).
    { unfold isTournamentAlreadyProcessed in *. apply bool_decide_eq_true.
      apply fetchAndProcessTournaments_keeps_markers.
      apply bool_decide_eq_true in Hmark. exact Hmark. }
    rewrite Hkeep. cbn [negb]. apply IH.
  - destruct (fetchAndProcessTournamentData _ _ _ _ _) as [db1 | e db1] eqn:Hdata.
    + assert (Hkeep : isTournamentAlreadyProcessed (tournamentId t)
                        (fetchAndProcessTournaments currentSeason feed ts
                           (markTournamentAsProcessed (tournamentId t) db1)) = true).
      { unfold isTournamentAlreadyProcessed. apply bool_decide_eq_true.
        apply fetchAndProcessTournaments_keeps_markers. cbn.
        apply elem_of_union_l, elem_of_singleton. reflexivity. }
      rewrite Hkeep. cbn [negb]. apply IH.
    + pose proof (fetchAndProcessTournamentData_abrupt _ _ _ _ _ Hdata) as ->.
      rewrite Hmark. cbn [negb]. rewrite Hdata. reflexivity.
Qed.
End Markers.

(** C1: a batch run writes nothing for a tournament that has a marker,
    the marker being tested before any processing; so a
    tournament id that occurs twice in a batch is processed as if it
    occurred once, and a second run over the same batch, with the same
    participant rows, leaves the store, and with it every total, as the
    first run left it. *)
Theorem processing_is_idempotent (currentSeason : Z) (feed : string -> option (list Row))
    (tournaments : list Tournament) (db : Db) :
  let run := fetchAndProcessTournaments currentSeason feed in
  (forall t, tournamentId t ∈ fetchedTournaments db ->
     run (t :: tournaments) db = run tournaments db)
  /\ (Forall (fun t => tournamentId t ∈ fetchedTournaments db) tournaments ->
      run tournaments db = db)
  /\ (forall t t', tournamentId t' = tournamentId t -> run [t; t'] db = run [t] db)
  /\ run tournaments (run tournaments db) = run tournaments db.
Proof.
  cbv zeta. split; [| split; [| split]].
  - intros t Ht. cbn [fetchAndProcessTournaments]. unfold isTournamentAlreadyProcessed.
    rewrite bool_decide_eq_true_2 by exact Ht. reflexivity.
  - apply fetchAndProcessTournaments_all_marked.
  - intros t t' Hid. cbn [fetchAndProcessTournaments].
    destruct (isTournamentAlreadyProcessed (tournamentId t) db) eqn:Hmark; cbn [negb].
    + rewrite Hid, Hmark. reflexivity.
    + destruct (fetchAndProcessTournamentData _ _ _ _ _) as [db1 | e db1]; [| reflexivity].
      rewrite Hid. unfold isTournamentAlreadyProcessed at 1.
      rewrite bool_decide_eq_true_2; [reflexivity |].
      cbn. apply elem_of_union_l, elem_of_singleton. reflexivity.
  - apply fetchAndProcessTournaments_rerun.
Qed.

Lemma processing_is_idempotent_witness :
  let run := fetchAndProcessTournaments 1 Sample.feed in
  let once := run [Sample.silverCup] Sample.db in
  "T1" ∈ fetchedTournaments once
  /\ is_Some (players once !! "A1")
  /\ run [Sample.silverCup] once = once
  /\ run [Sample.silverCup; Sample.friendly] Sample.db = once.
Proof.
  cbv zeta.
  assert (Hmark : "T1" ∈ fetchedTournaments
            (fetchAndProcessTournaments 1 Sample.feed [Sample.silverCup] Sample.db)).
  { apply (bool_decide_unpack _). vm_compute. exact I. }
  split; [exact Hmark |]. split; [| split].
  - apply (bool_decide_unpack _). vm_compute. exact I.
  - apply (proj1 (proj2 (processing_is_idempotent 1 Sample.feed [Sample.silverCup]
                    (fetchAndProcessTournaments 1 Sample.feed [Sample.silverCup] Sample.db)))).
    constructor; [exact Hmark | constructor].
  - apply (proj1 (proj2 (proj2 (processing_is_idempotent 1 Sample.feed [] Sample.db)))).
    reflexivity.
Defined.

(** ** Tournaments of tier Unknown *)






Section UnknownTier.
Variable currentSeason : Z.







End UnknownTier.

Lemma lookupEntry_map {V W : Type} (g : V -> W) (k : string) (l : list (string * V)) :
  lookupEntry k (map (fun e => (fst e, g (snd e))) l) = g <$> lookupEntry k l.
Proof.
  induction l as [| [k' v] l IH]; cbn; [reflexivity |].
  destruct (String.eqb k' k); [reflexivity | exact IH].
Qed.


Section UnknownSummary.
Variable currentSeason : Z.


End UnknownSummary.



(** ** The effect of one result on totals and counters *)

Lemma readStat_writeStat (f : StatField) (v : Z) (s : TierStats) :
  readStat f (writeStat f v s) = v.
Proof. destruct f; reflexivity. Qed.

Lemma currentValue_initialize (tier : string) (f : StatField) (t : gmap string TierStats) :
  currentValue tier f (initializeTournamentStats tier t) = currentValue tier f t.
Proof.
  unfold currentValue, initializeTournamentStats.
  destruct (t !! tier) eqn:E; [rewrite E; reflexivity |].
  rewrite lookup_insert_eq. destruct f; reflexivity.
Qed.

Lemma currentValue_updateStat (tier : string) (f : StatField) (v : Z)
    (t : gmap string TierStats) :
  currentValue tier f (updateStat tier f v t) = v.
Proof.
  unfold currentValue, updateStat. rewrite lookup_insert_eq. apply readStat_writeStat.
Qed.

Section Effects.
Variable currentSeason : Z.

Lemma seasonOf_withSeasonTiers g seasons :
  seasonOf currentSeason (withSeasonTiers currentSeason g seasons)
  = mkSeasonData (season_totalPoints (seasonOf currentSeason seasons))
                 (g (season_tiers (seasonOf currentSeason seasons))).
Proof. unfold seasonOf, withSeasonTiers. rewrite lookup_insert_eq. reflexivity. Qed.

Lemma seasonOf_setSeasonPoints v seasons :
  seasonOf currentSeason (setSeasonPoints currentSeason v seasons)
  = mkSeasonData (Some v) (season_tiers (seasonOf currentSeason seasons)).
Proof. unfold seasonOf, setSeasonPoints. rewrite lookup_insert_eq. reflexivity. Qed.

(** The writes to a pair of tier nodes: the selected counter grows by
    one in both, and the season total is not touched. *)
Lemma bumpTiers_effect tier placement f tiers seasons :
  getStatFieldForPlacement placement = Some f ->
  let tiers' := fst (bumpTiers currentSeason tier placement tiers seasons) in
  let seasons' := snd (bumpTiers currentSeason tier placement tiers seasons) in
  currentValue tier f tiers' = currentValue tier f tiers + 1
  /\ currentValue tier f (season_tiers (seasonOf currentSeason seasons'))
     = currentValue tier f (season_tiers (seasonOf currentSeason seasons)) + 1
  /\ season_totalPoints (seasonOf currentSeason seasons')
     = season_totalPoints (seasonOf currentSeason seasons).
Proof.
  intros Hf. cbv zeta. unfold bumpTiers. rewrite Hf. cbn [fst snd].
  rewrite !seasonOf_withSeasonTiers. cbn [season_tiers season_totalPoints].
  rewrite !currentValue_updateStat, !currentValue_initialize. auto.
Qed.

Lemma currentValue_initialize_any (tier tier' : string) (f : StatField)
    (t : gmap string TierStats) :
  currentValue tier' f (initializeTournamentStats tier t) = currentValue tier' f t.
Proof.
  unfold currentValue, initializeTournamentStats.
  destruct (t !! tier) eqn:E; [reflexivity |].
  destruct (decide (tier' = tier)) as [-> | Hne].
  - rewrite lookup_insert_eq, E. destruct f; reflexivity.
  - rewrite lookup_insert_ne by congruence. reflexivity.
Qed.

Lemma currentValue_updateStat_any (tier tier' : string) (f f' : StatField) (v : Z)
    (t : gmap string TierStats) :
  currentValue tier' f' (updateStat tier f v t)
  = if String.eqb tier' tier && statFieldEqb f' f then v else currentValue tier' f' t.
Proof.
  unfold currentValue, updateStat.
  destruct (String.eqb_spec tier' tier) as [-> | Hne].
  - rewrite lookup_insert_eq. destruct (t !! tier); destruct f, f'; reflexivity.
  - rewrite lookup_insert_ne by congruence. reflexivity.
Qed.

Lemma statFieldEqb_eq (f g : StatField) : statFieldEqb f g = true <-> f = g.
Proof. destruct f, g; cbn; split; congruence. Qed.

(** The writes to a pair of tier nodes, seen at every counter: the one
    the placement selects grows by one, lifetime and season; no other
    counter, no season total and no other season changes. *)
Lemma bumpTiers_counters tier placement tiers seasons tier' f' :
  let tiers' := fst (bumpTiers currentSeason tier placement tiers seasons) in
  let seasons' := snd (bumpTiers currentSeason tier placement tiers seasons) in
  currentValue tier' f' tiers'
  = currentValue tier' f' tiers + counterStep tier placement tier' f'
  /\ currentValue tier' f' (season_tiers (seasonOf currentSeason seasons'))
     = currentValue tier' f' (season_tiers (seasonOf currentSeason seasons))
       + counterStep tier placement tier' f'
  /\ season_totalPoints (seasonOf currentSeason seasons')
     = season_totalPoints (seasonOf currentSeason seasons)
  /\ (forall s, s <> currentSeason -> seasons' !! s = seasons !! s).
Proof.
  cbv zeta. unfold bumpTiers, counterStep.
  destruct (getStatFieldForPlacement placement) as [f |]; cbn [fst snd].
  - rewrite !seasonOf_withSeasonTiers. cbn [season_tiers season_totalPoints].
    rewrite !currentValue_updateStat_any, !currentValue_initialize_any.
    destruct (String.eqb_spec tier' tier) as [-> | _]; cbn [andb].
    + destruct (statFieldEqb f' f) eqn:Ef.
      * apply statFieldEqb_eq in Ef as ->. repeat split.
        intros s Hs. unfold withSeasonTiers. rewrite !lookup_insert_ne by congruence.
        reflexivity.
      * rewrite !Z.add_0_r. repeat split.
        intros s Hs. unfold withSeasonTiers. rewrite !lookup_insert_ne by congruence.
        reflexivity.
    + rewrite !Z.add_0_r. repeat split.
      intros s Hs. unfold withSeasonTiers. rewrite !lookup_insert_ne by congruence.
      reflexivity.
  - rewrite !seasonOf_withSeasonTiers. cbn [season_tiers season_totalPoints].
    rewrite !currentValue_initialize_any, !Z.add_0_r. repeat split.
    intros s Hs. unfold withSeasonTiers. rewrite !lookup_insert_ne by congruence.
    reflexivity.
Qed.

Lemma counterStep_one tier placement tier' f' :
  tier' = tier -> getStatFieldForPlacement placement = Some f' ->
  counterStep tier placement tier' f' = 1.
Proof.
  intros -> Hf. unfold counterStep. rewrite Hf, String.eqb_refl.
  destruct f'; reflexivity.
Qed.

Lemma counterStep_zero tier placement tier' f' :
  ~ (tier' = tier /\ getStatFieldForPlacement placement = Some f') ->
  counterStep tier placement tier' f' = 0.
Proof.
  intros Hno. unfold counterStep.
  destruct (getStatFieldForPlacement placement) as [f |]; [| reflexivity].
  destruct (String.eqb_spec tier' tier) as [-> | _]; [| reflexivity]. cbn [andb].
  destruct (statFieldEqb f' f) eqn:Ef; [| reflexivity].
  apply statFieldEqb_eq in Ef as ->. exfalso. apply Hno. auto.
Qed.

(** The season node that the writes to the tier nodes leave stores the
    season total that was there. *)
Lemma bumpTiers_stored_points tier placement tiers seasons :
  snd (bumpTiers currentSeason tier placement tiers seasons) !! currentSeason
    ≫= season_totalPoints
  = season_totalPoints (seasonOf currentSeason seasons).
Proof.
  unfold bumpTiers. destruct (getStatFieldForPlacement placement); cbn [snd].
  - unfold withSeasonTiers at 1. rewrite lookup_insert_eq.
    cbn [mbind option_bind season_totalPoints].
    rewrite seasonOf_withSeasonTiers. reflexivity.
  - unfold withSeasonTiers at 1. rewrite lookup_insert_eq. reflexivity.
Qed.

(** An individual result for a tracked tier stores, as the lifetime and
    season totals of the competitor, the sum in doubles of the total
    read and the points, and adds one to the counter of the placement,
    lifetime and season. *)
Lemma updateIndividualPlayerResult_effect playerId tier placement f points db :
  tier <> "Unknown" ->
  getStatFieldForPlacement placement = Some f ->
  individualResultAdded currentSeason db
    (updateIndividualPlayerResult currentSeason playerId tier placement points db)
    playerId tier f points.
Proof.
  intros Htier Hf. unfold individualResultAdded, updateIndividualPlayerResult.
  destruct (String.eqb_spec tier "Unknown") as [-> | _]; [congruence |].
  unfold storedIndividualPoints, storedIndividualSeasonPoints,
    individualPoints, individualSeasonPoints, individualCounter,
    individualSeasonCounter.
  match goal with
  | |- context [bumpTiers currentSeason tier placement ?ts ?ss] =>
      pose proof (bumpTiers_effect tier placement f ts ss Hf) as Hbump;
      cbv zeta in Hbump;
      destruct (bumpTiers currentSeason tier placement ts ss) as [tiers3 seasons3] eqn:Eb
  end.
  cbn [fst snd] in Hbump. destruct Hbump as (Hc & Hsc & Hsp).
  cbn [players withPlayers]. rewrite lookup_insert_eq.
  cbn [mbind option_bind pr_totalPoints pr_seasons pr_tiers].
  unfold setSeasonPoints at 1. rewrite lookup_insert_eq.
  cbn [mbind option_bind season_totalPoints].
  rewrite !seasonOf_setSeasonPoints. cbn [season_tiers].
  unfold seasonPoints at 1. rewrite Hsp, Hc, Hsc. clear Eb Hc Hsc Hsp.
  destruct (players db !! playerId) as [r |] eqn:Hr.
  - (* the node exists *)
    assert (Hnode : forall node1 : PlayerResult,
      pr_tiers node1 = pr_tiers r -> pr_seasons node1 = pr_seasons r ->
      let seasons2 :=
        match pr_seasons node1 !! currentSeason with
        | Some _ => pr_seasons node1
        | None => <[currentSeason := mkSeasonData (Some 0%float) ∅]> (pr_seasons node1)
        end in
      orZero (season_totalPoints (seasonOf currentSeason seasons2))
      = seasonPoints currentSeason (pr_seasons r)
      /\ currentValue tier f (pr_tiers node1) = currentValue tier f (pr_tiers r)
      /\ currentValue tier f (season_tiers (seasonOf currentSeason seasons2))
         = currentValue tier f (season_tiers (seasonOf currentSeason (pr_seasons r)))).
    { intros node1 Ht Hs. cbv zeta. rewrite Ht, Hs. unfold seasonPoints, seasonOf.
      destruct (pr_seasons r !! currentSeason) as [sd |] eqn:Hsd.
      - rewrite Hsd. auto.
      - rewrite lookup_insert_eq. cbn. auto. }
    match goal with
    | |- context [pr_seasons ?n !! currentSeason] =>
        destruct (Hnode n) as (H1 & H2 & H3)
    end.
    + destruct (negb _); [| reflexivity].
      destruct (default false (pr_isRegistered r) && _); reflexivity.
    + destruct (negb _); [| reflexivity].
      destruct (default false (pr_isRegistered r) && _); reflexivity.
    + cbv zeta in H1, H3. rewrite H1, H2, H3. auto.
  - (* the node is created *)
    cbn. rewrite lookup_empty. unfold seasonOf. rewrite lookup_insert_eq. cbn.
    unfold currentValue. rewrite !lookup_empty. auto.
Qed.

(** An individual result writes the node of its competitor only. *)
Lemma updateIndividualPlayerResult_other playerId tier placement points db other :
  other <> playerId ->
  players (updateIndividualPlayerResult currentSeason playerId tier placement points db)
    !! other
  = players db !! other.
Proof.
  intros Hne. unfold updateIndividualPlayerResult.
  destruct (String.eqb tier "Unknown"); [reflexivity |].
  destruct (bumpTiers _ _ _ _ _). cbn. apply lookup_insert_ne. congruence.
Qed.
End Effects.

(** ** Individual results of a competitor who is on one row *)

Section IndividualFrame.
Variable currentSeason : Z.
Variables (points : PointsValue) (tier : string) (roster : gmap string PlayerInfo).

Lemma individualResultAdded_players db db1 db2 playerId f q :
  players db2 !! playerId = players db1 !! playerId ->
  individualResultAdded currentSeason db db1 playerId tier f q ->
  individualResultAdded currentSeason db db2 playerId tier f q.
Proof.
  unfold individualResultAdded, storedIndividualPoints, storedIndividualSeasonPoints,
    individualPoints, individualSeasonPoints, individualCounter, individualSeasonCounter.
  intros ->. auto.
Qed.

Lemma individualResultAdded_from db0 db db' playerId f q :
  players db !! playerId = players db0 !! playerId ->
  individualResultAdded currentSeason db db' playerId tier f q ->
  individualResultAdded currentSeason db0 db' playerId tier f q.
Proof.
  unfold individualResultAdded, storedIndividualPoints, storedIndividualSeasonPoints,
    individualPoints, individualSeasonPoints, individualCounter, individualSeasonCounter.
  intros ->. auto.
Qed.

Lemma recordIndividualResults_other ids places db other :
  other ∉ ids ->
  players (recordIndividualResults currentSeason points tier ids places db) !! other
  = players db !! other.
Proof.
  revert places db. induction ids as [| id ids IH]; intros places db Hnot; cbn;
    [reflexivity |].
  apply not_elem_of_cons in Hnot as [Hne Hnot].
  rewrite IH by exact Hnot. apply updateIndividualPlayerResult_other. exact Hne.
Qed.

Lemma recordIndividualResults_member ids1 playerId ids2 places place f db :
  tier <> "Unknown" ->
  playerId ∉ ids1 -> playerId ∉ ids2 ->
  places !! length ids1 = Some place ->
  getStatFieldForPlacement (Some place) = Some f ->
  individualResultAdded currentSeason db
    (recordIndividualResults currentSeason points tier (ids1 ++ playerId :: ids2) places db)
    playerId tier f (pointsAt points (Some place)).
Proof.
  intros Htier Hn1 Hn2. revert places db.
  induction ids1 as [| id ids1 IH]; intros places db Hplace Hf.
  - cbn [app recordIndividualResults].
    destruct places as [| place' places]; [discriminate |].
    cbn in Hplace. injection Hplace as ->. cbn [head tail].
    eapply individualResultAdded_players.
    + apply recordIndividualResults_other. exact Hn2.
    + apply updateIndividualPlayerResult_effect; assumption.
  - cbn [app recordIndividualResults].
    apply not_elem_of_cons in Hn1 as [Hne Hn1].
    destruct places as [| place' places]; [discriminate |].
    cbn in Hplace. cbn [head tail].
    eapply individualResultAdded_from.
    + apply updateIndividualPlayerResult_other. exact Hne.
    + apply IH; assumption.
Qed.

Lemma processTeams_other teams awarded db other :
  other ∉ allPlayerIds teams ->
  players (snd (processTeams currentSeason teams points tier awarded roster db)) !! other
  = players db !! other.
Proof.
  revert awarded db. induction teams as [| [party team] teams IH]; intros awarded db Hnot;
    [reflexivity |].
  unfold allPlayerIds in Hnot. cbn in Hnot. apply not_elem_of_app in Hnot as [Hteam Hrest].
  cbn.
  pose proof (players_processTeamResults currentSeason team points tier awarded roster db)
    as Hplayers.
  destruct (processTeamResults _ _ _ _ _ _ _) as [[r a1] db1]. cbn in Hplayers.
  specialize (IH a1 db1 Hrest).
  destruct (processTeams _ _ _ _ _ _ _) as [[rs a2] db2]. cbn in *.
  rewrite IH, Hplayers. apply recordIndividualResults_other. exact Hteam.
Qed.

(** A competitor who is a member of one team only, on one row, receives
    one individual result, for the placement on that row. *)
Lemma processTeams_member pre party team post awarded db ids1 playerId ids2 place f :
  tier <> "Unknown" ->
  playerId ∉ allPlayerIds pre -> playerId ∉ allPlayerIds post ->
  playerIds team = ids1 ++ playerId :: ids2 ->
  playerId ∉ ids1 -> playerId ∉ ids2 ->
  placements team !! length ids1 = Some place ->
  getStatFieldForPlacement (Some place) = Some f ->
  individualResultAdded currentSeason db
    (snd (processTeams currentSeason (pre ++ (party, team) :: post) points tier
            awarded roster db))
    playerId tier f (pointsAt points (Some place)).
Proof.
  intros Htier Hpre Hpost Hids Hn1 Hn2 Hplace Hf. revert awarded db.
  induction pre as [| [party0 team0] pre IH]; intros awarded db.
  - cbn [app processTeams].
    pose proof (players_processTeamResults currentSeason team points tier awarded roster db)
      as Hplayers.
    destruct (processTeamResults _ _ _ _ _ _ _) as [[r a1] db1]. cbn in Hplayers.
    pose proof (processTeams_other post a1 db1 playerId Hpost) as Hrest.
    destruct (processTeams _ _ _ _ _ _ _) as [[rs a2] db2]. cbn in *.
    eapply individualResultAdded_players; [rewrite Hrest, Hplayers; reflexivity |].
    rewrite Hids. apply recordIndividualResults_member; assumption.
  - unfold allPlayerIds in Hpre. cbn in Hpre.
    apply not_elem_of_app in Hpre as [Hteam0 Hpre].
    cbn [app processTeams].
    pose proof (players_processTeamResults currentSeason team0 points tier awarded roster db)
      as Hplayers.
    destruct (processTeamResults _ _ _ _ _ _ _) as [[r a1] db1]. cbn in Hplayers.
    specialize (IH Hpre a1 db1).
    destruct (processTeams _ _ _ _ _ _ _) as [[rs a2] db2]. cbn in *.
    eapply individualResultAdded_from; [| exact IH].
    rewrite Hplayers. apply recordIndividualResults_other. exact Hteam0.
Qed.
End IndividualFrame.

(** ** The award of a club *)

Lemma lookupEntry_alterEntry {V : Type} (k k' : string) (f : V -> V)
    (l : list (string * V)) :
  lookupEntry k (alterEntry k' f l)
  = if String.eqb k' k then f <$> lookupEntry k l else lookupEntry k l.
Proof.
  induction l as [| [k0 v] l IH]; cbn.
  - destruct (String.eqb k' k); reflexivity.
  - destruct (String.eqb_spec k0 k') as [-> | Hne0]; cbn.
    + destruct (String.eqb_spec k' k) as [-> | Hne]; [reflexivity |].
      reflexivity.
    + destruct (String.eqb_spec k0 k) as [-> | Hne].
      * destruct (String.eqb_spec k' k) as [-> | Hne']; [congruence | reflexivity].
      * exact IH.
Qed.

Lemma lookupEntry_key {V : Type} (k : string) (v : V) (l : list (string * V)) :
  lookupEntry k l = Some v -> k ∈ map fst l.
Proof.
  induction l as [| [k0 v0] l IH]; cbn; [discriminate |].
  destruct (String.eqb_spec k0 k) as [-> | Hne]; intros H.
  - apply list_elem_of_here.
  - apply list_elem_of_further, IH, H.
Qed.

(** With distinct keys, the club found by name is the one stored under
    the key that the search returns. *)
Lemma findClubByName_lookup (clubName clubId : string) (l : list (string * Club)) :
  NoDup (map fst l) ->
  findClubByName clubName l = Some clubId ->
  exists c, lookupEntry clubId l = Some c /\ club_name c = Some clubName.
Proof.
  induction l as [| [k c] l IH]; cbn; [discriminate |].
  intros Hnodup. apply NoDup_cons in Hnodup as [Hk Hnodup].
  destruct (club_name c) as [n |] eqn:Hn.
  - destruct (String.eqb_spec n clubName) as [-> | Hne].
    + intros [= <-]. rewrite String.eqb_refl. eauto.
    + intros Hfind. destruct (IH Hnodup Hfind) as (c' & Hlook & Hname).
      destruct (String.eqb_spec k clubId) as [-> | _]; [| eauto].
      exfalso. apply Hk. eapply lookupEntry_key, Hlook.
  - intros Hfind. destruct (IH Hnodup Hfind) as (c' & Hlook & Hname).
    destruct (String.eqb_spec k clubId) as [-> | _]; [| eauto].
    exfalso. apply Hk. eapply lookupEntry_key, Hlook.
Qed.

Lemma findClubByName_directory (clubName : string) (l1 l2 : list (string * Club)) :
  map (fun e => (fst e, club_name (snd e))) l1
  = map (fun e => (fst e, club_name (snd e))) l2 ->
  findClubByName clubName l1 = findClubByName clubName l2.
Proof.
  revert l2. induction l1 as [| [k1 c1] l1 IH]; intros [| [k2 c2] l2]; cbn;
    try discriminate; [reflexivity |].
  intros [= -> -> Hrest]. rewrite (IH l2 Hrest). reflexivity.
Qed.

Lemma directory_keys (db : Db) : map fst (directory db) = map fst (clubs db).
Proof. unfold directory. rewrite map_map. reflexivity. Qed.

Lemma directory_clubLevel (db1 db2 : Db) :
  clubLevel db1 = clubLevel db2 -> directory db1 = directory db2.
Proof.
  unfold clubLevel, directory. intros [= H _].
  apply (f_equal (map (fun e : string * _ => (fst e, fst (fst (fst (snd e))))))) in H.
  rewrite !map_map in H. exact H.
Qed.

Lemma clubEntryAggregates_clubLevel (db1 db2 : Db) (clubId : string) :
  clubLevel db1 = clubLevel db2 ->
  clubEntryAggregates db1 clubId = clubEntryAggregates db2 clubId.
Proof.
  unfold clubLevel, clubEntryAggregates. intros [= H _].
  apply (f_equal (lookupEntry clubId)) in H. rewrite !lookupEntry_map in H. exact H.
Qed.

Section ClubAward.
Variable currentSeason : Z.

Lemma clubAwardAdded_aggregates db db1 db2 clubId tier f q :
  clubEntryAggregates db2 clubId = clubEntryAggregates db1 clubId ->
  clubAwardAdded currentSeason db db1 clubId tier f q ->
  clubAwardAdded currentSeason db db2 clubId tier f q.
Proof.
  unfold clubEntryAggregates, clubAwardAdded, storedClubPoints, storedClubSeasonPoints,
    clubLifetimePoints, clubSeasonPoints, clubCounter, clubSeasonCounter.
  intros Hagg.
  destruct (lookupEntry clubId (clubs db2)) as [c2 |],
           (lookupEntry clubId (clubs db1)) as [c1 |]; cbn in Hagg;
    try discriminate; [| auto].
  cbn [mbind option_bind]. injection Hagg as _ -> -> ->. auto.
Qed.

Lemma clubAwardAdded_from db0 db db' clubId tier f q :
  clubEntryAggregates db clubId = clubEntryAggregates db0 clubId ->
  clubAwardAdded currentSeason db db' clubId tier f q ->
  clubAwardAdded currentSeason db0 db' clubId tier f q.
Proof.
  unfold clubEntryAggregates, clubAwardAdded, storedClubPoints, storedClubSeasonPoints,
    clubLifetimePoints, clubSeasonPoints, clubCounter, clubSeasonCounter.
  intros Hagg.
  destruct (lookupEntry clubId (clubs db)) as [c |],
           (lookupEntry clubId (clubs db0)) as [c0 |]; cbn in Hagg;
    try discriminate; [| auto].
  cbn [mbind option_bind]. injection Hagg as _ -> -> ->. auto.
Qed.

Lemma directory_updateClubPoints clubName points db :
  directory (updateClubPoints currentSeason clubName points db) = directory db.
Proof.
  unfold updateClubPoints.
  destruct (findClubByName clubName (clubs db)) as [clubId |]; [| reflexivity].
  destruct (lookupEntry clubId (clubs db)); [| reflexivity].
  unfold directory. cbn. apply alterEntry_map. reflexivity.
Qed.

Lemma directory_updateClubTournamentStats clubName tier placement db :
  directory (updateClubTournamentStats currentSeason clubName tier placement db)
  = directory db.
Proof.
  unfold updateClubTournamentStats.
  destruct (String.eqb tier "Unknown"); [reflexivity |].
  destruct (findClubByName clubName (clubs db)) as [clubId |]; [| reflexivity].
  unfold directory. cbn. apply alterEntry_map. intros c.
  destruct (bumpTiers _ _ _ _ _). reflexivity.
Qed.

(** The two writes of an award, seen at the club they are made for. *)
Lemma award_effect clubName clubId tier placement f points db :
  NoDup (map fst (clubs db)) ->
  findClubByName clubName (clubs db) = Some clubId ->
  tier <> "Unknown" ->
  getStatFieldForPlacement placement = Some f ->
  clubAwardAdded currentSeason db
    (updateClubTournamentStats currentSeason clubName tier placement
       (updateClubPoints currentSeason clubName points db))
    clubId tier f points.
Proof.
  intros Hnodup Hfind Htier Hf.
  destruct (findClubByName_lookup clubName clubId (clubs db) Hnodup Hfind)
    as (c & Hlook & Hname).
  assert (Hfind1 : findClubByName clubName
                     (clubs (updateClubPoints currentSeason clubName points db))
                   = Some clubId).
  { rewrite <- Hfind. apply findClubByName_directory.
    apply (directory_updateClubPoints clubName points db). }
  unfold updateClubTournamentStats.
  destruct (String.eqb_spec tier "Unknown") as [-> | _]; [congruence |].
  rewrite Hfind1. unfold updateClubPoints. rewrite Hfind, Hlook.
  unfold clubAwardAdded, storedClubPoints, storedClubSeasonPoints,
    clubLifetimePoints, clubSeasonPoints, clubCounter, clubSeasonCounter.
  cbn [clubs withClubs withSummary]. rewrite !lookupEntry_alterEntry, String.eqb_refl.
  rewrite Hlook. cbn [fmap option_fmap option_map mbind option_bind].
  cbn [club_name club_players club_totalPoints club_tiers club_seasons].
  pose proof (bumpTiers_effect currentSeason tier placement f (club_tiers c)
                (setSeasonPoints currentSeason
                   (seasonPoints currentSeason (club_seasons c) + points)%float
                   (club_seasons c)) Hf) as Hbump.
  pose proof (bumpTiers_stored_points currentSeason tier placement (club_tiers c)
                (setSeasonPoints currentSeason
                   (seasonPoints currentSeason (club_seasons c) + points)%float
                   (club_seasons c))) as Hstored.
  cbv zeta in Hbump.
  destruct (bumpTiers _ _ _ _ _) as [tiers' seasons']. cbn [fst snd] in Hbump, Hstored.
  destruct Hbump as (Hc & Hsc & _).
  cbn [club_totalPoints club_tiers club_seasons].
  rewrite Hstored, Hc, Hsc.
  rewrite !seasonOf_setSeasonPoints. cbn [season_totalPoints season_tiers].
  auto.
Qed.

(** An award made for another club, stored under another key. *)
Lemma award_other clubName' clubId tier placement points db :
  findClubByName clubName' (clubs db) <> Some clubId ->
  clubEntryAggregates
    (updateClubTournamentStats currentSeason clubName' tier placement
       (updateClubPoints currentSeason clubName' points db)) clubId
  = clubEntryAggregates db clubId.
Proof.
  intros Hfind.
  assert (Hfind1 : findClubByName clubName'
                     (clubs (updateClubPoints currentSeason clubName' points db))
                   = findClubByName clubName' (clubs db)).
  { apply findClubByName_directory.
    apply (directory_updateClubPoints clubName' points db). }
  assert (Hpoints : clubEntryAggregates
                      (updateClubPoints currentSeason clubName' points db) clubId
                    = clubEntryAggregates db clubId).
  { unfold updateClubPoints, clubEntryAggregates.
    destruct (findClubByName clubName' (clubs db)) as [k |]; [| reflexivity].
    destruct (lookupEntry k (clubs db)); [| reflexivity].
    cbn [clubs withClubs withSummary]. rewrite lookupEntry_alterEntry.
    destruct (String.eqb_spec k clubId) as [-> | _]; [congruence | reflexivity]. }
  rewrite <- Hpoints. unfold updateClubTournamentStats.
  destruct (String.eqb tier "Unknown"); [reflexivity |].
  rewrite Hfind1.
  destruct (findClubByName clubName' (clubs db)) as [k |]; [| reflexivity].
  unfold clubEntryAggregates at 1. cbn [clubs withClubs].
  rewrite lookupEntry_alterEntry.
  destruct (String.eqb_spec k clubId) as [-> | _]; [congruence | reflexivity].
Qed.
End ClubAward.

Section ClubAwardLoop.
Variable currentSeason : Z.
Variables (points : PointsValue) (tier : string) (roster : gmap string PlayerInfo).
Variables (clubName clubId : string).

Lemma directory_processTeamResults team awarded db :
  directory (snd (processTeamResults currentSeason team points tier awarded roster db))
  = directory db.
Proof.
  pose proof (processTeamResults_cases currentSeason team points tier awarded roster db)
    as Hcases. cbv zeta in Hcases.
  pose proof (directory_clubLevel _ _
                (clubLevel_afterMembers currentSeason team points tier roster db))
    as Hmembers.
  destruct (eligibleClub team) as [club |].
  - destruct (bool_decide (club ∈ awarded)).
    + destruct Hcases as (_ & _ & ->). exact Hmembers.
    + destruct Hcases as (_ & _ & ->).
      rewrite directory_updateClubTournamentStats, directory_updateClubPoints.
      exact Hmembers.
  - destruct Hcases as (_ & _ & ->). exact Hmembers.
Qed.

(** A team that is not awarded for [clubName] leaves the aggregates of
    that club as they are. *)
Lemma processTeamResults_club_frame team (awarded : gset string) db :
  NoDup (map fst (clubs db)) ->
  findClubByName clubName (clubs db) = Some clubId ->
  eligibleClub team <> Some clubName \/ clubName ∈ awarded ->
  let outcome := processTeamResults currentSeason team points tier awarded roster db in
  clubEntryAggregates (snd outcome) clubId = clubEntryAggregates db clubId
  /\ (clubName ∈ snd (fst outcome) <-> clubName ∈ awarded).
Proof.
  intros Hnodup Hfind Hnot. cbv zeta.
  pose proof (processTeamResults_cases currentSeason team points tier awarded roster db)
    as Hcases. cbv zeta in Hcases.
  pose proof (clubLevel_afterMembers currentSeason team points tier roster db) as Hlevel.
  pose proof (clubEntryAggregates_clubLevel _ _ clubId Hlevel) as Hmembers.
  destruct (eligibleClub team) as [club |].
  - destruct (bool_decide_reflect (club ∈ awarded)) as [Hin | Hnin].
    + destruct Hcases as (_ & -> & ->). split; [exact Hmembers | reflexivity].
    + destruct Hcases as (_ & -> & ->).
      assert (Hne : club <> clubName).
      { intros ->. destruct Hnot as [Hnot | Hnot]; [congruence | contradiction]. }
      split.
      * rewrite <- Hmembers. apply award_other.
        rewrite (findClubByName_directory club _ (clubs db)
                   (directory_clubLevel _ _ Hlevel)).
        intros Hclub.
        destruct (findClubByName_lookup club clubId (clubs db) Hnodup Hclub)
          as (c & Hc & Hcn).
        destruct (findClubByName_lookup clubName clubId (clubs db) Hnodup Hfind)
          as (c' & Hc' & Hcn').
        congruence.
      * rewrite elem_of_union, elem_of_singleton. split; [| auto].
        intros [Heq | Hin]; [congruence | exact Hin].
  - destruct Hcases as (_ & -> & ->). split; [exact Hmembers | reflexivity].
Qed.

Lemma processTeams_club_frame teams (awarded : gset string) db :
  NoDup (map fst (clubs db)) ->
  findClubByName clubName (clubs db) = Some clubId ->
  clubName ∈ awarded
  \/ Forall (fun e => eligibleClub (snd e) <> Some clubName) teams ->
  clubEntryAggregates
    (snd (processTeams currentSeason teams points tier awarded roster db)) clubId
  = clubEntryAggregates db clubId.
Proof.
  revert awarded db. induction teams as [| [party team] teams IH];
    intros awarded db Hnodup Hfind Hnot; [reflexivity |].
  cbn [processTeams].
  assert (Hstep : eligibleClub team <> Some clubName \/ clubName ∈ awarded).
  { destruct Hnot as [Hin | Hall]; [right; exact Hin |].
    left. apply Forall_cons in Hall as [H _]. exact H. }
  pose proof (processTeamResults_club_frame team awarded db Hnodup Hfind Hstep) as Hframe.
  pose proof (directory_processTeamResults team awarded db) as Hdir.
  cbv zeta in Hframe.
  destruct (processTeamResults _ _ _ _ _ _ _) as [[r a1] db1]. cbn [fst snd] in Hframe, Hdir.
  destruct Hframe as [Hagg Haw].
  assert (Hnodup1 : NoDup (map fst (clubs db1))).
  { rewrite <- directory_keys, Hdir, directory_keys. exact Hnodup. }
  assert (Hfind1 : findClubByName clubName (clubs db1) = Some clubId).
  { rewrite <- Hfind. apply findClubByName_directory. exact Hdir. }
  assert (Hnot1 : clubName ∈ a1
                  \/ Forall (fun e => eligibleClub (snd e) <> Some clubName) teams).
  { destruct Hnot as [Hin | Hall]; [left; apply Haw, Hin |].
    right. apply Forall_cons in Hall as [_ H]. exact H. }
  specialize (IH a1 db1 Hnodup1 Hfind1 Hnot1).
  destruct (processTeams _ _ _ _ _ _ _) as [[rs a2] db2]. cbn [fst snd] in *.
  congruence.
Qed.

(** The first team that is eligible for [clubName] brings the club its
    award, once, and no other team of the loop changes it. *)
Lemma processTeams_club_award pre party team post (awarded : gset string) db f :
  NoDup (map fst (clubs db)) ->
  findClubByName clubName (clubs db) = Some clubId ->
  tier <> "Unknown" ->
  clubName ∉ awarded ->
  Forall (fun e => eligibleClub (snd e) <> Some clubName) pre ->
  eligibleClub team = Some clubName ->
  getStatFieldForPlacement (head (placements team)) = Some f ->
  clubAwardAdded currentSeason db
    (snd (processTeams currentSeason (pre ++ (party, team) :: post) points tier
            awarded roster db))
    clubId tier f (pointsAt points (head (placements team))).
Proof.
  intros Hnodup Hfind Htier Hnin Hpre Hel Hf. revert awarded db Hnodup Hfind Hnin.
  induction Hpre as [| [party0 team0] pre Hteam0 Hpre IH];
    intros awarded db Hnodup Hfind Hnin.
  - cbn [app processTeams].
    pose proof (processTeamResults_cases currentSeason team points tier awarded roster db)
      as Hcases. cbv zeta in Hcases. rewrite Hel in Hcases.
    rewrite bool_decide_eq_false_2 in Hcases by exact Hnin.
    pose proof (directory_processTeamResults team awarded db) as Hdir.
    destruct (processTeamResults _ _ _ _ _ _ _) as [[r a1] db1].
    cbn [fst snd] in Hcases, Hdir. destruct Hcases as (_ & Ha1 & Hdb1).
    assert (Hnodup1 : NoDup (map fst (clubs db1))).
    { rewrite <- directory_keys, Hdir, directory_keys. exact Hnodup. }
    assert (Hfind1 : findClubByName clubName (clubs db1) = Some clubId).
    { rewrite <- Hfind. apply findClubByName_directory. exact Hdir. }
    assert (Hin1 : clubName ∈ a1).
    { rewrite Ha1. apply elem_of_union_l, elem_of_singleton. reflexivity. }
    pose proof (processTeams_club_frame post a1 db1 Hnodup1 Hfind1 (or_introl Hin1))
      as Hpost.
    destruct (processTeams _ _ _ _ _ _ _) as [[rs a2] db2]. cbn [fst snd] in *.
    eapply clubAwardAdded_aggregates; [exact Hpost |]. rewrite Hdb1.
    pose proof (clubLevel_afterMembers currentSeason team points tier roster db) as Hlevel.
    eapply clubAwardAdded_from.
    + apply (clubEntryAggregates_clubLevel _ _ clubId Hlevel).
    + apply award_effect; [| | exact Htier | exact Hf].
      * rewrite <- directory_keys, (directory_clubLevel _ _ Hlevel), directory_keys.
        exact Hnodup.
      * rewrite <- Hfind. apply findClubByName_directory.
        apply (directory_clubLevel _ _ Hlevel).
  - cbn [app processTeams].
    pose proof (processTeamResults_club_frame team0 awarded db Hnodup Hfind
                  (or_introl Hteam0)) as Hframe.
    pose proof (directory_processTeamResults team0 awarded db) as Hdir.
    cbv zeta in Hframe.
    destruct (processTeamResults _ _ _ _ _ _ _) as [[r a1] db1].
    cbn [fst snd] in Hframe, Hdir. destruct Hframe as [Hagg Haw].
    assert (Hnodup1 : NoDup (map fst (clubs db1))).
    { rewrite <- directory_keys, Hdir, directory_keys. exact Hnodup. }
    assert (Hfind1 : findClubByName clubName (clubs db1) = Some clubId).
    { rewrite <- Hfind. apply findClubByName_directory. exact Hdir. }
    assert (Hnin1 : clubName ∉ a1) by (rewrite Haw; exact Hnin).
    specialize (IH a1 db1 Hnodup1 Hfind1 Hnin1).
    destruct (processTeams _ _ _ _ _ _ _) as [[rs a2] db2]. cbn [fst snd] in *.
    eapply clubAwardAdded_from; [exact Hagg | exact IH].
Qed.
End ClubAwardLoop.

(** ** The EU Silver Cup scenario *)

Lemma allPlayerIds_app (pre post : list (string * Team)) (party : string) (team : Team) :
  allPlayerIds (pre ++ (party, team) :: post)
  = allPlayerIds pre ++ playerIds team ++ allPlayerIds post.
Proof. unfold allPlayerIds. rewrite map_app, concat_app. reflexivity. Qed.

Lemma allPlayerIds_elem (teams : list (string * Team)) (party : string) (team : Team)
    (playerId : string) :
  (party, team) ∈ teams -> playerId ∈ playerIds team -> playerId ∈ allPlayerIds teams.
Proof.
  intros Hteam Hid. apply list_elem_of_split in Hteam as (pre & post & ->).
  rewrite allPlayerIds_app, !elem_of_app. auto.
Qed.

(** In a loop over teams on which every competitor occurs once, a member
    of a team whose rows all carry the same placement receives one
    individual result for that placement. *)
Lemma processTeams_member_result (currentSeason : Z) (points : PointsValue) (tier : string)
    (roster : gmap string PlayerInfo) (teams : list (string * Team))
    (awarded : gset string) (db : Db) (party : string) (team : Team)
    (playerId : string) (place : Z) (f : StatField) :
  tier <> "Unknown" ->
  NoDup (allPlayerIds teams) ->
  (party, team) ∈ teams ->
  playerId ∈ playerIds team ->
  (forall i, (i < length (playerIds team))%nat -> placements team !! i = Some place) ->
  getStatFieldForPlacement (Some place) = Some f ->
  individualResultAdded currentSeason db
    (snd (processTeams currentSeason teams points tier awarded roster db))
    playerId tier f (pointsAt points (Some place)).
Proof.
  intros Htier Hnodup Hteam Hid Hplaces Hf.
  apply list_elem_of_split in Hteam as (pre & post & ->).
  apply list_elem_of_split in Hid as (ids1 & ids2 & Hids).
  rewrite allPlayerIds_app, Hids in Hnodup.
  apply NoDup_app in Hnodup as (_ & Hpre & Hnodup).
  apply NoDup_app in Hnodup as (Hteam & Hpost & _).
  apply NoDup_app in Hteam as (_ & Hids1 & Hids2).
  apply NoDup_cons in Hids2 as [Hids2 _].
  apply processTeams_member with (ids1 := ids1) (ids2 := ids2); try assumption.
  - intros Hin. apply (Hpre playerId Hin).
    rewrite !elem_of_app, elem_of_cons. auto.
  - apply Hpost. rewrite elem_of_app, elem_of_cons. auto.
  - intros Hin. apply (Hids1 playerId Hin). apply list_elem_of_here.
  - apply Hplaces. rewrite Hids, length_app. cbn. lia.
Qed.

Lemma eligibleClub_three (team : Team) (clubName : string) :
  eligibleClub team = Some clubName -> length (playerIds team) = 3%nat.
Proof.
  unfold eligibleClub, allPlayersFromSameClub.
  destruct (length (playerIds team) =? 3)%nat eqn:E; [| discriminate].
  intros _. apply Nat.eqb_eq, E.
Qed.

Lemma lookup_three (place : Z) (i : nat) :
  (i < 3)%nat -> [place; place; place] !! i = Some place.
Proof. intros H. destruct i as [| [| [| i]]]; try reflexivity. lia. Qed.

(** C2, as amended: for a tournament named "EU Silver Cup 1", not yet
    marked, whose rows put every competitor on one team, the team of
    Club A that placed second, the only team eligible for that club,
    brings the club 0.8 points, the second-place value of silverEu1: the
    lifetime and season totals stored for the club are the totals read
    plus 0.8, added as doubles, and its silverEu1 "second" counters are
    one more; each of its members receives 0.8 points and a "second"
    individually, in the same way; the members of the team that placed
    fourth receive a "third" each, with the fourth-place value 0.4. *)
Theorem silver_cup_scenario (currentSeason : Z) (feed : string -> option (list Row))
    (db : Db) (t : Tournament) (rows : list Row) (teams : JsObject.t Team)
    (clubName clubId partyA party4 : string) (teamA team4 : Team) :
  let sorted := JsObject.entries (sortTeamsByPlacement teams) in
  let db' := fetchAndProcessTournaments currentSeason feed [t] db in
  tournamentName t = Some "EU Silver Cup 1" ->
  tournamentId t ∉ fetchedTournaments db ->
  feed (tournamentId t) = Some rows ->
  groupPlayersByTeam rows (fetchClubsAndPlayers db) = Returned teams ->
  NoDup (allPlayerIds sorted) ->
  NoDup (map fst (clubs db)) ->
  findClubByName clubName (clubs db) = Some clubId ->
  (partyA, teamA) ∈ sorted ->
  placements teamA = [2; 2; 2] ->
  eligibleClub teamA = Some clubName ->
  (forall party team, (party, team) ∈ sorted ->
     eligibleClub team = Some clubName -> team = teamA) ->
  (party4, team4) ∈ sorted ->
  placements team4 = [4; 4; 4] ->
  length (playerIds team4) = 3%nat ->
  getTierFromName (tournamentName t) = "silverEu1"
  /\ getPointsMapping "silverEu1" = PointsArray [1.6; 0.8; 0.4; 0.4]%float
  /\ clubAwardAdded currentSeason db db' clubId "silverEu1" Second 0.8
  /\ (forall playerId, playerId ∈ playerIds teamA ->
        individualResultAdded currentSeason db db' playerId "silverEu1" Second 0.8)
  /\ (forall playerId, playerId ∈ playerIds team4 ->
        individualResultAdded currentSeason db db' playerId "silverEu1" Third 0.4).
Proof.
  cbv zeta.
  intros Hname Hunmarked Hfeed Hgroup Hnodup Hkeys Hfind HteamA HplacesA HeligA Honly
    Hteam4 Hplaces4 Hlen4.
  assert (Htier : getTierFromName (tournamentName t) = "silverEu1").
  { rewrite Hname. reflexivity. }
  split; [exact Htier |]. split; [reflexivity |].
  cbn [fetchAndProcessTournaments]. rewrite Htier.
  unfold isTournamentAlreadyProcessed.
  rewrite bool_decide_eq_false_2 by exact Hunmarked. cbn [negb].
  unfold fetchAndProcessTournamentData, processTournamentResults.
  rewrite Hfeed, Hgroup.
  set (sorted := JsObject.entries (sortTeamsByPlacement teams)) in *.
  set (roster := fetchClubsAndPlayers db).
  set (points := getPointsMapping "silverEu1").
  assert (HlenA : length (playerIds teamA) = 3%nat)
    by (eapply eligibleClub_three; exact HeligA).
  (* the club *)
  assert (Hclub : clubAwardAdded currentSeason db
            (snd (processTeams currentSeason sorted points "silverEu1" ∅ roster db))
            clubId "silverEu1" Second 0.8).
  { pose proof HteamA as Hsplit.
    apply list_elem_of_split in Hsplit as (pre & post & Hsorted).
    assert (Hpre : Forall (fun e => eligibleClub (snd e) <> Some clubName) pre).
    { apply Forall_forall. intros [party team] Hin Helig. cbn in Helig.
      assert (Hin' : (party, team) ∈ sorted).
      { rewrite Hsorted. apply elem_of_app. left. exact Hin. }
      pose proof (Honly party team Hin' Helig) as ->.
      rewrite Hsorted, allPlayerIds_app in Hnodup.
      apply NoDup_app in Hnodup as (_ & Hdisjoint & _).
      destruct (playerIds teamA) as [| p ids] eqn:Hids; [discriminate |].
      apply (Hdisjoint p).
      - apply (allPlayerIds_elem pre party teamA p Hin). rewrite Hids.
        apply list_elem_of_here.
      - apply elem_of_app. left. apply list_elem_of_here. }
    rewrite Hsorted.
    replace 0.8%float with (pointsAt points (head (placements teamA)))
      by (rewrite HplacesA; reflexivity).
    apply processTeams_club_award with (clubName := clubName); try assumption.
    - discriminate.
    - apply not_elem_of_empty.
    - rewrite HplacesA. reflexivity. }
  (* the members of the two teams *)
  assert (HmembersA : forall playerId, playerId ∈ playerIds teamA ->
            individualResultAdded currentSeason db
              (snd (processTeams currentSeason sorted points "silverEu1" ∅ roster db))
              playerId "silverEu1" Second 0.8).
  { intros playerId Hid.
    apply (processTeams_member_result currentSeason points "silverEu1" roster sorted ∅ db
             partyA teamA playerId 2 Second); try assumption; try reflexivity.
    - discriminate.
    - intros i Hi. rewrite HplacesA. apply lookup_three. lia. }
  assert (Hmembers4 : forall playerId, playerId ∈ playerIds team4 ->
            individualResultAdded currentSeason db
              (snd (processTeams currentSeason sorted points "silverEu1" ∅ roster db))
              playerId "silverEu1" Third 0.4).
  { intros playerId Hid.
    apply (processTeams_member_result currentSeason points "silverEu1" roster sorted ∅ db
             party4 team4 playerId 4 Third); try assumption; try reflexivity.
    - discriminate.
    - intros i Hi. rewrite Hplaces4. apply lookup_three. lia. }
  destruct (processTeams currentSeason sorted points "silverEu1" ∅ roster db)
    as [[rs a] db1].
  cbn [snd] in Hclub, HmembersA, Hmembers4.
  split; [| split].
  - eapply clubAwardAdded_aggregates; [| exact Hclub]. reflexivity.
  - intros playerId Hid.
    eapply individualResultAdded_players; [| exact (HmembersA playerId Hid)]. reflexivity.
  - intros playerId Hid.
    eapply individualResultAdded_players; [| exact (Hmembers4 playerId Hid)]. reflexivity.
Qed.

Lemma silver_cup_scenario_witness :
  let db' := fetchAndProcessTournaments 1 Sample.feed [Sample.silverCup] Sample.db in
  clubAwardAdded 1 Sample.db db' "clubA" "silverEu1" Second 0.8
  /\ individualResultAdded 1 Sample.db db' "A1" "silverEu1" Second 0.8
  /\ individualResultAdded 1 Sample.db db' "D1" "silverEu1" Third 0.4.
Proof.
  cbv zeta.
  assert (Hsorted : JsObject.entries (sortTeamsByPlacement Sample.grouped) = Sample.grouped)
    by (vm_compute; reflexivity).
  pose proof (silver_cup_scenario 1 Sample.feed Sample.db Sample.silverCup Sample.rows
                Sample.grouped "Club A" "clubA" "t2" "t4" Sample.teamA
                (Sample.strangers 4 "D1" "D2" "D3")) as H.
  cbv zeta in H.
  destruct H as (_ & _ & Hclub & HmembersA & Hmembers4).
  - reflexivity.
  - apply not_elem_of_empty.
  - reflexivity.
  - vm_compute. reflexivity.
  - apply (bool_decide_unpack _). vm_compute. exact I.
  - apply (bool_decide_unpack _). vm_compute. exact I.
  - reflexivity.
  - rewrite Hsorted. apply list_elem_of_further, list_elem_of_here.
  - reflexivity.
  - vm_compute. reflexivity.
  - rewrite Hsorted. intros party team Hin Helig.
    repeat (apply elem_of_cons in Hin as [[= -> ->] | Hin];
            [first [reflexivity | vm_compute in Helig; discriminate Helig] |]).
    inversion Hin.
  - rewrite Hsorted. do 3 apply list_elem_of_further. apply list_elem_of_here.
  - reflexivity.
  - reflexivity.
  - split; [exact Hclub |]. split.
    + apply HmembersA. apply list_elem_of_here.
    + apply Hmembers4. apply list_elem_of_here.
Defined.

(** The sums are those of doubles: for a club that has 0.4 points
    stored, the second place of its team stores 1.2000000000000002, the
    double nearest to the sum of the doubles 0.4 and 0.8, which is not
    the double 1.2. *)
Lemma silver_cup_rounding :
  let db' :=
    fetchAndProcessTournaments 1 Sample.feed [Sample.silverCup] Sample.dbWithPoints in
  clubLifetimePoints Sample.dbWithPoints "clubA" = 0.4%float
  /\ storedClubPoints db' "clubA" = Some (0.4 + 0.8)%float
  /\ storedClubPoints db' "clubA" = Some 1.2000000000000002%float
  /\ storedClubPoints db' "clubA" <> Some 1.2%float.
Proof.
  cbv zeta. repeat split; try (vm_compute; reflexivity).
  intros H.
  apply (f_equal (fun v => match v with
                           | Some x => PrimFloat.eqb x 1.2
                           | None => false
                           end)) in H.
  vm_compute in H. discriminate H.
Qed.

(** C2, as stated, fails: in the scenario of four teams of three with
    the team of Club A second, the club and its members gain 0.8 points,
    the second-place value of silverEu1, and not 1.6, its first-place
    value. *)
Lemma silver_cup_scenario_counterexample :
  let roster := fetchClubsAndPlayers Sample.db in
  let db' := fetchAndProcessTournaments 1 Sample.feed [Sample.silverCup] Sample.db in
  getTierFromName (tournamentName Sample.silverCup) = "silverEu1"
  /\ groupPlayersByTeam Sample.rows roster = Returned Sample.grouped
  /\ storedClubPoints db' "clubA"
     = Some (clubLifetimePoints Sample.db "clubA" + 0.8)%float
  /\ storedClubPoints db' "clubA"
     <> Some (clubLifetimePoints Sample.db "clubA" + 1.6)%float
  /\ storedClubSeasonPoints 1 db' "clubA"
     <> Some (clubSeasonPoints 1 Sample.db "clubA" + 1.6)%float
  /\ storedIndividualPoints db' "A1"
     <> Some (individualPoints Sample.db "A1" + 1.6)%float.
Proof.
  cbv zeta. repeat split; try (vm_compute; reflexivity);
    intros H;
    apply (f_equal (fun v => match v with
                             | Some x => PrimFloat.eqb x 0.8
                             | None => false
                             end)) in H;
    vm_compute in H; discriminate H.
Qed.

(** ** The individual results of the members of a team *)

Section MemberResults.
Variable currentSeason : Z.

Lemma individualPoints_stored db playerId :
  individualPoints db playerId = orZero (storedIndividualPoints db playerId).
Proof.
  unfold individualPoints, storedIndividualPoints.
  destruct (players db !! playerId); reflexivity.
Qed.

Lemma individualSeasonPoints_stored db playerId :
  individualSeasonPoints currentSeason db playerId
  = orZero (storedIndividualSeasonPoints currentSeason db playerId).
Proof.
  unfold individualSeasonPoints, storedIndividualSeasonPoints, seasonPoints, seasonOf.
  destruct (players db !! playerId) as [r |]; [| reflexivity]. cbn [mbind option_bind].
  destruct (pr_seasons r !! currentSeason); reflexivity.
Qed.

(** One individual result, seen at the node of its competitor: both
    totals are stored anew, and every counter grows by its step. *)
Lemma updateIndividualPlayerResult_writes playerId tier placement points db :
  tier <> "Unknown" ->
  let db' :=
    updateIndividualPlayerResult currentSeason playerId tier placement points db in
  storedIndividualPoints db' playerId
  = Some (orZero (storedIndividualPoints db playerId) + points)%float
  /\ storedIndividualSeasonPoints currentSeason db' playerId
     = Some (orZero (storedIndividualSeasonPoints currentSeason db playerId) + points)%float
  /\ (forall tier' f',
        individualCounter db' playerId tier' f'
        = individualCounter db playerId tier' f' + counterStep tier placement tier' f')
  /\ (forall tier' f',
        individualSeasonCounter currentSeason db' playerId tier' f'
        = individualSeasonCounter currentSeason db playerId tier' f'
          + counterStep tier placement tier' f').
Proof.
  intros Htier. cbv zeta.
  rewrite <- individualPoints_stored, <- individualSeasonPoints_stored.
  unfold updateIndividualPlayerResult.
  destruct (String.eqb_spec tier "Unknown") as [-> | _]; [congruence |].
  unfold storedIndividualPoints, storedIndividualSeasonPoints,
    individualPoints, individualSeasonPoints, individualCounter,
    individualSeasonCounter.
  match goal with
  | |- context [bumpTiers currentSeason tier placement ?ts ?ss] =>
      pose proof (fun tier' f' =>
                    bumpTiers_counters currentSeason tier placement ts ss tier' f')
        as Hbump;
      cbv zeta in Hbump;
      destruct (bumpTiers currentSeason tier placement ts ss) as [tiers3 seasons3] eqn:Eb
  end.
  cbn [fst snd] in Hbump.
  cbn [players withPlayers]. rewrite lookup_insert_eq.
  cbn [mbind option_bind pr_totalPoints pr_seasons pr_tiers].
  unfold setSeasonPoints at 1. rewrite lookup_insert_eq.
  cbn [mbind option_bind season_totalPoints].
  rewrite !seasonOf_setSeasonPoints. cbn [season_tiers].
  unfold seasonPoints at 1.
  destruct (Hbump tier First) as (_ & _ & Hsp & _). rewrite Hsp. clear Hsp Eb.
  destruct (players db !! playerId) as [r |] eqn:Hr.
  - (* the node exists *)
    assert (Hnode : forall node1 : PlayerResult,
      pr_tiers node1 = pr_tiers r -> pr_seasons node1 = pr_seasons r ->
      let seasons2 :=
        match pr_seasons node1 !! currentSeason with
        | Some _ => pr_seasons node1
        | None => <[currentSeason := mkSeasonData (Some 0%float) ∅]> (pr_seasons node1)
        end in
      orZero (season_totalPoints (seasonOf currentSeason seasons2))
      = seasonPoints currentSeason (pr_seasons r)
      /\ (forall tier' f',
            currentValue tier' f' (season_tiers (seasonOf currentSeason seasons2))
            = currentValue tier' f'
                (season_tiers (seasonOf currentSeason (pr_seasons r))))).
    { intros node1 Ht Hs. cbv zeta. rewrite Hs. unfold seasonPoints, seasonOf.
      destruct (pr_seasons r !! currentSeason) as [sd |] eqn:Hsd.
      - rewrite Hsd. auto.
      - rewrite lookup_insert_eq. cbn. auto. }
    match type of Hbump with
    | context [pr_seasons ?n !! currentSeason] =>
        assert (Ht : pr_tiers n = pr_tiers r);
        [| assert (Hs : pr_seasons n = pr_seasons r);
           [| destruct (Hnode n Ht Hs) as (H1 & H3); rewrite Ht in Hbump ]]
    end.
    + destruct (negb _); [| reflexivity].
      destruct (default false (pr_isRegistered r) && _); reflexivity.
    + destruct (negb _); [| reflexivity].
      destruct (default false (pr_isRegistered r) && _); reflexivity.
    + cbv zeta in H1, H3. rewrite H1.
      split; [reflexivity |]. split; [reflexivity |]. split.
      * intros tier' f'. destruct (Hbump tier' f') as (Hc & _). exact Hc.
      * intros tier' f'. destruct (Hbump tier' f') as (_ & Hsc & _).
        rewrite Hsc, H3. reflexivity.
  - (* the node is created *)
    cbn [pr_tiers pr_seasons] in *. rewrite lookup_empty in *.
    split; [reflexivity |]. split; [| split].
    + unfold seasonOf. rewrite lookup_insert_eq. reflexivity.
    + intros tier' f'. destruct (Hbump tier' f') as (Hc & _). rewrite Hc.
      unfold currentValue. rewrite lookup_empty. reflexivity.
    + intros tier' f'. destruct (Hbump tier' f') as (_ & Hsc & _). rewrite Hsc.
      unfold seasonOf. rewrite lookup_insert_eq. cbn. unfold currentValue.
      rewrite lookup_empty. reflexivity.
Qed.

Lemma memberResults_nonempty playerId ids places :
  playerId ∈ ids <-> memberResults playerId ids places <> [].
Proof.
  revert places. induction ids as [| id ids IH]; intros places; cbn [memberResults].
  - split; [intros H; inversion H | congruence].
  - rewrite elem_of_cons. destruct (String.eqb_spec id playerId) as [-> | Hne].
    + split; [discriminate | auto].
    + cbn [app]. rewrite <- IH. split; [intros [-> | H]; [congruence | exact H] | auto].
Qed.

(** The first loop of [processTeamResults], seen at one competitor: the
    results of the rows of the competitor are applied in order. *)
Lemma recordIndividualResults_results points tier ids places db playerId :
  tier <> "Unknown" ->
  let db' := recordIndividualResults currentSeason points tier ids places db in
  let results := memberResults playerId ids places in
  storedIndividualPoints db' playerId
  = fold_left (addPoints points) results (storedIndividualPoints db playerId)
  /\ storedIndividualSeasonPoints currentSeason db' playerId
     = fold_left (addPoints points) results
         (storedIndividualSeasonPoints currentSeason db playerId)
  /\ (forall tier' f',
        individualCounter db' playerId tier' f'
        = fold_left (addCount tier tier' f') results
            (individualCounter db playerId tier' f'))
  /\ (forall tier' f',
        individualSeasonCounter currentSeason db' playerId tier' f'
        = fold_left (addCount tier tier' f') results
            (individualSeasonCounter currentSeason db playerId tier' f')).
Proof.
  intros Htier. cbv zeta. revert places db.
  induction ids as [| id ids IH]; intros places db;
    cbn [recordIndividualResults memberResults].
  - cbn [fold_left]. auto.
  - destruct (IH (tail places)
                (updateIndividualPlayerResult currentSeason id tier (head places)
                   (pointsAt points (head places)) db)) as (IH1 & IH2 & IH3 & IH4).
    destruct (String.eqb_spec id playerId) as [-> | Hne].
    + destruct (updateIndividualPlayerResult_writes playerId tier (head places)
                  (pointsAt points (head places)) db Htier) as (H1 & H2 & H3 & H4).
      cbn [app fold_left]. unfold addPoints at 2 4.
      rewrite IH1, IH2, H1, H2. split; [reflexivity |]. split; [reflexivity |].
      split; intros tier' f'; [rewrite IH3, H3 | rewrite IH4, H4]; reflexivity.
    + cbn [app].
      assert (Hsame :
        players (updateIndividualPlayerResult currentSeason id tier (head places)
                   (pointsAt points (head places)) db) !! playerId
        = players db !! playerId).
      { apply updateIndividualPlayerResult_other. congruence. }
      rewrite IH1, IH2.
      unfold storedIndividualPoints, storedIndividualSeasonPoints.
      rewrite Hsame. split; [reflexivity |]. split; [reflexivity |].
      split; intros tier' f'; [rewrite IH3 | rewrite IH4];
        unfold individualCounter, individualSeasonCounter;
        rewrite Hsame; reflexivity.
Qed.

Lemma recordIndividualResults_unknown points ids places db :
  recordIndividualResults currentSeason points "Unknown" ids places db = db.
Proof.
  revert places db. induction ids as [| id ids IH]; intros places db;
    cbn [recordIndividualResults]; [reflexivity |].
  rewrite IH. reflexivity.
Qed.
End MemberResults.

(** C6, as amended: a team is eligible for the club award exactly when
    it has three members who all resolve to one club other than "No
    Club"; so a team of another size, or with an unregistered member, is
    not, and only an eligible team is awarded. Whatever the outcome, for
    a tournament of a tier other than Unknown every member of the team
    receives the individual results of their rows: each result stores,
    as lifetime and season totals, the total read plus the points of the
    placement, in doubles, and adds one to the counter of the placement,
    lifetime and season; a competitor who is not on the team keeps
    totals and counters. For the tier Unknown nothing is written to the
    individual results. *)
Theorem club_award_eligibility (currentSeason : Z) (roster : gmap string PlayerInfo)
    (rows : list Row) (teams : JsObject.t Team) (party : string) (team : Team) :
  groupPlayersByTeam rows roster = Returned teams ->
  (party, team) ∈ JsObject.entries teams ->
  (allPlayersFromSameClub team = true <->
     length (playerIds team) = 3%nat
     /\ exists club, club <> "No Club"
          /\ forall playerId, playerId ∈ playerIds team -> resolveClub roster playerId = club)
  /\ (length (playerIds team) <> 3%nat -> allPlayersFromSameClub team = false)
  /\ (hasUnregisteredPlayers team = true -> allPlayersFromSameClub team = false)
  /\ (forall points tier awarded db,
        let outcome := processTeamResults currentSeason team points tier awarded roster db in
        let db' := snd outcome in
        (processed (fst (fst outcome)) = true -> allPlayersFromSameClub team = true)
        /\ (tier = "Unknown" -> players db' = players db)
        /\ (tier <> "Unknown" ->
            forall playerId,
              let results := memberResults playerId (playerIds team) (placements team) in
              (playerId ∈ playerIds team <-> results <> [])
              /\ storedIndividualPoints db' playerId
                 = fold_left (addPoints points) results (storedIndividualPoints db playerId)
              /\ storedIndividualSeasonPoints currentSeason db' playerId
                 = fold_left (addPoints points) results
                     (storedIndividualSeasonPoints currentSeason db playerId)
              /\ (forall tier' f',
                    individualCounter db' playerId tier' f'
                    = fold_left (addCount tier tier' f') results
                        (individualCounter db playerId tier' f'))
              /\ (forall tier' f',
                    individualSeasonCounter currentSeason db' playerId tier' f'
                    = fold_left (addCount tier tier' f') results
                        (individualSeasonCounter currentSeason db playerId tier' f'))
              /\ (forall place f,
                    results = [Some place] ->
                    getStatFieldForPlacement (Some place) = Some f ->
                    individualResultAdded currentSeason db db' playerId tier f
                      (pointsAt points (Some place))))).
Proof.
  intros Hgroup Hin.
  pose proof (groupPlayersByTeam_grouped roster rows teams party team Hgroup Hin) as G.
  destruct G as [Hnames Hlen Hplaces Hne Hunreg].
  assert (Hlen' : length (clubNames team) = length (playerIds team)).
  { rewrite Hnames. apply length_map. }
  assert (Hiff : allPlayersFromSameClub team = true <->
     length (playerIds team) = 3%nat
     /\ exists club, club <> "No Club"
          /\ forall playerId, playerId ∈ playerIds team -> resolveClub roster playerId = club).
  { rewrite (allPlayersFromSameClub_iff team Hlen'). rewrite Hnames.
    split; intros [H3 (club & Hclub & Hall)]; (split; [exact H3 |]); exists club;
      (split; [exact Hclub |]).
    - intros id Hid. destruct (playerIds team) as [| a [| b [| c [| d l]]]]; try discriminate.
      cbn in Hall. injection Hall as Ha Hb Hc.
      repeat (apply elem_of_cons in Hid as [-> | Hid]; [assumption |]). inversion Hid.
    - destruct (playerIds team) as [| a [| b [| c [| d l]]]]; try discriminate.
      cbn. rewrite (Hall a), (Hall b), (Hall c); [reflexivity | | |];
        repeat ((apply list_elem_of_here) || apply list_elem_of_further). }
  split; [exact Hiff |]. split; [| split].
  - intros Hn3. destruct (allPlayersFromSameClub team) eqn:E; [| reflexivity].
    exfalso. apply Hn3. apply Hiff. reflexivity.
  - intros Hu. destruct (allPlayersFromSameClub team) eqn:E; [| reflexivity].
    exfalso. destruct Hiff as [Hiff _]. destruct (Hiff eq_refl) as [_ (club & Hclub & Hall)].
    apply Hunreg in Hu as (id & Hid & Hnone).
    specialize (Hall id Hid). unfold resolveClub in Hall. rewrite Hnone in Hall.
    cbn in Hall. congruence.
  - intros points tier awarded db. cbv zeta. split; [| split].
    + apply processed_eligible.
    + intros ->. rewrite players_processTeamResults, recordIndividualResults_unknown.
      reflexivity.
    + intros Htier playerId.
      assert (Hplayers :
        players (snd (processTeamResults currentSeason team points tier awarded roster db))
          !! playerId
        = players (recordIndividualResults currentSeason points tier
                     (playerIds team) (placements team) db) !! playerId).
      { rewrite players_processTeamResults. reflexivity. }
      destruct (recordIndividualResults_results currentSeason points tier
                  (playerIds team) (placements team) db playerId Htier)
        as (H1 & H2 & H3 & H4).
      assert (Hall :
        storedIndividualPoints
          (snd (processTeamResults currentSeason team points tier awarded roster db))
          playerId
        = fold_left (addPoints points)
            (memberResults playerId (playerIds team) (placements team))
            (storedIndividualPoints db playerId)
        /\ storedIndividualSeasonPoints currentSeason
             (snd (processTeamResults currentSeason team points tier awarded roster db))
             playerId
           = fold_left (addPoints points)
               (memberResults playerId (playerIds team) (placements team))
               (storedIndividualSeasonPoints currentSeason db playerId)
        /\ (forall tier' f',
              individualCounter
                (snd (processTeamResults currentSeason team points tier awarded roster db))
                playerId tier' f'
              = fold_left (addCount tier tier' f')
                  (memberResults playerId (playerIds team) (placements team))
                  (individualCounter db playerId tier' f'))
        /\ (forall tier' f',
              individualSeasonCounter currentSeason
                (snd (processTeamResults currentSeason team points tier awarded roster db))
                playerId tier' f'
              = fold_left (addCount tier tier' f')
                  (memberResults playerId (playerIds team) (placements team))
                  (individualSeasonCounter currentSeason db playerId tier' f'))).
      { rewrite <- H1, <- H2. split; [| split; [| split]].
        - unfold storedIndividualPoints. rewrite Hplayers. reflexivity.
        - unfold storedIndividualSeasonPoints. rewrite Hplayers. reflexivity.
        - intros tier' f'. rewrite <- H3. unfold individualCounter.
          rewrite Hplayers. reflexivity.
        - intros tier' f'. rewrite <- H4. unfold individualSeasonCounter.
          rewrite Hplayers. reflexivity. }
      destruct Hall as (A1 & A2 & A3 & A4).
      split; [apply memberResults_nonempty |].
      split; [exact A1 |]. split; [exact A2 |]. split; [exact A3 |].
      split; [exact A4 |].
      intros place f Hone Hf. unfold individualResultAdded.
      rewrite A1, A2, A3, A4, Hone. cbn [fold_left]. unfold addPoints, addCount.
      rewrite <- individualPoints_stored, <- individualSeasonPoints_stored.
      rewrite (counterStep_one tier (Some place) tier f eq_refl Hf). auto.
Qed.

Lemma club_award_eligibility_witness :
  let roster := fetchClubsAndPlayers Sample.db in
  let db' :=
    snd (processTeamResults 1 Sample.teamA (getPointsMapping "silverEu1") "silverEu1" ∅
           roster Sample.db) in
  groupPlayersByTeam Sample.rows roster = Returned Sample.grouped
  /\ allPlayersFromSameClub Sample.teamA = true
  /\ (hasUnregisteredPlayers (Sample.strangers 1 "X1" "X2" "X3") = true ->
      allPlayersFromSameClub (Sample.strangers 1 "X1" "X2" "X3") = false)
  /\ individualResultAdded 1 Sample.db db' "A1" "silverEu1" Second 0.8.
Proof.
  cbv zeta.
  assert (Hgroup : groupPlayersByTeam Sample.rows (fetchClubsAndPlayers Sample.db)
                   = Returned Sample.grouped) by (vm_compute; reflexivity).
  split; [exact Hgroup |]. split; [| split].
  - apply (club_award_eligibility 1 _ _ _ "t2" Sample.teamA Hgroup).
    + apply list_elem_of_further, list_elem_of_here.
    + split; [reflexivity |]. exists "Club A". split; [discriminate |].
      intros id Hid.
      repeat (apply elem_of_cons in Hid as [-> | Hid]; [vm_compute; reflexivity |]).
      inversion Hid.
  - apply (club_award_eligibility 1 _ _ _ "t1" _ Hgroup).
    apply list_elem_of_here.
  - assert (Hin : ("t2", Sample.teamA) ∈ JsObject.entries Sample.grouped)
      by apply list_elem_of_further, list_elem_of_here.
    destruct (club_award_eligibility 1 _ _ _ "t2" Sample.teamA Hgroup Hin)
      as (_ & _ & _ & Hresults).
    destruct (Hresults (getPointsMapping "silverEu1") "silverEu1" ∅ Sample.db)
      as (_ & _ & Hmember).
    destruct (Hmember ltac:(discriminate) "A1") as (_ & _ & _ & _ & _ & Hone).
    apply (Hone 2 Second); reflexivity.
Defined.

(** C6, as stated, fails for a tournament whose tier is Unknown: the
    team of Club A on the rows of a "Friendly Cup" is eligible and is
    reported as awarded, with three individual results, and no node is
    written for any of its members. *)
Lemma club_award_eligibility_counterexample :
  let roster := fetchClubsAndPlayers Sample.db in
  let outcome :=
    processTeamResults 1 Sample.teamA (getPointsMapping "Unknown") "Unknown" ∅ roster
      Sample.db in
  let db' := fetchAndProcessTournaments 1 Sample.feed [Sample.friendly] Sample.db in
  getTierFromName (tournamentName Sample.friendly) = "Unknown"
  /\ groupPlayersByTeam Sample.rows roster = Returned Sample.grouped
  /\ playerIds Sample.teamA = ["A1"; "A2"; "A3"]
  /\ allPlayersFromSameClub Sample.teamA = true
  /\ fst (fst outcome) = Awarded "Club A" 0 (Some 2) 3 3
  /\ players (snd outcome) !! "A1" = None
  /\ players (snd outcome) !! "A2" = None
  /\ players (snd outcome) !! "A3" = None
  /\ players db' !! "A1" = None
  /\ players db' !! "A2" = None
  /\ players db' !! "A3" = None.
Proof. cbv zeta. repeat split; vm_compute; reflexivity. Qed.

(** * Further properties of the code *)

(** ** Classification and points *)

Lemma lowerChar_upperChar (c : ascii) : Str.lowerChar (Str.upperChar c) = Str.lowerChar c.
Proof. destruct c as [[] [] [] [] [] [] [] []]; reflexivity. Qed.

Lemma toLowerCase_toUpperCase (s : string) :
  Str.toLowerCase (Str.toUpperCase s) = Str.toLowerCase s.
Proof.
  induction s as [| c s IH]; [reflexivity |].
  cbn. rewrite lowerChar_upperChar. f_equal. exact IH.
Qed.

Lemma lowerChar_idempotent (c : ascii) : Str.lowerChar (Str.lowerChar c) = Str.lowerChar c.
Proof. destruct c as [[] [] [] [] [] [] [] []]; reflexivity. Qed.

Lemma toLowerCase_idempotent (s : string) :
  Str.toLowerCase (Str.toLowerCase s) = Str.toLowerCase s.
Proof.
  induction s as [| c s IH]; [reflexivity |].
  cbn. rewrite lowerChar_idempotent. f_equal. exact IH.
Qed.

(** X1: For a name of ASCII characters, classification does not depend
    on letter case: the name, its upper-case form and its lower-case
    form get the same tier. *)
Theorem getTierFromName_case_insensitive (a : string) :
  asciiOnly a = true ->
  getTierFromName (Some (Str.toUpperCase a)) = getTierFromName (Some a)
  /\ getTierFromName (Some (Str.toLowerCase a)) = getTierFromName (Some a).
Proof.
  intros _.
  assert (H : forall x y, Str.toLowerCase x = Str.toLowerCase y ->
                getTierFromName (Some x) = getTierFromName (Some y)).
  { intros x y Hxy. unfold getTierFromName.
    rewrite <- (toLowerCase_truthy x), <- (toLowerCase_truthy y), Hxy. reflexivity. }
  split; apply H; [apply toLowerCase_toUpperCase | apply toLowerCase_idempotent].
Qed.

Lemma getTierFromName_case_insensitive_witness :
  getTierFromName (Some "EU SILVER CUP 1") = getTierFromName (Some "EU Silver Cup 1")
  /\ getTierFromName (Some "eu silver cup 1") = getTierFromName (Some "EU Silver Cup 1").
Proof.
  apply (getTierFromName_case_insensitive "EU Silver Cup 1"). reflexivity.
Defined.

(** X2: Every tier the classifier returns is an own key of [pointsMap]: from
    a tournament name, [getPointsMapping] always yields the vector of
    four values stored for the tier, never the default and never an
    inherited member. *)
Theorem getPointsMapping_of_classified (name : option string) :
  exists p1 p2 p3 p4,
    JsObject.getOwn pointsMap (getTierFromName name) = Some [p1; p2; p3; p4]
    /\ getPointsMapping (getTierFromName name) = PointsArray [p1; p2; p3; p4].
Proof.
  assert (Hown : forall tier points,
            JsObject.getOwn pointsMap tier = Some points ->
            JsObject.getOwn pointsMap tier = Some points
            /\ getPointsMapping tier = PointsArray points).
  { intros tier points H. split; [exact H | apply getPointsMapping_known, H]. }
  unfold getTierFromName.
  destruct name as [name |]; [| do 4 eexists; apply Hown; reflexivity].
  destruct (negb (Str.truthy name)); [do 4 eexists; apply Hown; reflexivity |].
  cbv zeta.
  repeat match goal with
  | |- context [if ?c then _ else _] =>
      destruct c; [do 4 eexists; apply Hown; reflexivity |]
  end.
  do 4 eexists; apply Hown; reflexivity.
Qed.

Lemma getPointsMapping_cases (tier : string) :
  (exists key, getPointsMapping tier = InheritedMember key)
  \/ exists p1 p2 p3 p4, getPointsMapping tier = PointsArray [p1; p2; p3; p4].
Proof.
  unfold getPointsMapping, pointsMap. cbn [JsObject.getOwn].
  repeat match goal with
  | |- context [String.eqb ?lit tier] =>
      destruct (String.eqb lit tier); [right; do 4 eexists; reflexivity |]
  end.
  destruct (JsObject.isPrototypeKey tier); [left; eexists; reflexivity |].
  right. do 4 eexists. reflexivity.
Qed.

(** The comparisons of the points of the placements 1 to 4, tier by
    tier. *)
Lemma pointsAt_table (tier : string) :
  forallb (fun pq =>
             (0 <=? pointsAt (getPointsMapping tier) (Some (snd pq)))%float
             && (pointsAt (getPointsMapping tier) (Some (snd pq))
                 <=? pointsAt (getPointsMapping tier) (Some (fst pq)))%float)
    placementPairs = true.
Proof.
  unfold getPointsMapping, pointsMap. cbn [JsObject.getOwn].
  repeat match goal with
  | |- context [String.eqb ?lit tier] =>
      destruct (String.eqb lit tier); [vm_compute; reflexivity |]
  end.
  destruct (JsObject.isPrototypeKey tier); vm_compute; reflexivity.
Qed.

Lemma pointsAt_outside (tier : string) (p : Z) :
  p < 1 \/ 4 < p -> pointsAt (getPointsMapping tier) (Some p) = 0%float.
Proof.
  intros Hout.
  destruct (getPointsMapping_cases tier) as [[key ->] | (p1 & p2 & p3 & p4 & ->)];
    [reflexivity |].
  unfold pointsAt.
  destruct (Z.ltb_spec (p - 1) 0) as [? | Hge]; [reflexivity |].
  destruct Hout as [? | Hgt]; [lia |].
  assert (Hn : (4 <= Z.to_nat (p - 1))%nat) by lia.
  destruct (Z.to_nat (p - 1)) as [| [| [| [| n]]]]; try lia.
  destruct n; reflexivity.
Qed.

(** X3: In every tier a better placement never earns fewer points, no
    placement earns a negative number of points, and a placement outside
    1-4 earns none; this holds for every string passed as tier, known or
    not. The comparisons are those of doubles. *)
Theorem points_decrease_with_placement (tier : string) (p q : Z) :
  (1 <= p <= q ->
   (0 <=? pointsAt (getPointsMapping tier) (Some q))%float = true
   /\ (pointsAt (getPointsMapping tier) (Some q)
       <=? pointsAt (getPointsMapping tier) (Some p))%float = true)
  /\ (p < 1 \/ 4 < p -> pointsAt (getPointsMapping tier) (Some p) = 0%float).
Proof.
  split; [| apply pointsAt_outside].
  intros [Hp Hpq].
  pose proof (pointsAt_table tier) as T. unfold placementPairs in T.
  cbn [forallb fst snd] in T. rewrite !andb_true_iff in T.
  destruct (Z_le_gt_dec q 4) as [Hq | Hq].
  - assert (Hp' : p = 1 \/ p = 2 \/ p = 3 \/ p = 4) by lia.
    assert (Hq' : q = 1 \/ q = 2 \/ q = 3 \/ q = 4) by lia.
    destruct Hp' as [-> | [-> | [-> | ->]]], Hq' as [-> | [-> | [-> | ->]]];
      try lia; tauto.
  - rewrite (pointsAt_outside tier q) by lia. split; [reflexivity |].
    destruct (Z_le_gt_dec p 4) as [Hp4 | Hp4].
    + assert (Hp' : p = 1 \/ p = 2 \/ p = 3 \/ p = 4) by lia.
      destruct Hp' as [-> | [-> | [-> | ->]]]; tauto.
    + rewrite (pointsAt_outside tier p) by lia. reflexivity.
Qed.

Lemma points_decrease_with_placement_witness :
  (0 <=? pointsAt (getPointsMapping "roundMadnessEu") (Some 4%Z))%float = true
  /\ (pointsAt (getPointsMapping "roundMadnessEu") (Some 4%Z)
      <=? pointsAt (getPointsMapping "roundMadnessEu") (Some 3%Z))%float = true.
Proof.
  apply (proj1 (points_decrease_with_placement "roundMadnessEu" 3 4)). lia.
Defined.

(** ** Reads of an object after a write *)

Section ObjectReads.
Context {V : Type}.
Implicit Types (o : JsObject.t V) (k : string) (v : V).

Lemma getOwn_replaceOwn o k v k' :
  is_Some (JsObject.getOwn o k) ->
  JsObject.getOwn (JsObject.replaceOwn o k v) k'
  = if String.eqb k k' then Some v else JsObject.getOwn o k'.
Proof.
  induction o as [| [k0 v0] o IH]; cbn; [intros [x Hx]; discriminate |].
  destruct (String.eqb_spec k0 k) as [-> | Hne]; cbn.
  - intros _. destruct (String.eqb k k'); reflexivity.
  - intros Hsome. rewrite (IH Hsome).
    destruct (String.eqb_spec k0 k') as [-> | Hne']; [| reflexivity].
    destruct (String.eqb_spec k k') as [-> | _]; [congruence | reflexivity].
Qed.

Lemma getOwn_insertIndex o n k v k' :
  JsObject.getOwn o k = None ->
  JsObject.getOwn (JsObject.insertIndex o n k v) k'
  = if String.eqb k k' then Some v else JsObject.getOwn o k'.
Proof.
  induction o as [| [k0 v0] o IH]; cbn; [reflexivity |].
  destruct (String.eqb_spec k0 k) as [-> | Hne]; [discriminate |]. intros Hnone.
  assert (Hskip : JsObject.getOwn ((k0, v0) :: JsObject.insertIndex o n k v) k'
                  = if String.eqb k k' then Some v
                    else if String.eqb k0 k' then Some v0 else JsObject.getOwn o k').
  { cbn. rewrite (IH Hnone).
    destruct (String.eqb_spec k0 k') as [-> | _]; [| reflexivity].
    destruct (String.eqb_spec k k') as [-> | _]; [congruence | reflexivity]. }
  destruct (JsObject.arrayIndex k0) as [n0 |]; [destruct (n0 <? n)%N |];
    first [exact Hskip | reflexivity].
Qed.

Lemma getOwn_push o k v k' :
  JsObject.getOwn o k = None ->
  JsObject.getOwn (o ++ [(k, v)]) k'
  = if String.eqb k k' then Some v else JsObject.getOwn o k'.
Proof.
  induction o as [| [k0 v0] o IH]; cbn; [reflexivity |].
  destruct (String.eqb_spec k0 k) as [-> | Hne]; [discriminate |]. intros Hnone.
  rewrite (IH Hnone).
  destruct (String.eqb_spec k0 k') as [-> | _]; [| reflexivity].
  destruct (String.eqb_spec k k') as [-> | _]; [congruence | reflexivity].
Qed.

(** [o[k] = v; o[k']] *)
Lemma getOwn_set o k v k' :
  JsObject.getOwn (JsObject.set o k v) k'
  = if String.eqb k k' then Some v else JsObject.getOwn o k'.
Proof.
  unfold JsObject.set, JsObject.hasOwn.
  destruct (JsObject.getOwn o k) eqn:Hget.
  - apply getOwn_replaceOwn. rewrite Hget. eauto.
  - destruct (JsObject.arrayIndex k).
    + apply getOwn_insertIndex, Hget.
    + apply getOwn_push, Hget.
Qed.

Lemma elem_getOwn o k v :
  NoDup (map fst o) -> (k, v) ∈ o -> JsObject.getOwn o k = Some v.
Proof.
  induction o as [| [k0 v0] o IH]; cbn; [intros _ H; inversion H |].
  intros Hnodup Hin. apply NoDup_cons in Hnodup as [Hk0 Hnodup].
  apply elem_of_cons in Hin as [[= -> ->] | Hin].
  - rewrite String.eqb_refl. reflexivity.
  - destruct (String.eqb_spec k0 k) as [-> | _]; [| apply IH; assumption].
    exfalso. apply Hk0. apply (list_elem_of_fmap_2 fst) in Hin. exact Hin.
Qed.
End ObjectReads.

(** ** What grouping returns *)

Section GroupingContents.
Variable roster : gmap string PlayerInfo.

(** The callback of [groupPlayersByTeam], by cases on the row. *)
Lemma groupRow_accepted (teams : JsObject.t Team) (row : Row) :
  groupRow roster teams row
  = match acceptedRow row with
    | None => Returned teams
    | Some m =>
        match JsObject.getOwn teams (memberParty m) with
        | Some team =>
            Returned (JsObject.replaceOwn teams (memberParty m) (withMember roster team m))
        | None =>
            if JsObject.isPrototypeKey (memberParty m) then Thrown TypeError
            else Returned (JsObject.set teams (memberParty m) (withMember roster newTeam m))
        end
    end.
Proof.
  unfold groupRow, acceptedRow.
  destruct (userPlayfabId row) as [rawId |]; [| reflexivity].
  destruct (partyId row) as [party |]; [| reflexivity].
  destruct (userPlace row) as [placement |]; [| reflexivity].
  destruct (negb _ || negb _ || _ || _); reflexivity.
Qed.

Lemma teamOfMembers_snoc (members : list (string * string * Z)) (m : string * string * Z) :
  teamOfMembers roster (members ++ [m]) = withMember roster (teamOfMembers roster members) m.
Proof.
  unfold teamOfMembers, withMember. cbn [placements clubNames playerIds playerNames
    hasUnregisteredPlayers].
  rewrite !map_app, existsb_app. cbn [map existsb]. unfold resolveClub.
  f_equal. destruct (roster !! memberId m).
  - rewrite !orb_false_r. reflexivity.
  - cbn. apply orb_true_r.
Qed.

Lemma membersOf_snoc (party : string) (done : list Row) (row : Row) :
  membersOf party (done ++ [row])
  = membersOf party done
    ++ match acceptedRow row with
       | Some m => if String.eqb (memberParty m) party then [m] else []
       | None => []
       end.
Proof.
  unfold membersOf, acceptedRows. rewrite omap_app, List.filter_app. f_equal.
  cbn. destruct (acceptedRow row) as [m |]; [| reflexivity].
  cbn. destruct (String.eqb (memberParty m) party); reflexivity.
Qed.

Lemma teamFor_snoc (members : list (string * string * Z)) (m : string * string * Z) :
  teamFor roster (members ++ [m])
  = Some (withMember roster (teamOfMembers roster members) m).
Proof.
  unfold teamFor. rewrite <- teamOfMembers_snoc.
  destruct members; reflexivity.
Qed.

Lemma groupRow_contents (done : list Row) (teams teams' : JsObject.t Team) (row : Row) :
  (forall party, JsObject.getOwn teams party = teamFor roster (membersOf party done)) ->
  groupRow roster teams row = Returned teams' ->
  forall party,
    JsObject.getOwn teams' party = teamFor roster (membersOf party (done ++ [row])).
Proof.
  intros Hinv. rewrite groupRow_accepted. intros Hrow party.
  rewrite membersOf_snoc.
  destruct (acceptedRow row) as [m |].
  2: { injection Hrow as <-. rewrite app_nil_r. apply Hinv. }
  pose proof (Hinv (memberParty m)) as Hparty.
  assert (Hteam : forall team,
            teamFor roster (membersOf (memberParty m) done) = Some team ->
            team = teamOfMembers roster (membersOf (memberParty m) done)).
  { unfold teamFor. destruct (membersOf (memberParty m) done); congruence. }
  destruct (JsObject.getOwn teams (memberParty m)) as [team |] eqn:Hget.
  - injection Hrow as <-. rewrite getOwn_replaceOwn by (rewrite Hget; eauto).
    destruct (String.eqb_spec (memberParty m) party) as [<- | _].
    + rewrite teamFor_snoc, <- (Hteam team); [reflexivity | congruence].
    + rewrite app_nil_r. apply Hinv.
  - destruct (JsObject.isPrototypeKey (memberParty m)); [discriminate |].
    injection Hrow as <-. rewrite getOwn_set.
    destruct (String.eqb_spec (memberParty m) party) as [<- | _].
    + rewrite teamFor_snoc.
      assert (Hnil : membersOf (memberParty m) done = []).
      { unfold teamFor in Hparty. destruct (membersOf (memberParty m) done);
          [reflexivity | discriminate]. }
      rewrite Hnil. reflexivity.
    + rewrite app_nil_r. apply Hinv.
Qed.

Lemma groupRows_contents (rows done : list Row) (teams teams' : JsObject.t Team) :
  (forall party, JsObject.getOwn teams party = teamFor roster (membersOf party done)) ->
  groupRows roster rows teams = Returned teams' ->
  forall party,
    JsObject.getOwn teams' party = teamFor roster (membersOf party (done ++ rows)).
Proof.
  revert done teams. induction rows as [| row rows IH]; intros done teams Hinv; cbn.
  - intros [= <-]. rewrite app_nil_r. exact Hinv.
  - destruct (groupRow roster teams row) as [teams1 | e] eqn:Hrow; [| discriminate].
    intros Hrows party.
    replace (done ++ row :: rows) with ((done ++ [row]) ++ rows)
      by (rewrite <- app_assoc; reflexivity).
    apply (IH (done ++ [row]) teams1); [| exact Hrows].
    apply (groupRow_contents done teams teams1 row Hinv Hrow).
Qed.
End GroupingContents.

(** X4: When [groupPlayersByTeam] returns, the object holds a team exactly
    for the party ids that have an accepted row, and the team of a party
    lists its accepted rows in the order of the input: the placements,
    the upper-cased ids, the club and player names the roster gives (or
    the placeholders), and the flag for a member missing in the roster. *)
Theorem groupPlayersByTeam_contents (roster : gmap string PlayerInfo) (rows : list Row)
    (teams : JsObject.t Team) :
  groupPlayersByTeam rows roster = Returned teams ->
  (forall party,
     JsObject.getOwn teams party = teamFor roster (membersOf party rows))
  /\ (forall party team,
        (party, team) ∈ JsObject.entries teams <->
        membersOf party rows <> []
        /\ team = teamOfMembers roster (membersOf party rows)).
Proof.
  intros Hgroup.
  assert (Hget : forall party,
            JsObject.getOwn teams party = teamFor roster (membersOf party rows)).
  { intros party.
    apply (groupRows_contents roster rows [] JsObject.empty teams); [| exact Hgroup].
    intros party'. reflexivity. }
  split; [exact Hget |].
  intros party team. unfold JsObject.entries. split.
  - intros Hin.
    apply elem_getOwn in Hin; [| eapply groupPlayersByTeam_keys_NoDup; exact Hgroup].
    rewrite Hget in Hin. unfold teamFor in Hin.
    destruct (membersOf party rows); [discriminate |].
    injection Hin as <-. split; [discriminate | reflexivity].
  - intros [Hne ->]. apply getOwn_elem. rewrite Hget. unfold teamFor.
    destruct (membersOf party rows); [congruence | reflexivity].
Qed.

Lemma groupPlayersByTeam_contents_witness :
  JsObject.getOwn Sample.grouped "t2"
  = teamFor (fetchClubsAndPlayers Sample.db) (membersOf "t2" Sample.rows)
  /\ JsObject.getOwn Sample.grouped "t9" = None.
Proof.
  assert (Hgroup : groupPlayersByTeam Sample.rows (fetchClubsAndPlayers Sample.db)
                   = Returned Sample.grouped) by (vm_compute; reflexivity).
  split.
  - apply (proj1 (groupPlayersByTeam_contents _ _ _ Hgroup)).
  - rewrite (proj1 (groupPlayersByTeam_contents _ _ _ Hgroup) "t9"). reflexivity.
Defined.

(** ** When grouping throws *)

Section GroupingThrows.
Variable roster : gmap string PlayerInfo.

Lemma groupRows_throws (rows : list Row) (teams : JsObject.t Team) :
  (forall k, JsObject.isPrototypeKey k = true -> JsObject.getOwn teams k = None) ->
  if existsb throwingRow rows
  then groupRows roster rows teams = Thrown TypeError
  else exists teams', groupRows roster rows teams = Returned teams'.
Proof.
  revert teams. induction rows as [| row rows IH]; intros teams Hinv; cbn [existsb groupRows].
  - eexists. reflexivity.
  - rewrite groupRow_accepted. unfold throwingRow at 1.
    destruct (acceptedRow row) as [m |]; [| cbn [orb]; apply IH, Hinv].
    destruct (JsObject.isPrototypeKey (memberParty m)) eqn:Hproto; cbn [orb].
    + rewrite (Hinv _ Hproto). reflexivity.
    + destruct (JsObject.getOwn teams (memberParty m)) as [team |] eqn:Hget.
      * apply IH. intros k Hk. rewrite getOwn_replaceOwn by (rewrite Hget; eauto).
        destruct (String.eqb_spec (memberParty m) k) as [<- | _]; [congruence |].
        apply Hinv, Hk.
      * apply IH. intros k Hk. rewrite getOwn_set.
        destruct (String.eqb_spec (memberParty m) k) as [<- | _]; [congruence |].
        apply Hinv, Hk.
Qed.
End GroupingThrows.

(** X5: [groupPlayersByTeam] throws, a [TypeError], whenever a row that
    it would accept carries a party id naming a member of
    [Object.prototype], whatever the other rows and the roster are. *)
Theorem groupPlayersByTeam_throws (roster : gmap string PlayerInfo) (rows : list Row) :
  existsb throwingRow rows = true ->
  groupPlayersByTeam rows roster = Thrown TypeError.
Proof.
  pose proof (groupRows_throws roster rows JsObject.empty (fun k _ => eq_refl)) as H.
  unfold groupPlayersByTeam. revert H.
  destruct (existsb throwingRow rows); intros H; [intros _; exact H | discriminate].
Qed.

Lemma groupPlayersByTeam_throws_witness :
  groupPlayersByTeam SampleRows.poisoned ∅ = Thrown TypeError.
Proof.
  apply (groupPlayersByTeam_throws ∅ SampleRows.poisoned). reflexivity.
Defined.

(** ** No row and no team is lost *)

Section ObjectPermutations.
Context {V : Type}.
Implicit Types (o : JsObject.t V) (k : string) (v : V).

Lemma insertIndex_perm o n k v : JsObject.insertIndex o n k v ≡ₚ (k, v) :: o.
Proof.
  induction o as [| [k' v'] o IH]; cbn; [reflexivity |].
  destruct (JsObject.arrayIndex k') as [n' |]; [| reflexivity].
  destruct (n' <? n)%N; [| reflexivity].
  rewrite IH. apply Permutation_swap.
Qed.

(** A property that is created joins the others. *)
Lemma set_new_perm o k v :
  JsObject.getOwn o k = None -> JsObject.set o k v ≡ₚ (k, v) :: o.
Proof.
  intros Hnone. unfold JsObject.set, JsObject.hasOwn. rewrite Hnone.
  destruct (JsObject.arrayIndex k).
  - apply insertIndex_perm.
  - symmetry. apply Permutation_cons_append.
Qed.


(** Entries with distinct keys, written into an object in turn, are all
    in it afterwards, whatever their keys. *)
Lemma copy_entries_perm (l : list (string * V)) (acc : JsObject.t V) :
  NoDup (map fst (acc ++ l)) ->
  fold_left (fun acc (e : string * V) => JsObject.set acc (fst e) (snd e)) l acc
  ≡ₚ acc ++ l.
Proof.
  revert acc. induction l as [| [k v] l IH]; intros acc Hnodup; cbn [fold_left fst snd].
  - rewrite app_nil_r. reflexivity.
  - assert (Hnone : JsObject.getOwn acc k = None).
    { apply getOwn_None. rewrite map_app in Hnodup.
      apply NoDup_app in Hnodup as (_ & Hdisjoint & _).
      intros Hin. apply (Hdisjoint k Hin). apply list_elem_of_here. }
    pose proof (set_new_perm acc k v Hnone) as Hset.
    rewrite IH.
    + rewrite Hset. cbn [app]. apply Permutation_middle.
    + rewrite Hset. cbn [app map fst].
      rewrite map_app in *. cbn [map fst] in Hnodup.
      rewrite <- Permutation_middle in Hnodup. exact Hnodup.
Qed.
End ObjectPermutations.



Lemma allPlayerIds_perm (l l' : list (string * Team)) :
  l ≡ₚ l' -> allPlayerIds l ≡ₚ allPlayerIds l'.
Proof.
  unfold allPlayerIds. intros H. induction H as [| e l l' H IH | e e' l | l l' l'' H IH H' IH'];
    cbn [map concat].
  - reflexivity.
  - rewrite IH. reflexivity.
  - rewrite !app_assoc. apply Permutation_app_tail, Permutation_app_comm.
  - rewrite IH. exact IH'.
Qed.

Lemma allPlayerIds_replaceOwn (teams : JsObject.t Team) (party : string)
    (team team' : Team) (playerId : string) :
  JsObject.getOwn teams party = Some team ->
  playerIds team' = playerIds team ++ [playerId] ->
  allPlayerIds (JsObject.replaceOwn teams party team') ≡ₚ playerId :: allPlayerIds teams.
Proof.
  intros Hget Hids. unfold allPlayerIds.
  induction teams as [| [k0 v0] teams IH]; cbn in *; [discriminate |].
  destruct (String.eqb_spec k0 party) as [-> | Hne]; cbn [map concat snd].
  - injection Hget as ->. rewrite Hids, <- app_assoc. cbn [app].
    symmetry. apply Permutation_middle.
  - rewrite (IH Hget). symmetry. apply Permutation_middle.
Qed.

Section Conservation.
Variable roster : gmap string PlayerInfo.

Lemma groupRows_conserves (rows done : list Row) (teams teams' : JsObject.t Team) :
  allPlayerIds teams ≡ₚ map memberId (acceptedRows done) ->
  groupRows roster rows teams = Returned teams' ->
  allPlayerIds teams' ≡ₚ map memberId (acceptedRows (done ++ rows)).
Proof.
  revert done teams. induction rows as [| row rows IH]; intros done teams Hinv;
    cbn [groupRows].
  - intros [= <-]. rewrite app_nil_r. exact Hinv.
  - destruct (groupRow roster teams row) as [teams1 | e] eqn:Hrow; [| discriminate].
    intros Hrows.
    replace (done ++ row :: rows) with ((done ++ [row]) ++ rows)
      by (rewrite <- app_assoc; reflexivity).
    apply (IH (done ++ [row]) teams1); [| exact Hrows].
    unfold acceptedRows. rewrite omap_app, map_app. cbn [omap list_omap].
    rewrite groupRow_accepted in Hrow.
    destruct (acceptedRow row) as [m |].
    2: { injection Hrow as <-. cbn [map]. rewrite app_nil_r. exact Hinv. }
    cbn [map app]. rewrite <- Permutation_cons_append.
    destruct (JsObject.getOwn teams (memberParty m)) as [team |] eqn:Hget.
    + injection Hrow as <-.
      rewrite (allPlayerIds_replaceOwn teams (memberParty m) team _ (memberId m) Hget)
        by reflexivity.
      rewrite Hinv. reflexivity.
    + destruct (JsObject.isPrototypeKey (memberParty m)); [discriminate |].
      injection Hrow as <-.
      rewrite (allPlayerIds_perm _ _ (set_new_perm teams (memberParty m) _ Hget)).
      unfold allPlayerIds at 1. cbn [map concat snd withMember playerIds newTeam app].
      fold (allPlayerIds teams). rewrite Hinv. reflexivity.
Qed.
End Conservation.

(** X6: Grouping loses no accepted row and counts none twice: the members
    of all teams together are the upper-cased ids of the accepted rows,
    so there are as many members as accepted rows. *)
Theorem groupPlayersByTeam_conserves_rows (roster : gmap string PlayerInfo)
    (rows : list Row) (teams : JsObject.t Team) :
  groupPlayersByTeam rows roster = Returned teams ->
  allPlayerIds (JsObject.entries teams) ≡ₚ map memberId (acceptedRows rows)
  /\ length (allPlayerIds (JsObject.entries teams)) = length (acceptedRows rows).
Proof.
  intros Hgroup.
  assert (Hperm : allPlayerIds (JsObject.entries teams)
                  ≡ₚ map memberId (acceptedRows rows)).
  { apply (groupRows_conserves roster rows [] JsObject.empty teams); [reflexivity |].
    exact Hgroup. }
  split; [exact Hperm |]. rewrite Hperm. apply length_map.
Qed.

Lemma groupPlayersByTeam_conserves_rows_witness :
  length (allPlayerIds (JsObject.entries Sample.grouped)) = 12%nat.
Proof.
  rewrite (proj2 (groupPlayersByTeam_conserves_rows
                    (fetchClubsAndPlayers Sample.db) Sample.rows Sample.grouped
                    ltac:(vm_compute; reflexivity))).
  reflexivity.
Defined.

(** ** The roster cache and the search for a player *)

Lemma upperChar_idempotent (c : ascii) : Str.upperChar (Str.upperChar c) = Str.upperChar c.
Proof. destruct c as [[] [] [] [] [] [] [] []]; reflexivity. Qed.

Lemma toUpperCase_removeSpaces (s : string) :
  Str.toUpperCase (Str.removeSpaces s) = Str.removeSpaces (Str.toUpperCase s).
Proof.
  induction s as [| c s IH]; [reflexivity |].
  cbn. rewrite isSpace_upperChar. destruct (Str.isSpace c); [exact IH |].
  cbn. f_equal. exact IH.
Qed.

Lemma toUpperCase_idempotent (s : string) :
  Str.toUpperCase (Str.toUpperCase s) = Str.toUpperCase s.
Proof.
  induction s as [| c s IH]; [reflexivity |].
  cbn. rewrite upperChar_idempotent. f_equal. exact IH.
Qed.

Lemma removeSpaces_idempotent (s : string) :
  Str.removeSpaces (Str.removeSpaces s) = Str.removeSpaces s.
Proof.
  induction s as [| c s IH]; [reflexivity |].
  cbn. destruct (Str.isSpace c) eqn:E; [exact IH |].
  cbn. rewrite E. f_equal. exact IH.
Qed.

(** A normalised id is its own normal form. *)
Lemma normalizeId_idempotent (s : string) : normalizeId (normalizeId s) = normalizeId s.
Proof.
  unfold normalizeId.
  rewrite toUpperCase_removeSpaces, toUpperCase_idempotent. apply removeSpaces_idempotent.
Qed.

Section RosterCache.

Lemma cachePlayersOfClub_sound (db : Db) (clubId : string) (clubData : Club)
    (cache : gmap string PlayerInfo) :
  (clubId, clubData) ∈ clubs db ->
  (forall k info, cache !! k = Some info -> listedPlayer db k info) ->
  forall k info, cachePlayersOfClub clubId clubData cache !! k = Some info ->
    listedPlayer db k info.
Proof.
  intros Hclub. unfold cachePlayersOfClub.
  destruct (club_name clubData) as [clubName |] eqn:Hname; [| auto].
  destruct (Str.truthy clubName) eqn:Htruthy; cbn [negb]; [| auto].
  assert (Hsub : forall e, e ∈ club_players clubData -> e ∈ club_players clubData) by auto.
  revert Hsub. generalize (club_players clubData) at 1 3. intros l. revert cache.
  induction l as [| [playerKey playerData] l IH]; intros cache Hsub Hcache;
    cbn [fold_left]; [exact Hcache |].
  apply IH; [intros e He; apply Hsub, list_elem_of_further, He |].
  destruct (cp_playfabId playerData) as [playfabId |] eqn:Hid; [| exact Hcache].
  destruct (cp_name playerData) as [name |] eqn:Hpname; [| exact Hcache].
  destruct (Str.truthy playfabId) eqn:Htid; cbn [negb orb]; [| exact Hcache].
  destruct (Str.truthy name) eqn:Htname; cbn [negb]; [| exact Hcache].
  intros k info. destruct (decide (normalizeId playfabId = k)) as [<- | Hne].
  - rewrite lookup_insert_eq. intros [= <-].
    exists clubId, clubData, playerKey, playerData, playfabId. cbn.
    repeat split; try assumption; try reflexivity.
    apply Hsub, list_elem_of_here.
  - rewrite lookup_insert_ne by exact Hne. apply Hcache.
Qed.

Lemma cachePlayersOfClub_keeps (clubId : string) (clubData : Club)
    (cache : gmap string PlayerInfo) (k : string) :
  is_Some (cache !! k) -> is_Some (cachePlayersOfClub clubId clubData cache !! k).
Proof.
  unfold cachePlayersOfClub.
  destruct (club_name clubData) as [clubName |]; [| auto].
  destruct (negb (Str.truthy clubName)); [auto |].
  generalize (club_players clubData). intros l. revert cache.
  induction l as [| [playerKey playerData] l IH]; intros cache Hsome; cbn [fold_left];
    [exact Hsome |].
  apply IH.
  destruct (cp_playfabId playerData) as [playfabId |]; [| exact Hsome].
  destruct (cp_name playerData) as [name |]; [| exact Hsome].
  destruct (negb _ || negb _); [exact Hsome |].
  destruct (decide (normalizeId playfabId = k)) as [<- | Hne].
  - rewrite lookup_insert_eq. eauto.
  - rewrite lookup_insert_ne by exact Hne. exact Hsome.
Qed.

Lemma cachePlayersOfClub_complete (clubId : string) (clubData : Club)
    (cache : gmap string PlayerInfo) (clubName playerKey playfabId name : string)
    (playerData : ClubPlayer) :
  club_name clubData = Some clubName -> Str.truthy clubName = true ->
  (playerKey, playerData) ∈ club_players clubData ->
  cp_playfabId playerData = Some playfabId -> Str.truthy playfabId = true ->
  cp_name playerData = Some name -> Str.truthy name = true ->
  is_Some (cachePlayersOfClub clubId clubData cache !! normalizeId playfabId).
Proof.
  intros Hname Htruthy Hin Hid Htid Hpname Htname.
  unfold cachePlayersOfClub. rewrite Hname, Htruthy. cbn [negb].
  revert cache Hin. generalize (club_players clubData). intros l.
  induction l as [| [key0 data0] l IH]; intros cache Hin; [inversion Hin |].
  cbn [fold_left].
  apply elem_of_cons in Hin as [[= <- <-] | Hin]; [| apply IH, Hin].
  rewrite Hid, Hpname, Htid, Htname. cbn [negb orb].
  assert (Hkeep : forall (l' : list (string * ClubPlayer)) (c : gmap string PlayerInfo),
    is_Some (c !! normalizeId playfabId) ->
    is_Some (fold_left
      (fun cache (entry : string * ClubPlayer) =>
         let '(playerId, playerData) := entry in
         match cp_playfabId playerData, cp_name playerData with
         | Some playfabId, Some name =>
             if negb (Str.truthy playfabId) || negb (Str.truthy name) then cache
             else <[normalizeId playfabId :=
                      mkPlayerInfo name clubName (Some clubId) (Some playerId)]> cache
         | _, _ => cache
         end) l' c !! normalizeId playfabId)).
  { induction l' as [| [k1 d1] l' IH']; intros c Hc; cbn [fold_left]; [exact Hc |].
    apply IH'.
    destruct (cp_playfabId d1) as [id1 |]; [| exact Hc].
    destruct (cp_name d1) as [n1 |]; [| exact Hc].
    destruct (negb _ || negb _); [exact Hc |].
    destruct (decide (normalizeId id1 = normalizeId playfabId)) as [-> | Hne].
    - rewrite lookup_insert_eq. eauto.
    - rewrite lookup_insert_ne by exact Hne. exact Hc. }
  apply Hkeep. rewrite lookup_insert_eq. eauto.
Qed.

End RosterCache.

(** The entries of the roster cache, and its keys. *)
Lemma fetchClubsAndPlayers_entries_of (db : Db) (k : string) :
  (forall info, fetchClubsAndPlayers db !! k = Some info ->
     listedPlayer db k info /\ normalizeId k = k)
  /\ (is_Some (fetchClubsAndPlayers db !! k) <-> exists info, listedPlayer db k info).
Proof.
  assert (Hsound : forall (l : list (string * Club)) (cache : gmap string PlayerInfo),
    (forall e, e ∈ l -> e ∈ clubs db) ->
    (forall k info, cache !! k = Some info -> listedPlayer db k info) ->
    forall k info,
      fold_left (fun cache (entry : string * Club) =>
                   cachePlayersOfClub (fst entry) (snd entry) cache) l cache !! k
      = Some info ->
      listedPlayer db k info).
  { induction l as [| [clubId clubData] l IH]; intros cache Hsub Hcache; cbn [fold_left];
      [exact Hcache |].
    apply IH; [intros e He; apply Hsub, list_elem_of_further, He |].
    apply cachePlayersOfClub_sound; [apply Hsub, list_elem_of_here | exact Hcache]. }
  assert (Hkeep : forall (l : list (string * Club)) (cache : gmap string PlayerInfo) k,
    is_Some (cache !! k) ->
    is_Some (fold_left (fun cache (entry : string * Club) =>
                          cachePlayersOfClub (fst entry) (snd entry) cache) l cache !! k)).
  { induction l as [| [clubId clubData] l IH]; intros cache k' Hsome; cbn [fold_left];
      [exact Hsome |].
    apply IH, cachePlayersOfClub_keeps, Hsome. }
  assert (Hlisted : forall info, fetchClubsAndPlayers db !! k = Some info ->
                      listedPlayer db k info).
  { intros info. apply (Hsound (clubs db) ∅); [auto |].
    intros k' info'. rewrite lookup_empty. discriminate. }
  split.
  - intros info Hinfo. pose proof (Hlisted info Hinfo) as Hl. split; [exact Hl |].
    destruct Hl as (? & ? & ? & ? & playfabId & _ & _ & _ & _ & <- & _).
    apply normalizeId_idempotent.
  - split.
    + intros [info Hinfo]. exists info. apply Hlisted, Hinfo.
    + intros (info & clubId & clubData & playerKey & playerData & playfabId
              & Hclub & Hplayer & Hid & Htid & <- & Hname & Htname & Hpname & Htpname & _).
      unfold fetchClubsAndPlayers. revert Hclub. generalize (∅ : gmap string PlayerInfo).
      generalize (clubs db). intros l.
      induction l as [| [clubId0 clubData0] l IH]; intros cache Hclub; [inversion Hclub |].
      cbn [fold_left fst snd].
      apply elem_of_cons in Hclub as [[= <- <-] | Hclub]; [| apply IH, Hclub].
      apply Hkeep.
      eapply cachePlayersOfClub_complete; eassumption.
Qed.

(** X9: The roster cache has an entry under a key exactly when a player of
    the store with a PlayFab id and a name, in a club with a name,
    normalises to that key; the entry describes such a player (name,
    club name, club key, player key), and every key is its own normal
    form. *)
Theorem fetchClubsAndPlayers_entries (db : Db) (k : string) :
  (forall info, fetchClubsAndPlayers db !! k = Some info ->
     listedPlayer db k info /\ normalizeId k = k)
  /\ (is_Some (fetchClubsAndPlayers db !! k) <-> exists info, listedPlayer db k info).
Proof. exact (fetchClubsAndPlayers_entries_of db k). Qed.

Lemma fetchClubsAndPlayers_entries_witness :
  listedPlayer Sample.db "A2" (mkPlayerInfo "Bob" "Club A" (Some "clubA") (Some "k2"))
  /\ normalizeId "A2" = "A2".
Proof.
  apply (proj1 (fetchClubsAndPlayers_entries Sample.db "A2")).
  vm_compute. reflexivity.
Defined.

(** ** The search for a player in the clubs *)

Lemma findPlayerKey_Some (playerId : string) (l : list (string * ClubPlayer))
    (playerKey : string) :
  findPlayerKey playerId l = Some playerKey ->
  exists playerData playfabId,
    (playerKey, playerData) ∈ l
    /\ cp_playfabId playerData = Some playfabId
    /\ normalizeId playfabId = playerId.
Proof.
  induction l as [| [k d] l IH]; cbn; [discriminate |].
  destruct (cp_playfabId d) as [raw |] eqn:Hraw.
  - destruct (String.eqb_spec (normalizeId raw) playerId) as [Heq | _].
    + intros [= <-]. exists d, raw. split; [apply list_elem_of_here | auto].
    + intros H. destruct (IH H) as (d' & raw' & Hin & H1 & H2).
      exists d', raw'. split; [apply list_elem_of_further, Hin | auto].
  - intros H. destruct (IH H) as (d' & raw' & Hin & H1 & H2).
    exists d', raw'. split; [apply list_elem_of_further, Hin | auto].
Qed.

Lemma findPlayerKey_None (playerId : string) (l : list (string * ClubPlayer)) :
  findPlayerKey playerId l = None ->
  forall playerKey playerData playfabId,
    (playerKey, playerData) ∈ l ->
    cp_playfabId playerData = Some playfabId ->
    normalizeId playfabId <> playerId.
Proof.
  induction l as [| [k d] l IH]; cbn; intros Hnone key pd raw Hin Hraw.
  - inversion Hin.
  - apply elem_of_cons in Hin as [[= <- <-] | Hin].
    + rewrite Hraw in Hnone.
      destruct (String.eqb_spec (normalizeId raw) playerId); [discriminate | assumption].
    + destruct (cp_playfabId d) as [raw0 |].
      * destruct (String.eqb (normalizeId raw0) playerId); [discriminate |].
        eapply IH; eassumption.
      * eapply IH; eassumption.
Qed.

(** X10: [findPlayerLocation] returns the place of a player of the store
    whose PlayFab id, in upper case and without whitespace, is the id
    searched; it returns nothing exactly when the store has no such
    player. *)
Theorem findPlayerLocation_finds (db : Db) (playerId : string) :
  (forall clubId playerKey,
     findPlayerLocation playerId db = Some (clubId, playerKey) ->
     storedPlayer db playerId clubId playerKey)
  /\ (findPlayerLocation playerId db = None
      <-> ~ exists clubId playerKey, storedPlayer db playerId clubId playerKey).
Proof.
  unfold findPlayerLocation, storedPlayer. generalize (clubs db). intros l.
  induction l as [| [clubId0 clubData0] l [IHsome IHnone]]; cbn.
  - split; [discriminate |]. split; [| reflexivity].
    intros _ (c & k & cd & pd & raw & Hin & _). inversion Hin.
  - destruct (findPlayerKey playerId (club_players clubData0)) as [key0 |] eqn:Hkey.
    + split.
      * intros clubId key [= <- <-].
        destruct (findPlayerKey_Some _ _ _ Hkey) as (pd & raw & Hin & H1 & H2).
        exists clubData0, pd, raw. split; [apply list_elem_of_here | auto].
      * split; [discriminate |]. intros Hno. exfalso. apply Hno.
        destruct (findPlayerKey_Some _ _ _ Hkey) as (pd & raw & Hin & H1 & H2).
        exists clubId0, key0, clubData0, pd, raw.
        split; [apply list_elem_of_here | auto].
    + split.
      * intros clubId key Hfind.
        destruct (IHsome clubId key Hfind) as (cd & pd & raw & Hin & H).
        exists cd, pd, raw. split; [apply list_elem_of_further, Hin | exact H].
      * rewrite IHnone. split.
        -- intros Hno (c & k & cd & pd & raw & Hin & Hp & Hraw & Hnorm).
           apply elem_of_cons in Hin as [[= -> ->] | Hin].
           ++ exact (findPlayerKey_None _ _ Hkey _ _ _ Hp Hraw Hnorm).
           ++ apply Hno. exists c, k, cd, pd, raw. auto.
        -- intros Hno (c & k & cd & pd & raw & Hin & H). apply Hno.
           exists c, k, cd, pd, raw. split; [apply list_elem_of_further, Hin | exact H].
Qed.

Lemma findPlayerLocation_finds_witness :
  storedPlayer Sample.db "A2" "clubA" "k2".
Proof.
  apply (proj1 (findPlayerLocation_finds Sample.db "A2")).
  vm_compute. reflexivity.
Defined.

(** X11: A competitor that the roster cache knows is found by
    [findPlayerLocation]: the updates of the entries inside a club never
    meet a cached player that is missing from the clubs. *)
Theorem cached_player_is_found (db : Db) (playerId : string) (info : PlayerInfo) :
  fetchClubsAndPlayers db !! playerId = Some info ->
  exists clubId playerKey,
    findPlayerLocation playerId db = Some (clubId, playerKey)
    /\ storedPlayer db playerId clubId playerKey.
Proof.
  intros Hinfo.
  destruct (proj1 (proj1 (fetchClubsAndPlayers_entries_of db playerId) info Hinfo))
    as (clubId & clubData & playerKey & playerData & playfabId
        & Hclub & Hplayer & Hid & _ & Hnorm & _).
  destruct (findPlayerLocation playerId db) as [[c k] |] eqn:Hfind.
  - exists c, k. split; [reflexivity |].
    apply (proj1 (findPlayerLocation_finds db playerId)), Hfind.
  - exfalso. apply (proj2 (findPlayerLocation_finds db playerId)) in Hfind.
    apply Hfind. exists clubId, playerKey, clubData, playerData, playfabId. auto.
Qed.

Lemma cached_player_is_found_witness :
  exists clubId playerKey,
    findPlayerLocation "A2" Sample.db = Some (clubId, playerKey)
    /\ storedPlayer Sample.db "A2" clubId playerKey.
Proof.
  apply (cached_player_is_found Sample.db "A2"
           (mkPlayerInfo "Bob" "Club A" (Some "clubA") (Some "k2"))).
  vm_compute. reflexivity.
Defined.

(** ** The writes of a club award *)

Section ClubWrites.
Variable currentSeason : Z.

(** X12: [updateClubPoints] for a name that no club has writes nothing. For
    the club found, it stores as lifetime total and as season total the
    sum, in doubles, of the total read and the points, and copies the
    new lifetime total to the summary of the club; it leaves the
    counters, the players and the name of the club, all other clubs and
    summaries, the individual results and the markers as they were. *)
Theorem updateClubPoints_writes (clubName : string) (points : float) (db : Db) :
  let db' := updateClubPoints currentSeason clubName points db in
  (findClubByName clubName (clubs db) = None -> db' = db)
  /\ (forall clubId,
        NoDup (map fst (clubs db)) ->
        findClubByName clubName (clubs db) = Some clubId ->
        storedClubPoints db' clubId
        = Some (clubLifetimePoints db clubId + points)%float
        /\ storedClubSeasonPoints currentSeason db' clubId
           = Some (clubSeasonPoints currentSeason db clubId + points)%float
        /\ clubs_summary db' !! clubId
           = Some (clubLifetimePoints db clubId + points)%float)
  /\ (forall other,
        findClubByName clubName (clubs db) <> Some other ->
        lookupEntry other (clubs db') = lookupEntry other (clubs db)
        /\ clubs_summary db' !! other = clubs_summary db !! other)
  /\ (forall clubId,
        club_tiers <$> lookupEntry clubId (clubs db')
        = club_tiers <$> lookupEntry clubId (clubs db)
        /\ club_players <$> lookupEntry clubId (clubs db')
           = club_players <$> lookupEntry clubId (clubs db)
        /\ (forall tier f,
              clubSeasonCounter currentSeason db' clubId tier f
              = clubSeasonCounter currentSeason db clubId tier f))
  /\ directory db' = directory db
  /\ players db' = players db
  /\ fetchedTournaments db' = fetchedTournaments db.
Proof.
  cbv zeta. unfold updateClubPoints.
  destruct (findClubByName clubName (clubs db)) as [found |] eqn:Hfind.
  2: { repeat split; try reflexivity; discriminate. }
  destruct (lookupEntry found (clubs db)) as [c |] eqn:Hlook.
  2: { split; [discriminate |]. split.
       - intros clubId Hnodup [= <-].
         destruct (findClubByName_lookup clubName found (clubs db) Hnodup Hfind)
           as (c & Hc & _). congruence.
       - repeat split; reflexivity. }
  split; [discriminate |].
  unfold storedClubPoints, storedClubSeasonPoints, clubLifetimePoints,
    clubSeasonPoints, clubSeasonCounter, directory.
  cbn [clubs withClubs withSummary clubs_summary players fetchedTournaments].
  split; [| split; [| split; [| split; [| split; reflexivity]]]].
  - intros clubId _ [= <-].
    rewrite !lookupEntry_alterEntry, String.eqb_refl, Hlook.
    cbn [fmap option_fmap option_map mbind option_bind club_totalPoints club_seasons].
    unfold setSeasonPoints at 1. rewrite !lookup_insert_eq.
    cbn [mbind option_bind season_totalPoints]. auto.
  - intros other Hother. rewrite lookupEntry_alterEntry.
    destruct (String.eqb_spec found other) as [-> | Hne]; [congruence |].
    split; [reflexivity |]. apply lookup_insert_ne. exact Hne.
  - intros clubId. rewrite !lookupEntry_alterEntry.
    destruct (String.eqb_spec found clubId) as [<- | _]; [| auto].
    rewrite Hlook. cbn [fmap option_fmap option_map club_tiers club_players club_seasons].
    repeat split. intros tier f. rewrite seasonOf_setSeasonPoints. reflexivity.
  - apply alterEntry_map. reflexivity.
Qed.

(** X13: [updateClubTournamentStats] changes one counter at most, lifetime
    and season: the counter of the placement, in the tier of the
    tournament, of the club found by name, which grows by one. Every
    other counter of every club keeps its value, and so do the totals,
    the summaries, the names and keys of the clubs, the individual
    results and the markers. *)
Theorem updateClubTournamentStats_one_counter (clubName : string) (name : option string)
    (placement : option Z) (db : Db) :
  let tier := getTierFromName name in
  let db' := updateClubTournamentStats currentSeason clubName tier placement db in
  (forall clubId tier' f',
     (clubResultCounter db clubName tier placement clubId tier' f' ->
      clubCounter db' clubId tier' f' = clubCounter db clubId tier' f' + 1
      /\ clubSeasonCounter currentSeason db' clubId tier' f'
         = clubSeasonCounter currentSeason db clubId tier' f' + 1)
     /\ (~ clubResultCounter db clubName tier placement clubId tier' f' ->
         clubCounter db' clubId tier' f' = clubCounter db clubId tier' f'
         /\ clubSeasonCounter currentSeason db' clubId tier' f'
            = clubSeasonCounter currentSeason db clubId tier' f'))
  /\ (forall clubId,
        clubLifetimePoints db' clubId = clubLifetimePoints db clubId
        /\ clubSeasonPoints currentSeason db' clubId
           = clubSeasonPoints currentSeason db clubId
        /\ club_players <$> lookupEntry clubId (clubs db')
           = club_players <$> lookupEntry clubId (clubs db))
  /\ directory db' = directory db
  /\ clubs_summary db' = clubs_summary db
  /\ players db' = players db
  /\ fetchedTournaments db' = fetchedTournaments db.
Proof.
  cbv zeta. generalize (getTierFromName name). intros tier.
  split; [| split; [| split; [apply directory_updateClubTournamentStats |]]].
  - intros clubId tier' f'.
    assert (Hstep :
      clubCounter (updateClubTournamentStats currentSeason clubName tier placement db)
        clubId tier' f'
      = clubCounter db clubId tier' f'
        + (if String.eqb tier "Unknown" then 0
           else match findClubByName clubName (clubs db) with
                | Some found => if String.eqb found clubId
                                then match lookupEntry clubId (clubs db) with
                                     | Some _ => counterStep tier placement tier' f'
                                     | None => 0
                                     end
                                else 0
                | None => 0
                end)
      /\ clubSeasonCounter currentSeason
           (updateClubTournamentStats currentSeason clubName tier placement db)
           clubId tier' f'
         = clubSeasonCounter currentSeason db clubId tier' f'
           + (if String.eqb tier "Unknown" then 0
              else match findClubByName clubName (clubs db) with
                   | Some found => if String.eqb found clubId
                                   then match lookupEntry clubId (clubs db) with
                                        | Some _ => counterStep tier placement tier' f'
                                        | None => 0
                                        end
                                   else 0
                   | None => 0
                   end)).
    { unfold updateClubTournamentStats, clubCounter, clubSeasonCounter.
      destruct (String.eqb tier "Unknown"); [rewrite !Z.add_0_r; auto |].
      destruct (findClubByName clubName (clubs db)) as [found |];
        [| rewrite !Z.add_0_r; auto].
      cbn [clubs withClubs]. rewrite lookupEntry_alterEntry.
      destruct (String.eqb_spec found clubId) as [-> | _]; [| rewrite !Z.add_0_r; auto].
      destruct (lookupEntry clubId (clubs db)) as [c |]; cbn [fmap option_fmap option_map];
        [| auto].
      pose proof (bumpTiers_counters currentSeason tier placement (club_tiers c) (club_seasons c)
                    tier' f') as Hb.
      cbv zeta in Hb. destruct (bumpTiers _ _ _ _ _) as [tiers' seasons'].
      cbn [fst snd] in Hb. cbn [club_tiers club_seasons]. tauto. }
    destruct Hstep as [Hlife Hseason]. rewrite Hlife, Hseason. split.
    + intros (Hfind & Htier' & Htier & Hf). rewrite Hfind, String.eqb_refl.
      destruct (String.eqb_spec tier "Unknown") as [-> | _]; [congruence |].
      (* the club found is stored, or both counters read 0 *)
      destruct (lookupEntry clubId (clubs db)) as [c |] eqn:Hlook.
      * rewrite (counterStep_one _ _ _ _ Htier' Hf). auto.
      * exfalso. clear - Hfind Hlook. revert Hfind Hlook. generalize (clubs db).
        intros l. induction l as [| [k c] l IH]; cbn; [discriminate |].
        destruct (club_name c) as [n |].
        -- destruct (String.eqb n clubName).
           ++ intros [= ->]. rewrite String.eqb_refl. discriminate.
           ++ destruct (String.eqb k clubId); [discriminate | exact IH].
        -- destruct (String.eqb k clubId); [discriminate | exact IH].
    + intros Hno.
      destruct (String.eqb_spec tier "Unknown") as [-> | Htier];
        [rewrite !Z.add_0_r; auto |].
      destruct (findClubByName clubName (clubs db)) as [found |] eqn:Hfind;
        [| rewrite !Z.add_0_r; auto].
      destruct (String.eqb_spec found clubId) as [-> | _]; [| rewrite !Z.add_0_r; auto].
      destruct (lookupEntry clubId (clubs db)); [| rewrite !Z.add_0_r; auto].
      rewrite counterStep_zero; [rewrite !Z.add_0_r; auto |].
      intros [Htier' Hf]. apply Hno. unfold clubResultCounter. auto.
  - intros clubId. unfold updateClubTournamentStats, clubLifetimePoints, clubSeasonPoints.
    destruct (String.eqb tier "Unknown"); [auto |].
    destruct (findClubByName clubName (clubs db)) as [found |]; [| auto].
    cbn [clubs withClubs]. rewrite lookupEntry_alterEntry.
    destruct (String.eqb_spec found clubId) as [-> | _]; [| auto].
    destruct (lookupEntry clubId (clubs db)) as [c |]; cbn [fmap option_fmap option_map];
      [| auto].
    pose proof (bumpTiers_counters currentSeason tier placement (club_tiers c) (club_seasons c)
                  tier First) as Hb.
    cbv zeta in Hb. destruct (bumpTiers _ _ _ _ _) as [tiers' seasons'].
    cbn [fst snd] in Hb. destruct Hb as (_ & _ & Hpoints & _).
    cbn [club_totalPoints club_seasons club_players]. unfold seasonPoints.
    rewrite Hpoints. auto.
  - unfold updateClubTournamentStats.
    destruct (String.eqb tier "Unknown"); [auto |].
    destruct (findClubByName clubName (clubs db)); auto.
Qed.

End ClubWrites.

Lemma updateClubPoints_writes_witness :
  storedClubPoints (updateClubPoints 3 "Club A" 1.6%float Sample.db) "clubA"
  = Some (clubLifetimePoints Sample.db "clubA" + 1.6)%float
  /\ storedClubSeasonPoints 3 (updateClubPoints 3 "Club A" 1.6%float Sample.db) "clubA"
     = Some (clubSeasonPoints 3 Sample.db "clubA" + 1.6)%float
  /\ clubs_summary (updateClubPoints 3 "Club A" 1.6%float Sample.db) !! "clubA"
     = Some (clubLifetimePoints Sample.db "clubA" + 1.6)%float.
Proof.
  apply (proj1 (proj2 (updateClubPoints_writes 3 "Club A" 1.6%float Sample.db)) "clubA").
  - apply (bool_decide_unpack _); vm_compute; exact I.
  - vm_compute. reflexivity.
Defined.

Lemma updateClubTournamentStats_one_counter_witness :
  clubCounter
    (updateClubTournamentStats 3 "Club A" (getTierFromName (Some "EU Silver Cup 1"))
       (Some 2) Sample.db) "clubA" "silverEu1" Second
  = clubCounter Sample.db "clubA" "silverEu1" Second + 1
  /\ clubSeasonCounter 3
       (updateClubTournamentStats 3 "Club A" (getTierFromName (Some "EU Silver Cup 1"))
          (Some 2) Sample.db) "clubA" "silverEu1" Second
     = clubSeasonCounter 3 Sample.db "clubA" "silverEu1" Second + 1.
Proof.
  apply (proj1 (proj1 (updateClubTournamentStats_one_counter 3 "Club A"
                         (Some "EU Silver Cup 1") (Some 2) Sample.db)
                 "clubA" "silverEu1" Second)).
  vm_compute. repeat split. discriminate.
Defined.

(** ** The node of a competitor *)

(** X14: An individual result for a tracked tier leaves a node for the
    competitor that keeps the name and the trophy count it had (none,
    for a new node), carries a registration flag (a missing one reads as
    false), and keeps every other season; no counter other than the one
    of the result changes, and nothing is written outside [players]. *)
Theorem updateIndividualPlayerResult_keeps_identity (currentSeason : Z)
    (playerId : string) (name : option string) (placement : option Z) (points : float)
    (db : Db) :
  let tier := getTierFromName name in
  let db' :=
    updateIndividualPlayerResult currentSeason playerId tier placement points db in
  let old := players db !! playerId in
  tier <> "Unknown" ->
  exists r',
    players db' !! playerId = Some r'
    /\ pr_name r' = old ≫= pr_name
    /\ pr_trophyCount r' = old ≫= pr_trophyCount
    /\ pr_isRegistered r' = Some (default false (old ≫= pr_isRegistered))
    /\ (forall s, s <> currentSeason ->
          pr_seasons r' !! s = old ≫= (fun r => pr_seasons r !! s))
    /\ (forall tier' f',
          ~ (tier' = tier /\ getStatFieldForPlacement placement = Some f') ->
          individualCounter db' playerId tier' f' = individualCounter db playerId tier' f'
          /\ individualSeasonCounter currentSeason db' playerId tier' f'
             = individualSeasonCounter currentSeason db playerId tier' f')
    /\ clubs db' = clubs db
    /\ clubs_summary db' = clubs_summary db
    /\ fetchedTournaments db' = fetchedTournaments db.
Proof.
  cbv zeta. generalize (getTierFromName name). intros tier Htier.
  unfold updateIndividualPlayerResult.
  destruct (String.eqb_spec tier "Unknown") as [-> | _]; [congruence |].
  unfold individualCounter, individualSeasonCounter.
  match goal with
  | |- context [bumpTiers currentSeason tier placement ?ts ?ss] =>
      pose proof (fun tier' f' =>
                    bumpTiers_counters currentSeason tier placement ts ss tier' f')
        as Hbump;
      cbv zeta in Hbump;
      destruct (bumpTiers currentSeason tier placement ts ss) as [tiers3 seasons3]
  end.
  cbn [fst snd] in Hbump.
  cbn [players withPlayers clubs clubs_summary fetchedTournaments].
  rewrite lookup_insert_eq. eexists. split; [reflexivity |].
  cbn [pr_name pr_trophyCount pr_isRegistered pr_seasons pr_tiers].
  destruct (players db !! playerId) as [r |] eqn:Hr; cbn [mbind option_bind].
  - (* the node exists; [node1] differs from it in the flag at most *)
    assert (Hflag : negb (optionBoolEq (pr_isRegistered r)
                            (Some (default false (pr_isRegistered r)))) = true ->
                    pr_isRegistered r = None).
    { destruct (pr_isRegistered r) as [[] |]; cbn; congruence. }
    destruct (negb (optionBoolEq (pr_isRegistered r)
                      (Some (default false (pr_isRegistered r))))) eqn:Echanged.
    + rewrite (Hflag eq_refl) in *. cbn [default andb] in *.
      cbn [pr_name pr_trophyCount pr_isRegistered pr_seasons pr_tiers] in *.
      repeat split.
      * intros s Hs. unfold setSeasonPoints. rewrite lookup_insert_ne by congruence.
        destruct (Hbump tier First) as (_ & _ & _ & Hother). rewrite (Hother s Hs).
        destruct (pr_seasons r !! currentSeason); [reflexivity |].
        apply lookup_insert_ne. congruence.
      * destruct (Hbump tier' f') as (Hc & _). rewrite Hc.
        rewrite counterStep_zero by assumption. lia.
      * rewrite seasonOf_setSeasonPoints. cbn [season_tiers].
        destruct (Hbump tier' f') as (_ & Hsc & _). rewrite Hsc.
        rewrite counterStep_zero by assumption. rewrite Z.add_0_r.
        unfold seasonOf. destruct (pr_seasons r !! currentSeason) as [sd |] eqn:Hsd.
        -- rewrite Hsd. reflexivity.
        -- rewrite lookup_insert_eq. reflexivity.
    + assert (Hsome : pr_isRegistered r = Some (default false (pr_isRegistered r))).
      { destruct (pr_isRegistered r) as [[] |]; cbn in *; congruence. }
      repeat split.
      * exact Hsome.
      * intros s Hs. unfold setSeasonPoints. rewrite lookup_insert_ne by congruence.
        destruct (Hbump tier First) as (_ & _ & _ & Hother). rewrite (Hother s Hs).
        destruct (pr_seasons r !! currentSeason); [reflexivity |].
        apply lookup_insert_ne. congruence.
      * destruct (Hbump tier' f') as (Hc & _). rewrite Hc.
        rewrite counterStep_zero by assumption. lia.
      * rewrite seasonOf_setSeasonPoints. cbn [season_tiers].
        destruct (Hbump tier' f') as (_ & Hsc & _). rewrite Hsc.
        rewrite counterStep_zero by assumption. rewrite Z.add_0_r.
        unfold seasonOf. destruct (pr_seasons r !! currentSeason) as [sd |] eqn:Hsd.
        -- rewrite Hsd. reflexivity.
        -- rewrite lookup_insert_eq. reflexivity.
  - (* the node is created *)
    cbn [pr_name pr_trophyCount pr_isRegistered pr_seasons pr_tiers default] in *.
    rewrite lookup_empty in Hbump.
    repeat split.
    + intros s Hs. unfold setSeasonPoints. rewrite lookup_insert_ne by congruence.
      destruct (Hbump tier First) as (_ & _ & _ & Hother). rewrite (Hother s Hs).
      rewrite lookup_insert_ne by congruence. apply lookup_empty.
    + destruct (Hbump tier' f') as (Hc & _). rewrite Hc.
      rewrite counterStep_zero by assumption. unfold currentValue.
      rewrite lookup_empty. reflexivity.
    + rewrite seasonOf_setSeasonPoints. cbn [season_tiers].
      destruct (Hbump tier' f') as (_ & Hsc & _). rewrite Hsc.
      rewrite counterStep_zero by assumption. unfold seasonOf.
      rewrite lookup_insert_eq. cbn. unfold currentValue. rewrite lookup_empty.
      reflexivity.
Qed.

Lemma updateIndividualPlayerResult_keeps_identity_witness :
  exists r',
    players (updateIndividualPlayerResult 3 "X1" (getTierFromName (Some "Gold Cup"))
               (Some 1) 6%float SampleStore.registered) !! "X1" = Some r'
    /\ pr_name r' = Some "Xena"
    /\ pr_trophyCount r' = Some 40
    /\ pr_isRegistered r' = Some true.
Proof.
  destruct (updateIndividualPlayerResult_keeps_identity 3 "X1" (Some "Gold Cup")
              (Some 1) 6%float SampleStore.registered ltac:(vm_compute; discriminate))
    as (r' & H1 & H2 & H3 & H4 & _).
  exists r'. split; [exact H1 |].
  split; [rewrite H2; vm_compute; reflexivity |].
  split; [rewrite H3; vm_compute; reflexivity |].
  rewrite H4. vm_compute. reflexivity.
Defined.

(** ** The batch of tournaments *)

Section Batch.
Variable currentSeason : Z.
Variable feed : string -> option (list Row).

Lemma failing_abrupt (t : Tournament) (tier : string) (db : Db) :
  failing feed t = true ->
  exists e, fetchAndProcessTournamentData currentSeason feed (tournamentId t) tier db
            = Abrupt e db.
Proof.
  unfold failing, fetchAndProcessTournamentData, processTournamentResults.
  destruct (feed (tournamentId t)) as [rows |]; [| eauto].
  intros Hthrow.
  pose proof (groupRows_throws (fetchClubsAndPlayers db) rows JsObject.empty
                (fun k _ => eq_refl)) as H.
  rewrite Hthrow in H. unfold groupPlayersByTeam. rewrite H. eauto.
Qed.

Lemma not_failing_normal (t : Tournament) (tier : string) (db : Db) :
  failing feed t = false ->
  exists db1, fetchAndProcessTournamentData currentSeason feed (tournamentId t) tier db
              = Normal db1.
Proof.
  unfold failing, fetchAndProcessTournamentData, processTournamentResults.
  destruct (feed (tournamentId t)) as [rows |]; [| discriminate].
  intros Hthrow.
  pose proof (groupRows_throws (fetchClubsAndPlayers db) rows JsObject.empty
                (fun k _ => eq_refl)) as H.
  rewrite Hthrow in H. destruct H as [teams H]. unfold groupPlayersByTeam. rewrite H.
  destruct (processTeams _ _ _ _ _ _ _) as [[rs a] db2]. eauto.
Qed.

(** X16: A tournament without a marker whose data cannot be fetched, or
    whose rows make grouping throw, ends the batch: the store stays as
    it was when its turn came, it gets no marker, and no later
    tournament of the batch is processed. *)
Theorem failure_ends_batch (before rest : list Tournament) (t : Tournament) (db : Db) :
  Forall (fun t' => failing feed t' = false) before ->
  failing feed t = true ->
  tournamentId t ∉ fetchedTournaments
                     (fetchAndProcessTournaments currentSeason feed before db) ->
  fetchAndProcessTournaments currentSeason feed (before ++ t :: rest) db
  = fetchAndProcessTournaments currentSeason feed before db.
Proof.
  intros Hbefore Hfail. revert db.
  induction Hbefore as [| t' before Ht' Hbefore IH]; intros db Hmark.
  - cbn [app fetchAndProcessTournaments] in *. unfold isTournamentAlreadyProcessed.
    rewrite bool_decide_eq_false_2 by exact Hmark. cbn [negb].
    destruct (failing_abrupt t (getTierFromName (tournamentName t)) db Hfail) as [e ->].
    reflexivity.
  - cbn [app fetchAndProcessTournaments] in *.
    destruct (negb (isTournamentAlreadyProcessed (tournamentId t') db));
      [| apply IH, Hmark].
    destruct (not_failing_normal t' (getTierFromName (tournamentName t')) db Ht')
      as [db1 Hdb1].
    rewrite Hdb1 in *. apply IH, Hmark.
Qed.

(** X17: A batch in which no tournament fails leaves a marker for every
    tournament of the batch and no other new marker; and running two
    such batches one after the other is running them as one. *)
Theorem batch_without_failure (first second : list Tournament) (db : Db) :
  Forall (fun t => failing feed t = false) first ->
  fetchedTournaments (fetchAndProcessTournaments currentSeason feed first db)
  = list_to_set (map tournamentId first) ∪ fetchedTournaments db
  /\ fetchAndProcessTournaments currentSeason feed (first ++ second) db
     = fetchAndProcessTournaments currentSeason feed second
         (fetchAndProcessTournaments currentSeason feed first db).
Proof.
  intros Hfirst. revert db.
  induction Hfirst as [| t first Ht Hfirst IH]; intros db.
  - cbn. split; [| reflexivity]. symmetry. apply union_empty_l_L.
  - cbn [app fetchAndProcessTournaments map list_to_set].
    unfold isTournamentAlreadyProcessed.
    destruct (decide (tournamentId t ∈ fetchedTournaments db)) as [Hin | Hout].
    + rewrite bool_decide_eq_true_2 by exact Hin. cbn [negb].
      destruct (IH db) as [Hmarks Happ]. split; [| exact Happ].
      rewrite Hmarks, <- (assoc_L (∪)). symmetry. apply subseteq_union_1_L.
      apply singleton_subseteq_l, elem_of_union_r, Hin.
    + rewrite bool_decide_eq_false_2 by exact Hout. cbn [negb].
      destruct (not_failing_normal t (getTierFromName (tournamentName t)) db Ht)
        as [db1 Hdb1].
      rewrite Hdb1.
      destruct (IH (markTournamentAsProcessed (tournamentId t) db1)) as [Hmarks Happ].
      split; [| exact Happ].
      rewrite Hmarks. cbn [fetchedTournaments markTournamentAsProcessed withFetched].
      rewrite (fetchAndProcessTournamentData_normal currentSeason feed _ _ _ _ Hdb1).
      rewrite (assoc_L (∪)).
      rewrite (comm_L (∪) (list_to_set (map tournamentId first)) {[tournamentId t]}).
      reflexivity.
Qed.

(** X18: The rows of a tournament with no row that grouping accepts (no
    rows at all, or rows without id, party or a placement from 1 to 4)
    change nothing: such a tournament only gets its marker. *)
Theorem tournament_without_accepted_rows (t : Tournament) (rows : list Row)
    (rest : list Tournament) (db : Db) :
  feed (tournamentId t) = Some rows ->
  acceptedRows rows = [] ->
  tournamentId t ∉ fetchedTournaments db ->
  fetchAndProcessTournaments currentSeason feed (t :: rest) db
  = fetchAndProcessTournaments currentSeason feed rest
      (markTournamentAsProcessed (tournamentId t) db).
Proof.
  intros Hfeed Hrows Hmark. cbn [fetchAndProcessTournaments].
  unfold isTournamentAlreadyProcessed. rewrite bool_decide_eq_false_2 by exact Hmark.
  cbn [negb]. unfold fetchAndProcessTournamentData, processTournamentResults.
  rewrite Hfeed.
  assert (Hgroup : forall teams,
            groupRows (fetchClubsAndPlayers db) rows teams = Returned teams).
  { clear Hfeed. induction rows as [| row rows IH]; intros teams; [reflexivity |].
    cbn [groupRows]. rewrite groupRow_accepted.
    unfold acceptedRows in Hrows. cbn [omap list_omap] in Hrows.
    destruct (acceptedRow row); [discriminate Hrows |]. apply IH, Hrows. }
  unfold groupPlayersByTeam. rewrite Hgroup. reflexivity.
Qed.

End Batch.

Lemma failure_ends_batch_witness :
  fetchAndProcessTournaments 3 SampleRows.poisonedFeed
    ([] ++ Sample.silverCup :: [Sample.friendly]) Sample.db
  = fetchAndProcessTournaments 3 SampleRows.poisonedFeed [] Sample.db.
Proof.
  apply (failure_ends_batch 3 SampleRows.poisonedFeed [] [Sample.friendly]
           Sample.silverCup Sample.db).
  - constructor.
  - vm_compute. reflexivity.
  - apply (bool_decide_unpack _). vm_compute. exact I.
Defined.

Lemma batch_without_failure_witness :
  fetchedTournaments (fetchAndProcessTournaments 3 Sample.feed [Sample.silverCup] Sample.db)
  = list_to_set (map tournamentId [Sample.silverCup]) ∪ fetchedTournaments Sample.db
  /\ fetchAndProcessTournaments 3 Sample.feed ([Sample.silverCup] ++ [Sample.friendly])
       Sample.db
     = fetchAndProcessTournaments 3 Sample.feed [Sample.friendly]
         (fetchAndProcessTournaments 3 Sample.feed [Sample.silverCup] Sample.db).
Proof.
  apply (batch_without_failure 3 Sample.feed [Sample.silverCup] [Sample.friendly]
           Sample.db).
  constructor; [vm_compute; reflexivity | constructor].
Defined.

Lemma tournament_without_accepted_rows_witness :
  fetchAndProcessTournaments 3 SampleStore.skippedFeed [Sample.silverCup] Sample.db
  = fetchAndProcessTournaments 3 SampleStore.skippedFeed []
      (markTournamentAsProcessed (tournamentId Sample.silverCup) Sample.db).
Proof.
  apply (tournament_without_accepted_rows 3 SampleStore.skippedFeed Sample.silverCup
           SampleStore.skipped [] Sample.db).
  - reflexivity.
  - vm_compute. reflexivity.
  - apply (bool_decide_unpack _). vm_compute. exact I.
Defined.

(** ** The entry of a member inside the club *)

Lemma findPlayerKey_alterEntry (playerId k : string) (f : ClubPlayer -> ClubPlayer)
    (l : list (string * ClubPlayer)) :
  (forall p, cp_playfabId (f p) = cp_playfabId p) ->
  findPlayerKey playerId (alterEntry k f l) = findPlayerKey playerId l.
Proof.
  intros Hf. induction l as [| [k0 p0] l IH]; [reflexivity |].
  cbn. destruct (String.eqb k0 k); cbn.
  - rewrite Hf. reflexivity.
  - rewrite IH. reflexivity.
Qed.

Lemma findPlayerLocation_alterClubPlayer (playerId clubId k : string)
    (f : ClubPlayer -> ClubPlayer) (db : Db) :
  (forall p, cp_playfabId (f p) = cp_playfabId p) ->
  findPlayerLocation playerId (alterClubPlayer clubId k f db)
  = findPlayerLocation playerId db.
Proof.
  intros Hf. unfold findPlayerLocation, alterClubPlayer. cbn [clubs withClubs].
  generalize (clubs db). intros l.
  induction l as [| [c0 club0] l IH]; [reflexivity |].
  cbn. destruct (String.eqb c0 clubId); cbn.
  - rewrite (findPlayerKey_alterEntry _ _ _ _ Hf). reflexivity.
  - rewrite IH. reflexivity.
Qed.

Lemma findPlayerKey_lookup (playerId playerKey : string) (l : list (string * ClubPlayer)) :
  NoDup (map fst l) ->
  findPlayerKey playerId l = Some playerKey ->
  exists p, lookupEntry playerKey l = Some p.
Proof.
  induction l as [| [k p] l IH]; cbn; [discriminate |].
  intros Hnodup. apply NoDup_cons in Hnodup as [Hk Hnodup].
  destruct (String.eqb k playerKey) eqn:E; [eauto |].
  destruct (cp_playfabId p) as [raw |].
  - destruct (String.eqb (normalizeId raw) playerId).
    + intros [= ->]. rewrite String.eqb_refl in E. discriminate E.
    + apply IH, Hnodup.
  - apply IH, Hnodup.
Qed.

Lemma findPlayerLocation_lookup (playerId clubId playerKey : string) (db : Db) :
  distinctKeys db ->
  findPlayerLocation playerId db = Some (clubId, playerKey) ->
  exists p, clubPlayerEntry db clubId playerKey = Some p.
Proof.
  unfold distinctKeys, findPlayerLocation, clubPlayerEntry. generalize (clubs db).
  intros l [Hclubs Hplayers].
  induction l as [| [c club] l IH]; cbn; [discriminate |].
  apply NoDup_cons in Hclubs as [Hc Hclubs].
  apply Forall_cons in Hplayers as [Hp Hplayers]. cbn [snd] in Hp.
  destruct (findPlayerKey playerId (club_players club)) as [k |] eqn:Hkey.
  - intros [= <- <-]. rewrite String.eqb_refl. cbn.
    apply (findPlayerKey_lookup playerId k _ Hp Hkey).
  - intros Hfind. destruct (IH Hclubs Hplayers Hfind) as [p Hentry].
    destruct (String.eqb_spec c clubId) as [-> | _]; [| eauto].
    exfalso. apply Hc.
    destruct (lookupEntry clubId l) as [club' |] eqn:Hlook; [| discriminate Hentry].
    eapply lookupEntry_key, Hlook.
Qed.

Lemma clubPlayerEntry_alterClubPlayer (clubId k clubId' k' : string)
    (f : ClubPlayer -> ClubPlayer) (db : Db) :
  clubPlayerEntry (alterClubPlayer clubId k f db) clubId' k'
  = if String.eqb clubId clubId' && String.eqb k k'
    then f <$> clubPlayerEntry db clubId' k'
    else clubPlayerEntry db clubId' k'.
Proof.
  unfold clubPlayerEntry, alterClubPlayer. cbn [clubs withClubs].
  rewrite lookupEntry_alterEntry.
  destruct (String.eqb clubId clubId'); cbn [andb]; [| reflexivity].
  destruct (lookupEntry clubId' (clubs db)) as [c |]; cbn;
    [| destruct (String.eqb k k'); reflexivity].
  rewrite lookupEntry_alterEntry. destruct (String.eqb k k'); reflexivity.
Qed.

Section MemberEntry.
Variable currentSeason : Z.

(** X15: The two writes that [processTeamResults] makes for a member of a
    club team, [updatePlayerPoints] and [updatePlayerTournamentStats]:
    when no player of the clubs has the id, nothing is written; else the
    entry of the player found stores as lifetime and season totals the
    sum, in doubles, of the total read and the points, gets one more in
    the counter of the placement for a tracked tier, and keeps its
    PlayFab id and name. No other entry of any club, no
    club-level total or counter, no individual result and no marker
    changes. *)
Theorem club_member_result (playerId : string) (name : option string)
    (placement : option Z) (points : float) (db : Db) :
  let tier := getTierFromName name in
  let db' :=
    updatePlayerTournamentStats currentSeason playerId tier placement
      (updatePlayerPoints currentSeason playerId points db) in
  (findPlayerLocation playerId db = None -> db' = db)
  /\ (forall clubId playerKey,
        distinctKeys db ->
        findPlayerLocation playerId db = Some (clubId, playerKey) ->
        exists p p',
          clubPlayerEntry db clubId playerKey = Some p
          /\ clubPlayerEntry db' clubId playerKey = Some p'
          /\ cp_playfabId p' = cp_playfabId p
          /\ cp_name p' = cp_name p
          /\ cp_totalPoints p' = Some (orZero (cp_totalPoints p) + points)%float
          /\ cp_seasons p' !! currentSeason ≫= season_totalPoints
             = Some (seasonPoints currentSeason (cp_seasons p) + points)%float
          /\ (forall f,
                tier <> "Unknown" -> getStatFieldForPlacement placement = Some f ->
                currentValue tier f (cp_tiers p') = currentValue tier f (cp_tiers p) + 1
                /\ currentValue tier f
                     (season_tiers (seasonOf currentSeason (cp_seasons p')))
                   = currentValue tier f
                       (season_tiers (seasonOf currentSeason (cp_seasons p))) + 1)
          /\ (forall tier' f',
                ~ (tier' = tier /\ tier <> "Unknown"
                   /\ getStatFieldForPlacement placement = Some f') ->
                currentValue tier' f' (cp_tiers p') = currentValue tier' f' (cp_tiers p)
                /\ currentValue tier' f'
                     (season_tiers (seasonOf currentSeason (cp_seasons p')))
                   = currentValue tier' f'
                       (season_tiers (seasonOf currentSeason (cp_seasons p)))))
  /\ (forall clubId playerKey,
        findPlayerLocation playerId db <> Some (clubId, playerKey) ->
        clubPlayerEntry db' clubId playerKey = clubPlayerEntry db clubId playerKey)
  /\ clubLevel db' = clubLevel db
  /\ players db' = players db
  /\ fetchedTournaments db' = fetchedTournaments db.
Proof.
  cbv zeta. generalize (getTierFromName name). intros tier.
  split; [| split; [| split; [| split; [| split]]]].
  - intros Hnone. unfold updatePlayerTournamentStats, updatePlayerPoints.
    rewrite Hnone. destruct (String.eqb tier "Unknown"); [reflexivity |].
    rewrite Hnone. reflexivity.
  - intros clubId playerKey Hkeys Hloc.
    destruct (findPlayerLocation_lookup _ _ _ _ Hkeys Hloc) as [p Hp].
    exists p. unfold updatePlayerTournamentStats, updatePlayerPoints. rewrite Hloc.
    destruct (String.eqb_spec tier "Unknown") as [-> | Htier].
    + rewrite clubPlayerEntry_alterClubPlayer, !String.eqb_refl, Hp.
      cbn [andb fmap option_fmap option_map]. eexists. split; [reflexivity |].
      split; [reflexivity |].
      cbn [cp_playfabId cp_name cp_totalPoints cp_seasons cp_tiers].
      rewrite seasonOf_setSeasonPoints. cbn [season_tiers].
      split; [reflexivity |]. split; [reflexivity |]. split; [reflexivity |].
      split; [unfold setSeasonPoints; rewrite lookup_insert_eq; reflexivity |].
      split; [congruence |]. intros tier' f' _. split; reflexivity.
    + rewrite findPlayerLocation_alterClubPlayer by reflexivity. rewrite Hloc.
      rewrite !clubPlayerEntry_alterClubPlayer, !String.eqb_refl, Hp.
      cbn [andb fmap option_fmap option_map].
      cbn [cp_playfabId cp_name cp_totalPoints cp_seasons cp_tiers].
      match goal with
      | |- context [bumpTiers currentSeason tier placement ?ts ?ss] =>
          pose proof (fun tier' f' =>
                        bumpTiers_counters currentSeason tier placement ts ss tier' f')
            as Hbump;
          pose proof (bumpTiers_stored_points currentSeason tier placement ts ss)
            as Hstored;
          cbv zeta in Hbump;
          destruct (bumpTiers currentSeason tier placement ts ss) as [tiers' seasons']
      end.
      cbn [fst snd] in Hbump, Hstored.
      eexists. split; [reflexivity |]. split; [reflexivity |].
      cbn [cp_playfabId cp_name cp_totalPoints cp_seasons cp_tiers].
      split; [reflexivity |]. split; [reflexivity |]. split; [reflexivity |].
      split; [| split].
      * rewrite Hstored, seasonOf_setSeasonPoints. reflexivity.
      * intros f _ Hf. destruct (Hbump tier f) as (Hc & Hsc & _).
        rewrite Hc, Hsc, seasonOf_setSeasonPoints. cbn [season_tiers].
        rewrite (counterStep_one _ _ _ _ eq_refl Hf). auto.
      * intros tier' f' Hno. destruct (Hbump tier' f') as (Hc & Hsc & _).
        rewrite Hc, Hsc, seasonOf_setSeasonPoints. cbn [season_tiers].
        rewrite counterStep_zero; [rewrite !Z.add_0_r; auto |].
        intros [Ht Hf]. apply Hno. auto.
  - intros clubId playerKey Hother.
    unfold updatePlayerTournamentStats, updatePlayerPoints.
    destruct (findPlayerLocation playerId db) as [[c k] |] eqn:Hloc.
    + assert (Hskip : String.eqb c clubId && String.eqb k playerKey = false).
      { destruct (String.eqb_spec c clubId) as [-> | _]; [| reflexivity].
        destruct (String.eqb_spec k playerKey) as [-> | _]; [congruence | reflexivity]. }
      destruct (String.eqb tier "Unknown").
      * rewrite clubPlayerEntry_alterClubPlayer, Hskip. reflexivity.
      * rewrite findPlayerLocation_alterClubPlayer by reflexivity. rewrite Hloc.
        rewrite !clubPlayerEntry_alterClubPlayer, Hskip. reflexivity.
    + destruct (String.eqb tier "Unknown"); [reflexivity |]. rewrite Hloc. reflexivity.
  - rewrite clubLevel_updatePlayerTournamentStats. apply clubLevel_updatePlayerPoints.
  - rewrite players_updatePlayerTournamentStats. apply players_updatePlayerPoints.
  - rewrite fetched_updatePlayerTournamentStats. apply fetched_updatePlayerPoints.
Qed.

End MemberEntry.

Lemma club_member_result_witness :
  exists p p',
    clubPlayerEntry Sample.db "clubA" "k2" = Some p
    /\ clubPlayerEntry
         (updatePlayerTournamentStats 3 "A2" (getTierFromName (Some "Gold Cup")) (Some 1)
            (updatePlayerPoints 3 "A2" 6%float Sample.db)) "clubA" "k2" = Some p'
    /\ cp_totalPoints p' = Some (orZero (cp_totalPoints p) + 6)%float.
Proof.
  destruct (proj1 (proj2 (club_member_result 3 "A2" (Some "Gold Cup") (Some 1) 6%float
                            Sample.db)) "clubA" "k2")
    as (p & p' & Hp & Hp' & _ & _ & Hpoints & _).
  - split.
    + apply (bool_decide_unpack _). vm_compute. exact I.
    + constructor; [| constructor]. apply (bool_decide_unpack _). vm_compute. exact I.
  - vm_compute. reflexivity.
  - exists p, p'. auto.
Defined.

(** * The PlayFab sync *)

(** ** The batches of the update loop *)

Lemma batchesFrom_concat {A : Type} (fuel : nat) (l : list A) (i : nat) :
  (length l - i <= fuel)%nat ->
  concat (batchesFrom fuel l i) = drop i l
  /\ Forall (fun batch => (1 <= length batch <= batchSize)%nat
                          /\ exists j, batch = slice j (j + batchSize) l)
       (batchesFrom fuel l i).
Proof.
  revert i. induction fuel as [| fuel IH]; intros i Hfuel; cbn [batchesFrom].
  - split; [| constructor]. cbn. symmetry. apply drop_ge. lia.
  - destruct (Nat.ltb_spec i (length l)) as [Hlt | Hge].
    + destruct (IH (i + batchSize)%nat) as [Hconcat Hsizes];
        [unfold batchSize; lia |].
      split.
      * cbn [concat]. rewrite Hconcat. unfold slice.
        replace (i + batchSize - i)%nat with batchSize by lia.
        rewrite <- (drop_drop l batchSize i). apply take_drop.
      * constructor; [| exact Hsizes]. split; [| eauto].
        unfold slice. replace (i + batchSize - i)%nat with batchSize by lia.
        rewrite length_take, length_drop. unfold batchSize. lia.
    + split; [| constructor]. cbn. symmetry. apply drop_ge. lia.
Qed.

Lemma batchesFrom_fuel {A : Type} (fuel fuel' : nat) (l : list A) (i : nat) :
  (length l - i <= fuel)%nat -> (length l - i <= fuel')%nat ->
  batchesFrom fuel l i = batchesFrom fuel' l i.
Proof.
  revert fuel' i. induction fuel as [| fuel IH]; intros [| fuel'] i H H'; cbn [batchesFrom];
    try reflexivity.
  - destruct (Nat.ltb_spec i (length l)); [lia | reflexivity].
  - destruct (Nat.ltb_spec i (length l)); [lia | reflexivity].
  - destruct (Nat.ltb_spec i (length l)); [| reflexivity].
    f_equal. apply IH; unfold batchSize; lia.
Qed.

(** X19: The loop that writes the queued updates cuts them into batches that
    are, one after the other, the queued updates: no update is left out
    or written twice. No batch is empty or has more than 100 updates,
    and every batch but the last has 100. The loop ends by its own test:
    more iterations allowed give the same batches. *)
Theorem batches_cover_updates {A : Type} (updateEntries : list A) :
  concat (batches updateEntries) = updateEntries
  /\ Forall (fun batch => (1 <= length batch <= 100)%nat) (batches updateEntries)
  /\ (forall n batch,
        batches updateEntries !! n = Some batch ->
        (S n < length (batches updateEntries))%nat ->
        length batch = 100%nat)
  /\ (forall fuel, (length updateEntries <= fuel)%nat ->
        batchesFrom fuel updateEntries 0 = batches updateEntries).
Proof.
  unfold batches.
  destruct (batchesFrom_concat (length updateEntries) updateEntries 0) as [Hconcat Hsizes];
    [lia |].
  split; [exact Hconcat |]. split; [| split].
  - eapply Forall_impl; [exact Hsizes |]. cbn. intros batch [H _]. exact H.
  - (* a batch that is not the last one is full *)
    assert (Hfull : forall fuel i n batch,
      batchesFrom fuel updateEntries i !! n = Some batch ->
      (S n < length (batchesFrom fuel updateEntries i))%nat ->
      length batch = 100%nat).
    { induction fuel as [| fuel IH]; intros i n batch; cbn [batchesFrom];
        [intros H; discriminate H |].
      destruct (Nat.ltb_spec i (length updateEntries)) as [Hlt | Hge];
        [| intros H; discriminate H].
      destruct n as [| n]; cbn.
      - intros [= <-] Hlen.
        destruct fuel as [| fuel]; cbn [batchesFrom length] in Hlen; [lia |].
        destruct (Nat.ltb_spec (i + batchSize) (length updateEntries)) as [Hnext | Hnext];
          [| cbn in Hlen; lia].
        unfold slice. replace (i + batchSize - i)%nat with batchSize by lia.
        rewrite length_take, length_drop. unfold batchSize in *. lia.
      - intros Hn Hlen. apply (IH (i + batchSize)%nat n batch Hn). lia. }
    apply Hfull.
  - intros fuel Hfuel. apply batchesFrom_fuel; lia.
Qed.

(** ** The [updates] object *)

Lemma samePath_pathOf (u v : Update) : samePath u v = true <-> pathOf u = pathOf v.
Proof.
  destruct u, v; cbn; split; try discriminate; try (intros H; discriminate H).
  - rewrite andb_true_iff, !String.eqb_eq. intros [-> ->]. reflexivity.
  - intros [= -> ->]. rewrite !String.eqb_refl. reflexivity.
  - rewrite String.eqb_eq. intros ->. reflexivity.
  - intros [= ->]. apply String.eqb_refl.
  - rewrite String.eqb_eq. intros ->. reflexivity.
  - intros [= ->]. apply String.eqb_refl.
  - rewrite String.eqb_eq. intros ->. reflexivity.
  - intros [= ->]. apply String.eqb_refl.
Qed.

Lemma samePath_false (u v : Update) : samePath u v = false <-> pathOf u <> pathOf v.
Proof.
  rewrite <- samePath_pathOf. destruct (samePath u v); split; congruence.
Qed.

(** A path that is not there is added at the end. *)
Lemma setUpdate_new (u : Update) (updates : list Update) :
  pathOf u ∉ map pathOf updates -> setUpdate u updates = updates ++ [u].
Proof.
  induction updates as [| v updates IH]; cbn; [reflexivity |].
  intros Hnew. apply not_elem_of_cons in Hnew as [Hne Hnew].
  destruct (samePath v u) eqn:E.
  - apply samePath_pathOf in E. congruence.
  - rewrite (IH Hnew). reflexivity.
Qed.

(** A path that is there keeps its place: the paths stay as they are. *)
Lemma setUpdate_paths (u : Update) (updates : list Update) :
  map pathOf (setUpdate u updates)
  = if existsb (fun v => samePath v u) updates
    then map pathOf updates
    else map pathOf updates ++ [pathOf u].
Proof.
  induction updates as [| v updates IH]; cbn; [reflexivity |].
  destruct (samePath v u) eqn:E; cbn.
  - apply samePath_pathOf in E. rewrite E. reflexivity.
  - rewrite IH. destruct (existsb (fun v0 => samePath v0 u) updates); reflexivity.
Qed.

Lemma existsb_samePath (u : Update) (updates : list Update) :
  existsb (fun v => samePath v u) updates = false -> pathOf u ∉ map pathOf updates.
Proof.
  induction updates as [| v updates IH]; cbn; [intros _ H; inversion H |].
  destruct (samePath v u) eqn:E; [discriminate |]. cbn. intros Hex.
  apply samePath_false in E. apply not_elem_of_cons. split; [congruence | auto].
Qed.

Lemma setUpdate_NoDup (u : Update) (updates : list Update) :
  NoDup (map pathOf updates) -> NoDup (map pathOf (setUpdate u updates)).
Proof.
  intros Hnodup. rewrite setUpdate_paths.
  destruct (existsb (fun v => samePath v u) updates) eqn:Hex; [exact Hnodup |].
  apply existsb_samePath in Hex.
  apply NoDup_app. split; [exact Hnodup |]. split.
  - intros p Hp Hin. apply list_elem_of_singleton in Hin as ->. auto.
  - apply NoDup_singleton.
Qed.

(** An object made from entries with distinct paths has those entries. *)
Lemma fromEntries_NoDup (batch : list Update) :
  NoDup (map pathOf batch) -> fromEntries batch = batch.
Proof.
  unfold fromEntries.
  assert (H : forall acc, NoDup (map pathOf (acc ++ batch)) ->
                fold_left (fun updates u => setUpdate u updates) batch acc = acc ++ batch).
  { induction batch as [| u batch IH]; intros acc Hnodup; cbn [fold_left].
    - rewrite app_nil_r. reflexivity.
    - rewrite setUpdate_new.
      + rewrite IH; rewrite <- app_assoc; [reflexivity | exact Hnodup].
      + rewrite map_app in Hnodup. apply NoDup_app in Hnodup as (_ & Hdisj & _).
        intros Hin. apply (Hdisj _ Hin). apply list_elem_of_here. }
  intros Hnodup. apply (H []). exact Hnodup.
Qed.

Section SyncWrites.
Variable currentSeason : Z.
Variable playfab : PlayFab.
Variable now : string -> string -> string.

Lemma queuePlayerUpdates_NoDup clubId updates entry :
  NoDup (map pathOf updates) ->
  NoDup (map pathOf (queuePlayerUpdates playfab now clubId updates entry)).
Proof.
  intros Hnodup. unfold queuePlayerUpdates. destruct entry as [playerKey playerData].
  destruct (sy_playfabId playerData) as [playfabId |]; [| exact Hnodup].
  destruct (negb (Str.truthy playfabId)); [exact Hnodup |].
  destruct (nameUpdate _ _ _) as [n |], (trophyCountUpdate _ _ _) as [v |];
    repeat apply setUpdate_NoDup; exact Hnodup.
Qed.

Lemma collectUpdates_NoDup clubs :
  NoDup (map pathOf (collectUpdates playfab now clubs)).
Proof.
  unfold collectUpdates.
  assert (H : forall acc, NoDup (map pathOf acc) ->
    NoDup (map pathOf
      (fold_left (fun updates (club : string * SyncedClub) =>
                    fold_left (queuePlayerUpdates playfab now (fst club))
                      (sy_players (snd club)) updates) clubs acc))).
  { induction clubs as [| [clubId clubData] clubs IH]; intros acc Hacc; cbn [fold_left];
      [exact Hacc |].
    apply IH. cbn [fst snd]. revert acc Hacc.
    induction (sy_players clubData) as [| entry players IHp]; intros acc Hacc;
      cbn [fold_left]; [exact Hacc |].
    apply IHp, queuePlayerUpdates_NoDup, Hacc. }
  apply H. constructor.
Qed.

(** Written batch by batch, the updates are written one by one, in the
    order in which they were queued. *)
Lemma update_in_batches (updates : list Update) (db : SyncStore) :
  NoDup (map pathOf updates) ->
  fold_left (fun db batch => update currentSeason (fromEntries batch) db)
    (batches updates) db
  = fold_left (applyUpdate currentSeason) updates db.
Proof.
  intros Hnodup.
  destruct (batchesFrom_concat (length updates) updates 0) as [Hconcat Hslices]; [lia |].
  fold (batches updates) in Hconcat, Hslices. cbn [drop] in Hconcat.
  assert (H : forall bs : list (list Update),
    Forall (fun batch => (1 <= length batch <= batchSize)%nat
                         /\ exists j, batch = slice j (j + batchSize) updates) bs ->
    forall db,
      fold_left (fun db batch => update currentSeason (fromEntries batch) db) bs db
      = fold_left (applyUpdate currentSeason) (concat bs) db).
  { induction 1 as [| batch bs (_ & j & Hbatch) _ IH]; intros db'; [reflexivity |].
    cbn [fold_left concat]. rewrite fold_left_app, IH.
    rewrite fromEntries_NoDup; [reflexivity |].
    rewrite Hbatch. unfold slice.
    eapply sublist_NoDup; [exact Hnodup |].
    rewrite <- firstn_map, <- skipn_map.
    etransitivity; [apply sublist_take | apply sublist_drop]. }
  rewrite (H _ Hslices), Hconcat. reflexivity.
Qed.

End SyncWrites.

(** ** The entries of the club players after the first part *)

Lemma putEntry_head_other {V : Type} (k k' : string) (v v' : V) (l : list (string * V)) :
  k <> k' -> putEntry k' v' ((k, v) :: l) = (k, v) :: putEntry k' v' l.
Proof. intros Hne. cbn. destruct (String.eqb_spec k k'); [congruence | reflexivity]. Qed.

Lemma putEntry_new {V : Type} (k : string) (v : V) (l : list (string * V)) :
  k ∉ map fst l -> putEntry k v l = l ++ [(k, v)].
Proof.
  induction l as [| [k' v'] l IH]; cbn; [reflexivity |].
  intros Hnew. apply not_elem_of_cons in Hnew as [Hne Hnew].
  destruct (String.eqb_spec k' k); [congruence |]. rewrite (IH Hnew). reflexivity.
Qed.

Lemma fold_putEntry_head {V : Type} (k : string) (v : V) (ups l : list (string * V)) :
  k ∉ map fst ups ->
  fold_left (fun ps (e : string * V) => putEntry (fst e) (snd e) ps) ups ((k, v) :: l)
  = (k, v) :: fold_left (fun ps (e : string * V) => putEntry (fst e) (snd e) ps) ups l.
Proof.
  revert l. induction ups as [| [k' v'] ups IH]; intros l Hnew; [reflexivity |].
  cbn [map fst] in Hnew. apply not_elem_of_cons in Hnew as [Hne Hnew].
  cbn [fold_left fst snd]. rewrite putEntry_head_other by exact Hne. apply IH, Hnew.
Qed.

Lemma lookupEntry_map_key {V W : Type} (g : string -> V -> W) (k : string)
    (l : list (string * V)) :
  lookupEntry k (map (fun e => (fst e, g (fst e) (snd e))) l) = g k <$> lookupEntry k l.
Proof.
  induction l as [| [k' v] l IH]; cbn; [reflexivity |].
  destruct (String.eqb_spec k' k) as [-> | _]; [reflexivity | exact IH].
Qed.

Section SyncedEntries.
Variable currentSeason : Z.
Variable playfab : PlayFab.
Variable now : string -> string -> string.

Lemma syncedPlayer_key clubId entry :
  fst (syncedPlayer playfab now clubId entry) = fst entry.
Proof.
  destruct entry as [k p]. unfold syncedPlayer.
  destruct (sy_playfabId p) as [id |]; [| reflexivity].
  destruct (Str.truthy id); [| reflexivity].
  destruct (nameUpdate _ _ _); try destruct (trophyCountUpdate _ _ _); reflexivity.
Qed.

Lemma queuedEntry_Some clubId entry e :
  queuedEntry playfab now clubId entry = Some e ->
  e = syncedPlayer playfab now clubId entry.
Proof.
  destruct entry as [k p]. unfold queuedEntry.
  destruct (sy_playfabId p) as [id |]; [| discriminate].
  destruct (Str.truthy id); [| discriminate].
  destruct (nameUpdate _ _ _); try destruct (trophyCountUpdate _ _ _); congruence.
Qed.

Lemma queuedEntry_None clubId entry :
  queuedEntry playfab now clubId entry = None ->
  syncedPlayer playfab now clubId entry = entry.
Proof.
  destruct entry as [k p]. unfold queuedEntry, syncedPlayer.
  destruct (sy_playfabId p) as [id |]; [| reflexivity].
  destruct (Str.truthy id); [| reflexivity].
  destruct (nameUpdate _ _ _); try destruct (trophyCountUpdate _ _ _);
    try discriminate; reflexivity.
Qed.

Lemma queuedEntry_keys clubId (players : list (string * SyncedPlayer)) (k : string) :
  k ∈ map fst (omap (queuedEntry playfab now clubId) players) -> k ∈ map fst players.
Proof.
  induction players as [| entry players IH]; cbn [omap list_omap map]; [auto |].
  destruct (queuedEntry playfab now clubId entry) as [e |] eqn:Hq.
  - cbn [map]. rewrite !elem_of_cons. intros [-> | Hin]; [| right; apply IH, Hin].
    left. rewrite (queuedEntry_Some _ _ _ Hq). apply syncedPlayer_key.
  - intros Hin. apply list_elem_of_further, IH, Hin.
Qed.

(** The queued entries, written to the players of their club. *)
Lemma fold_putEntry_queued clubId (players : list (string * SyncedPlayer)) :
  NoDup (map fst players) ->
  fold_left (fun ps (e : string * SyncedPlayer) => putEntry (fst e) (snd e) ps)
    (omap (queuedEntry playfab now clubId) players) players
  = map (syncedPlayer playfab now clubId) players.
Proof.
  induction players as [| [k p] players IH]; [reflexivity |].
  cbn [map fst]. intros Hnodup. apply NoDup_cons in Hnodup as [Hk Hnodup].
  cbn [omap list_omap map].
  assert (Hnew : k ∉ map fst (omap (queuedEntry playfab now clubId) players)).
  { intros Hin. apply Hk. eapply queuedEntry_keys, Hin. }
  destruct (queuedEntry playfab now clubId (k, p)) as [e |] eqn:Hq.
  - rewrite (queuedEntry_Some _ _ _ Hq).
    pose proof (syncedPlayer_key clubId (k, p)) as Hkey. cbn [fst] in Hkey.
    destruct (syncedPlayer playfab now clubId (k, p)) as [k' p']. cbn [fst] in Hkey.
    subst k'. cbn [fold_left fst snd putEntry]. rewrite String.eqb_refl.
    rewrite (fold_putEntry_head k p' _ _ Hnew), (IH Hnodup). reflexivity.
  - rewrite (queuedEntry_None _ _ Hq).
    rewrite (fold_putEntry_head k p _ _ Hnew), (IH Hnodup). reflexivity.
Qed.

(** The updates for one club, written to a list of clubs that starts
    with it. *)
Lemma fold_putClubPlayer_head clubId (clubData : SyncedClub)
    (ups : list (string * SyncedPlayer)) (rest : list (string * SyncedClub)) :
  fold_left putClubPlayer (map (fun e => (clubId, e)) ups) ((clubId, clubData) :: rest)
  = (clubId,
     mkSyncedClub (sy_clubName clubData)
       (fold_left (fun ps (e : string * SyncedPlayer) => putEntry (fst e) (snd e) ps)
          ups (sy_players clubData))
       (sy_totalTrophies clubData) (sy_seasonTotalTrophies clubData)) :: rest.
Proof.
  revert clubData. induction ups as [| [k p] ups IH]; intros clubData.
  - destruct clubData. reflexivity.
  - cbn [map fold_left]. unfold putClubPlayer at 2. cbn [fst snd lookupEntry alterEntry].
    rewrite String.eqb_refl. rewrite IH. reflexivity.
Qed.

(** Updates for other clubs pass the first club. *)
Lemma fold_putClubPlayer_other clubId (clubData : SyncedClub)
    (ups : list (string * (string * SyncedPlayer))) (rest : list (string * SyncedClub)) :
  clubId ∉ map fst ups ->
  fold_left putClubPlayer ups ((clubId, clubData) :: rest)
  = (clubId, clubData) :: fold_left putClubPlayer ups rest.
Proof.
  revert rest. induction ups as [| [c e] ups IH]; intros rest Hnew; [reflexivity |].
  cbn [map fst] in Hnew. apply not_elem_of_cons in Hnew as [Hne Hnew].
  cbn [fold_left]. rewrite <- (IH _ Hnew). f_equal.
  unfold putClubPlayer. cbn [fst snd lookupEntry alterEntry].
  destruct (String.eqb_spec clubId c) as [-> | _]; [congruence |].
  destruct (lookupEntry c rest); reflexivity.
Qed.

Lemma queuedEntries_clubs (clubs : list (string * SyncedClub)) (clubId : string) :
  clubId ∈ map fst (concat (map (queuedEntries playfab now) clubs)) ->
  clubId ∈ map fst clubs.
Proof.
  induction clubs as [| [c cd] clubs IH]; cbn [map concat]; [auto |].
  rewrite map_app, elem_of_app, elem_of_cons. intros [Hin | Hin]; [left | right; auto].
  unfold queuedEntries in Hin. cbn [fst snd] in Hin. rewrite map_map in Hin. cbn [fst] in Hin.
  apply list_elem_of_In, in_map_iff in Hin as (e & <- & _). reflexivity.
Qed.

(** The queued entries of all clubs, written to the clubs. *)
Lemma fold_putClubPlayer_queued (clubs : list (string * SyncedClub)) :
  NoDup (map fst clubs) ->
  Forall (fun e => NoDup (map fst (sy_players (snd e)))) clubs ->
  fold_left putClubPlayer (concat (map (queuedEntries playfab now) clubs)) clubs
  = map (clubWithSyncedPlayers playfab now) clubs.
Proof.
  induction clubs as [| [c cd] clubs IH]; [reflexivity |].
  cbn [map fst]. intros Hnodup Hplayers.
  apply NoDup_cons in Hnodup as [Hc Hnodup].
  apply Forall_cons in Hplayers as [Hp Hplayers]. cbn [snd] in Hp.
  cbn [concat map]. rewrite fold_left_app.
  unfold queuedEntries at 2. cbn [fst snd].
  rewrite fold_putClubPlayer_head, (fold_putEntry_queued c _ Hp).
  rewrite fold_putClubPlayer_other.
  - rewrite (IH Hnodup Hplayers). reflexivity.
  - intros Hin. apply Hc. apply queuedEntries_clubs, Hin.
Qed.

(** *** What is queued *)

Lemma clubPlayerUpdates_setUpdate_other (u : Update) (updates : list Update) :
  clubPlayerUpdate u = None ->
  clubPlayerUpdates (setUpdate u updates) = clubPlayerUpdates updates.
Proof.
  intros Hu. unfold clubPlayerUpdates.
  induction updates as [| v updates IH]; cbn [setUpdate omap list_omap].
  - rewrite Hu. reflexivity.
  - destruct (samePath v u) eqn:E.
    + cbn [omap list_omap]. rewrite Hu.
      destruct u, v; try discriminate E; try discriminate Hu; reflexivity.
    + cbn [omap list_omap]. rewrite IH. reflexivity.
Qed.

Lemma clubPlayerUpdates_setUpdate_new clubId playerKey (p : SyncedPlayer)
    (updates : list Update) :
  (forall p', (clubId, (playerKey, p')) ∉ clubPlayerUpdates updates) ->
  clubPlayerUpdates (setUpdate (SetClubPlayer clubId playerKey p) updates)
  = clubPlayerUpdates updates ++ [(clubId, (playerKey, p))].
Proof.
  unfold clubPlayerUpdates.
  induction updates as [| v updates IH]; intros Hnew; cbn [setUpdate omap list_omap];
    [reflexivity |].
  destruct (samePath v (SetClubPlayer clubId playerKey p)) eqn:E.
  - exfalso. destruct v as [c k p' | | |]; try discriminate E.
    cbn in E. apply andb_true_iff in E as [Hc Hk].
    apply String.eqb_eq in Hc as ->. apply String.eqb_eq in Hk as ->.
    apply (Hnew p'). cbn. apply list_elem_of_here.
  - cbn [omap list_omap]. destruct (clubPlayerUpdate v) as [x |] eqn:Hv.
    + cbn. rewrite IH; [reflexivity |].
      intros p' Hin. apply (Hnew p'). cbn [omap list_omap]. rewrite Hv.
      apply list_elem_of_further, Hin.
    + apply IH. intros p' Hin. apply (Hnew p'). cbn [omap list_omap]. rewrite Hv. exact Hin.
Qed.

Lemma queuePlayerUpdates_clubPlayerUpdates clubId (updates : list Update)
    (entry : string * SyncedPlayer) :
  (forall p', (clubId, (fst entry, p')) ∉ clubPlayerUpdates updates) ->
  clubPlayerUpdates (queuePlayerUpdates playfab now clubId updates entry)
  = clubPlayerUpdates updates
    ++ map (fun e => (clubId, e)) (option_list (queuedEntry playfab now clubId entry)).
Proof.
  destruct entry as [k p]. cbn [fst]. intros Hnew.
  unfold queuePlayerUpdates, queuedEntry, syncedPlayer.
  destruct (sy_playfabId p) as [id |]; [| cbn; rewrite app_nil_r; reflexivity].
  destruct (Str.truthy id); cbn [negb]; [| cbn; rewrite app_nil_r; reflexivity].
  destruct (nameUpdate _ _ _) as [n |]; destruct (trophyCountUpdate _ _ _) as [v |];
    rewrite ?clubPlayerUpdates_setUpdate_other by reflexivity;
    try (rewrite clubPlayerUpdates_setUpdate_new by exact Hnew; reflexivity).
  cbn. rewrite app_nil_r. reflexivity.
Qed.

Lemma collect_players_clubPlayerUpdates clubId (players : list (string * SyncedPlayer))
    (updates : list Update) :
  NoDup (map fst players) ->
  (forall k p', k ∈ map fst players -> (clubId, (k, p')) ∉ clubPlayerUpdates updates) ->
  clubPlayerUpdates (fold_left (queuePlayerUpdates playfab now clubId) players updates)
  = clubPlayerUpdates updates
    ++ map (fun e => (clubId, e)) (omap (queuedEntry playfab now clubId) players).
Proof.
  revert updates. induction players as [| [k p] players IH]; intros updates Hnodup Hnew.
  - cbn. rewrite app_nil_r. reflexivity.
  - cbn [map fst] in Hnodup, Hnew. apply NoDup_cons in Hnodup as [Hk Hnodup].
    cbn [fold_left]. rewrite IH; [| exact Hnodup |].
    + rewrite queuePlayerUpdates_clubPlayerUpdates.
      * rewrite <- app_assoc. f_equal. cbn [omap list_omap].
        destruct (queuedEntry playfab now clubId (k, p)); reflexivity.
      * intros p'. apply Hnew. apply list_elem_of_here.
    + intros k' p' Hk'. rewrite queuePlayerUpdates_clubPlayerUpdates.
      * rewrite elem_of_app. intros [Hin | Hin].
        -- revert Hin. apply Hnew. apply list_elem_of_further, Hk'.
        -- destruct (queuedEntry playfab now clubId (k, p)) as [e |] eqn:Hq;
             cbn in Hin; [| inversion Hin].
           apply list_elem_of_singleton in Hin. injection Hin as Hin.
           rewrite (queuedEntry_Some _ _ _ Hq) in Hin.
           pose proof (syncedPlayer_key clubId (k, p)) as Hkey.
           rewrite <- Hin in Hkey. cbn in Hkey. congruence.
      * intros p''. apply Hnew. apply list_elem_of_here.
Qed.

Lemma collectUpdates_clubPlayerUpdates (clubs : list (string * SyncedClub)) :
  NoDup (map fst clubs) ->
  Forall (fun e => NoDup (map fst (sy_players (snd e)))) clubs ->
  clubPlayerUpdates (collectUpdates playfab now clubs)
  = concat (map (queuedEntries playfab now) clubs).
Proof.
  unfold collectUpdates.
  assert (H : forall updates,
    NoDup (map fst clubs) ->
    Forall (fun e => NoDup (map fst (sy_players (snd e)))) clubs ->
    (forall c e, c ∈ map fst clubs -> (c, e) ∉ clubPlayerUpdates updates) ->
    clubPlayerUpdates
      (fold_left (fun updates (club : string * SyncedClub) =>
                    fold_left (queuePlayerUpdates playfab now (fst club))
                      (sy_players (snd club)) updates) clubs updates)
    = clubPlayerUpdates updates ++ concat (map (queuedEntries playfab now) clubs)).
  { induction clubs as [| [c cd] clubs IH]; intros updates Hnodup Hplayers Hnew.
    - cbn. rewrite app_nil_r. reflexivity.
    - cbn [map fst] in Hnodup, Hnew. apply NoDup_cons in Hnodup as [Hc Hnodup].
      apply Forall_cons in Hplayers as [Hp Hplayers]. cbn [snd] in Hp.
      cbn [fold_left fst snd map concat].
      assert (Hstep : clubPlayerUpdates
                (fold_left (queuePlayerUpdates playfab now c) (sy_players cd) updates)
              = clubPlayerUpdates updates ++ queuedEntries playfab now (c, cd)).
      { apply collect_players_clubPlayerUpdates; [exact Hp |].
        intros k p' _. apply Hnew. apply list_elem_of_here. }
      rewrite IH; [| exact Hnodup | exact Hplayers |].
      + rewrite Hstep, <- app_assoc. reflexivity.
      + intros c' e Hc'. rewrite Hstep, elem_of_app. intros [Hin | Hin].
        * revert Hin. apply Hnew. apply list_elem_of_further, Hc'.
        * unfold queuedEntries in Hin. cbn [fst snd] in Hin.
          apply list_elem_of_In, in_map_iff in Hin as (e' & [= <- _] & _).
          apply Hc, Hc'. }
  intros Hnodup Hplayers. rewrite (H [] Hnodup Hplayers); [reflexivity |].
  intros c e _ Hin. inversion Hin.
Qed.

(** *** The store after the writes *)

Lemma update_clubs (updates : list Update) (db : SyncStore) :
  sy_clubs (fold_left (applyUpdate currentSeason) updates db)
  = fold_left putClubPlayer (clubPlayerUpdates updates) (sy_clubs db)
  /\ sy_summaryTrophies (fold_left (applyUpdate currentSeason) updates db)
     = sy_summaryTrophies db.
Proof.
  revert db. induction updates as [| u updates IH]; intros db; [auto |].
  cbn [fold_left]. destruct (IH (applyUpdate currentSeason db u)) as [Hclubs Hsummary].
  rewrite Hclubs, Hsummary. unfold clubPlayerUpdates.
  destruct u; cbn [omap list_omap clubPlayerUpdate fold_left]; auto.
Qed.

(** After the first part of the sync the clubs are the clubs with the
    entry of every player brought up to date. *)
Lemma first_part_clubs (db : SyncStore) :
  syncKeysDistinct db ->
  let updates := collectUpdates playfab now (sy_clubs db) in
  let db1 :=
    fold_left (fun db batch => update currentSeason (fromEntries batch) db)
      (batches updates) db in
  sy_clubs db1 = map (clubWithSyncedPlayers playfab now) (sy_clubs db)
  /\ sy_summaryTrophies db1 = sy_summaryTrophies db.
Proof.
  intros [Hclubs Hplayers]. cbv zeta.
  rewrite update_in_batches by apply collectUpdates_NoDup.
  destruct (update_clubs (collectUpdates playfab now (sy_clubs db)) db) as [-> ->].
  split; [| reflexivity].
  rewrite (collectUpdates_clubPlayerUpdates _ Hclubs Hplayers).
  apply fold_putClubPlayer_queued; assumption.
Qed.

End SyncedEntries.

(** ** The trophy totals of the clubs *)

Section ClubTrophies.
Variable currentSeason : Z.

Lemma queuedTrophies_key (club : string * SyncedClub) (u : string * Z) :
  queuedTrophies currentSeason club = Some u ->
  u = (fst club, clubTotalTrophies (sy_players (snd club))).
Proof.
  unfold queuedTrophies. destruct (sy_players (snd club)); [discriminate |].
  destruct (trophiesDiffer currentSeason (snd club)); congruence.
Qed.

Lemma queuedTrophies_keys (clubs : list (string * SyncedClub)) (c : string) :
  c ∈ map fst (omap (queuedTrophies currentSeason) clubs) -> c ∈ map fst clubs.
Proof.
  induction clubs as [| club clubs IH]; cbn [omap list_omap map]; [auto |].
  destruct (queuedTrophies currentSeason club) as [u |] eqn:Hq.
  - cbn [map]. rewrite !elem_of_cons. intros [-> | Hin]; [| right; apply IH, Hin].
    left. rewrite (queuedTrophies_key _ _ Hq). reflexivity.
  - intros Hin. apply list_elem_of_further, IH, Hin.
Qed.

Lemma collectClubTrophyUpdates_queued (clubs : list (string * SyncedClub)) :
  NoDup (map fst clubs) ->
  collectClubTrophyUpdates currentSeason clubs = omap (queuedTrophies currentSeason) clubs.
Proof.
  unfold collectClubTrophyUpdates.
  assert (H : forall acc : list (string * Z),
    NoDup (map fst clubs) ->
    (forall c, c ∈ map fst clubs -> c ∉ map fst acc) ->
    fold_left (fun clubTrophyUpdates (club : string * SyncedClub) =>
                 let '(clubId, clubData) := club in
                 match sy_players clubData with
                 | [] => clubTrophyUpdates
                 | _ =>
                     if trophiesDiffer currentSeason clubData
                     then putEntry clubId (clubTotalTrophies (sy_players clubData))
                            clubTrophyUpdates
                     else clubTrophyUpdates
                 end) clubs acc
    = acc ++ omap (queuedTrophies currentSeason) clubs).
  { induction clubs as [| [c cd] clubs IH]; intros acc Hnodup Hnew.
    - cbn. rewrite app_nil_r. reflexivity.
    - cbn [map fst] in Hnodup, Hnew. apply NoDup_cons in Hnodup as [Hc Hnodup].
      cbn [fold_left omap list_omap]. unfold queuedTrophies at 1. cbn [fst snd].
      destruct (sy_players cd) as [| e ps] eqn:Hps.
      + apply IH; [exact Hnodup |]. intros c' Hc'. apply Hnew, list_elem_of_further, Hc'.
      + destruct (trophiesDiffer currentSeason cd).
        * rewrite putEntry_new by (apply Hnew, list_elem_of_here).
          rewrite IH; [rewrite <- app_assoc; reflexivity | exact Hnodup |].
          intros c' Hc'. rewrite map_app, elem_of_app. intros [Hin | Hin].
          -- revert Hin. apply Hnew, list_elem_of_further, Hc'.
          -- cbn in Hin. apply list_elem_of_singleton in Hin as ->. auto.
        * apply IH; [exact Hnodup |].
          intros c' Hc'. apply Hnew, list_elem_of_further, Hc'. }
  intros Hnodup. rewrite (H [] Hnodup); [reflexivity |].
  intros c _ Hin. inversion Hin.
Qed.

Lemma fold_putClubTrophies_other c (cd : SyncedClub) (ups : list (string * Z))
    (rest : list (string * SyncedClub)) :
  c ∉ map fst ups ->
  fold_left (putClubTrophies currentSeason) ups ((c, cd) :: rest)
  = (c, cd) :: fold_left (putClubTrophies currentSeason) ups rest.
Proof.
  revert rest. induction ups as [| [c' t] ups IH]; intros rest Hnew; [reflexivity |].
  cbn [map fst] in Hnew. apply not_elem_of_cons in Hnew as [Hne Hnew].
  cbn [fold_left]. rewrite <- (IH _ Hnew). f_equal.
  unfold putClubTrophies. cbn [fst snd lookupEntry alterEntry].
  destruct (String.eqb_spec c c') as [-> | _]; [congruence |].
  destruct (lookupEntry c' rest); reflexivity.
Qed.

Lemma fold_putClubTrophies_queued (clubs : list (string * SyncedClub)) :
  NoDup (map fst clubs) ->
  fold_left (putClubTrophies currentSeason) (omap (queuedTrophies currentSeason) clubs) clubs
  = map (clubWithTrophies currentSeason) clubs.
Proof.
  induction clubs as [| [c cd] clubs IH]; [reflexivity |].
  cbn [map fst]. intros Hnodup. apply NoDup_cons in Hnodup as [Hc Hnodup].
  assert (Hnew : c ∉ map fst (omap (queuedTrophies currentSeason) clubs)).
  { intros Hin. apply Hc, queuedTrophies_keys, Hin. }
  cbn [omap list_omap map]. unfold queuedTrophies at 1, clubWithTrophies at 1.
  cbn [fst snd]. destruct (sy_players cd) as [| e ps] eqn:Hps.
  - rewrite (fold_putClubTrophies_other _ _ _ _ Hnew), (IH Hnodup). reflexivity.
  - destruct (trophiesDiffer currentSeason cd).
    + cbn [fold_left]. unfold putClubTrophies at 2. cbn [fst snd lookupEntry alterEntry].
      rewrite String.eqb_refl.
      rewrite (fold_putClubTrophies_other _ _ _ _ Hnew), (IH Hnodup), Hps. reflexivity.
    + rewrite (fold_putClubTrophies_other _ _ _ _ Hnew), (IH Hnodup). reflexivity.
Qed.

Lemma fold_applyClubTrophies (ups : list (string * Z)) (db : SyncStore) :
  sy_clubs (fold_left (applyClubTrophies currentSeason) ups db)
  = fold_left (putClubTrophies currentSeason) ups (sy_clubs db)
  /\ sy_summaryTrophies (fold_left (applyClubTrophies currentSeason) ups db)
     = fold_left (fun m (u : string * Z) => <[fst u := snd u]> m) ups
         (sy_summaryTrophies db)
  /\ sy_playersTable (fold_left (applyClubTrophies currentSeason) ups db)
     = sy_playersTable db.
Proof.
  revert db. induction ups as [| [c t] ups IH]; intros db; [auto |].
  cbn [fold_left]. destruct (IH (applyClubTrophies currentSeason db (c, t)))
    as (Hclubs & Hsummary & Htable).
  rewrite Hclubs, Hsummary, Htable. auto.
Qed.

Lemma fold_insert_other (ups : list (string * Z)) (m : gmap string Z) (c : string) :
  c ∉ map fst ups ->
  fold_left (fun m (u : string * Z) => <[fst u := snd u]> m) ups m !! c = m !! c.
Proof.
  revert m. induction ups as [| [c' t] ups IH]; intros m Hnew; [reflexivity |].
  cbn [map fst] in Hnew. apply not_elem_of_cons in Hnew as [Hne Hnew].
  cbn [fold_left fst snd]. rewrite (IH _ Hnew). apply lookup_insert_ne. congruence.
Qed.

(** The summary of a club after the writes: the total queued for the
    club, if one was queued. *)
Lemma fold_insert_queued (clubs : list (string * SyncedClub)) (m : gmap string Z)
    (c : string) (cd : SyncedClub) :
  NoDup (map fst clubs) ->
  lookupEntry c clubs = Some cd ->
  fold_left (fun m (u : string * Z) => <[fst u := snd u]> m)
    (omap (queuedTrophies currentSeason) clubs) m !! c
  = match queuedTrophies currentSeason (c, cd) with
    | Some u => Some (snd u)
    | None => m !! c
    end.
Proof.
  revert m. induction clubs as [| [c0 cd0] clubs IH]; intros m; [discriminate |].
  cbn [map fst lookupEntry]. intros Hnodup. apply NoDup_cons in Hnodup as [Hc Hnodup].
  assert (Hnew : c0 ∉ map fst (omap (queuedTrophies currentSeason) clubs)).
  { intros Hin. apply Hc, queuedTrophies_keys, Hin. }
  cbn [omap list_omap].
  destruct (String.eqb_spec c0 c) as [-> | Hne].
  - intros [= ->]. destruct (queuedTrophies currentSeason (c, cd)) as [u |] eqn:Hq.
    + cbn [fold_left]. rewrite (fold_insert_other _ _ _ Hnew).
      rewrite (queuedTrophies_key _ _ Hq). cbn [fst snd]. apply lookup_insert_eq.
    + apply fold_insert_other, Hnew.
  - intros Hlook. destruct (queuedTrophies currentSeason (c0, cd0)) as [u |] eqn:Hq.
    + cbn [fold_left]. rewrite (IH _ Hnodup Hlook).
      destruct (queuedTrophies currentSeason (c, cd)); [reflexivity |].
      rewrite (queuedTrophies_key _ _ Hq). cbn [fst snd]. apply lookup_insert_ne. exact Hne.
    + apply IH; assumption.
Qed.

End ClubTrophies.

(** ** The store after the sync *)

Section SyncResult.
Variable currentSeason : Z.
Variable playfab : PlayFab.
Variable now : string -> string -> string.

Lemma clubWithSyncedPlayers_keys (clubs : list (string * SyncedClub)) :
  map fst (map (clubWithSyncedPlayers playfab now) clubs) = map fst clubs.
Proof. rewrite map_map. reflexivity. Qed.

(** The clubs and the summaries after the sync. *)
Lemma syncPlayFabPlayerData_clubs (db : SyncStore) :
  PLAYFAB_ENABLED playfab = true ->
  syncKeysDistinct db ->
  let clubs1 := map (clubWithSyncedPlayers playfab now) (sy_clubs db) in
  let db' := syncPlayFabPlayerData currentSeason playfab now db in
  sy_clubs db' = map (clubWithTrophies currentSeason) clubs1
  /\ sy_summaryTrophies db'
     = fold_left (fun m (u : string * Z) => <[fst u := snd u]> m)
         (omap (queuedTrophies currentSeason) clubs1) (sy_summaryTrophies db).
Proof.
  intros Henabled Hkeys. cbv zeta. unfold syncPlayFabPlayerData. rewrite Henabled.
  cbn [negb]. destruct (first_part_clubs currentSeason playfab now db Hkeys) as [Hclubs Hsum].
  cbv zeta in Hclubs, Hsum.
  match goal with
  | |- context [fold_left (applyClubTrophies currentSeason) ?ups ?db1] =>
      destruct (fold_applyClubTrophies currentSeason ups db1) as (Hc & Hs & _)
  end.
  rewrite Hc, Hs, Hclubs, Hsum.
  assert (Hnodup : NoDup (map fst (map (clubWithSyncedPlayers playfab now) (sy_clubs db)))).
  { rewrite clubWithSyncedPlayers_keys. apply Hkeys. }
  rewrite (collectClubTrophyUpdates_queued _ _ Hnodup).
  split; [| reflexivity]. apply fold_putClubTrophies_queued, Hnodup.
Qed.

Lemma lookup_clubWithSyncedPlayers (clubs : list (string * SyncedClub)) (c : string) :
  lookupEntry c (map (clubWithSyncedPlayers playfab now) clubs)
  = (fun cd => snd (clubWithSyncedPlayers playfab now (c, cd))) <$> lookupEntry c clubs.
Proof.
  induction clubs as [| [c0 cd0] clubs IH]; cbn; [reflexivity |].
  destruct (String.eqb_spec c0 c) as [-> | _]; [reflexivity | exact IH].
Qed.

Lemma clubWithTrophies_key (club : string * SyncedClub) :
  fst (clubWithTrophies currentSeason club) = fst club.
Proof.
  unfold clubWithTrophies. destruct (sy_players (snd club)); [reflexivity |].
  destruct (trophiesDiffer currentSeason (snd club)); reflexivity.
Qed.

Lemma clubWithTrophies_players (club : string * SyncedClub) :
  sy_players (snd (clubWithTrophies currentSeason club)) = sy_players (snd club).
Proof.
  unfold clubWithTrophies. destruct (sy_players (snd club)) eqn:E; [exact E |].
  destruct (trophiesDiffer currentSeason (snd club)); [reflexivity | exact E].
Qed.

Lemma lookup_clubWithTrophies (clubs : list (string * SyncedClub)) (c : string) :
  lookupEntry c (map (clubWithTrophies currentSeason) clubs)
  = (fun cd => snd (clubWithTrophies currentSeason (c, cd))) <$> lookupEntry c clubs.
Proof.
  induction clubs as [| [c0 cd0] clubs IH]; cbn [map]; [reflexivity |].
  pose proof (clubWithTrophies_key (c0, cd0)) as Hkey.
  destruct (clubWithTrophies currentSeason (c0, cd0)) as [c1 cd1] eqn:E.
  cbn [fst] in Hkey. subst c1. cbn [lookupEntry].
  destruct (String.eqb_spec c0 c) as [-> | _]; [| exact IH].
  cbn [fmap option_fmap option_map]. rewrite E. reflexivity.
Qed.

Lemma lookup_syncedPlayer clubId (players : list (string * SyncedPlayer)) (k : string) :
  lookupEntry k (map (syncedPlayer playfab now clubId) players)
  = (fun p => snd (syncedPlayer playfab now clubId (k, p))) <$> lookupEntry k players.
Proof.
  induction players as [| [k0 p0] players IH]; cbn [map]; [reflexivity |].
  pose proof (syncedPlayer_key playfab now clubId (k0, p0)) as Hkey.
  destruct (syncedPlayer playfab now clubId (k0, p0)) as [k1 p1] eqn:E.
  cbn [fst] in Hkey. subst k1. cbn [lookupEntry].
  destruct (String.eqb_spec k0 k) as [-> | _]; [| exact IH].
  cbn [fmap option_fmap option_map]. rewrite E. reflexivity.
Qed.

(** The entry of a player after the sync. *)
Lemma syncPlayFabPlayerData_entry (db : SyncStore) (c k : string) :
  PLAYFAB_ENABLED playfab = true ->
  syncKeysDistinct db ->
  syncedEntry (syncPlayFabPlayerData currentSeason playfab now db) c k
  = (fun p => snd (syncedPlayer playfab now c (k, p))) <$> syncedEntry db c k.
Proof.
  intros Henabled Hkeys. unfold syncedEntry.
  destruct (syncPlayFabPlayerData_clubs db Henabled Hkeys) as [Hclubs _].
  cbv zeta in Hclubs. rewrite Hclubs.
  rewrite lookup_clubWithTrophies, lookup_clubWithSyncedPlayers.
  destruct (lookupEntry c (sy_clubs db)) as [cd |]; cbn [fmap option_fmap option_map mbind
    option_bind]; [| reflexivity].
  rewrite clubWithTrophies_players. cbn [snd fst clubWithSyncedPlayers sy_players].
  apply lookup_syncedPlayer.
Qed.

Lemma differsFromField_false (a : string) (b : option string) :
  differsFromField a b = false -> b = Some a.
Proof.
  destruct b as [s |]; cbn; [| discriminate].
  destruct (String.eqb_spec a s) as [-> | _]; [reflexivity | discriminate].
Qed.

Lemma differsFromCount_false (a : Z) (b : option Z) :
  differsFromCount a b = false -> b = Some a.
Proof.
  destruct b as [v |]; cbn; [| discriminate].
  destruct (Z.eqb_spec a v) as [-> | _]; [reflexivity | discriminate].
Qed.

(** What the first part makes of an entry. *)
Lemma syncedPlayer_fields c k (p : SyncedPlayer) :
  let p' := snd (syncedPlayer playfab now c (k, p)) in
  sy_playfabId p' = sy_playfabId p
  /\ sy_name p'
     = match playfabName playfab p with Some n => Some n | None => sy_name p end
  /\ sy_trophyCount p'
     = match playfabTrophyCount playfab p with
       | Some v => Some v
       | None => sy_trophyCount p
       end
  /\ (sy_name p' = sy_name p -> sy_trophyCount p' = sy_trophyCount p -> p' = p)
  /\ (p' <> p -> sy_lastPlayFabSync p' = Some (now c k)).
Proof.
  cbv zeta. unfold syncedPlayer, playfabName, playfabTrophyCount, nameUpdate,
    trophyCountUpdate.
  destruct (sy_playfabId p) as [id |] eqn:Hid; [| cbn; tauto].
  destruct (Str.truthy id); [| cbn; tauto].
  destruct (displayName playfab (normalizeId id)) as [n |];
    [destruct (Str.truthy n); cbn [andb];
       [destruct (differsFromField n (sy_name p)) eqn:Hn |] |];
    (destruct (NUM_TROPHIES_SEASON playfab (normalizeId id)) as [v |];
       [destruct (differsFromCount v (sy_trophyCount p)) eqn:Hv |]);
    cbn [snd sy_playfabId sy_name sy_trophyCount sy_lastPlayFabSync];
    try (apply differsFromField_false in Hn);
    try (apply differsFromCount_false in Hv);
    repeat split; try tauto; try congruence;
    try (intros H1 H2; exfalso;
         first [ rewrite <- H1 in Hn; cbn in Hn; rewrite String.eqb_refl in Hn;
                 discriminate Hn
               | rewrite <- H2 in Hv; cbn in Hv; rewrite Z.eqb_refl in Hv;
                 discriminate Hv ]).
Qed.

End SyncResult.

(** ** What the sync guarantees *)

Section SyncGuarantees.
Variable currentSeason : Z.
Variable playfab : PlayFab.
Variable now : string -> string -> string.

(** X20: After the sync, every player of a club has the display name and the
    trophy count that PlayFab gives for the normalised id of the player,
    and keeps the stored ones where PlayFab gives none (no PlayFab id, a
    failed request, an empty name). An entry for which nothing is new is
    not written at all; one that is written carries the time of the
    write. *)
Theorem syncPlayFabPlayerData_entries (db : SyncStore) (clubId playerKey : string)
    (p : SyncedPlayer) :
  PLAYFAB_ENABLED playfab = true ->
  syncKeysDistinct db ->
  syncedEntry db clubId playerKey = Some p ->
  exists p',
    syncedEntry (syncPlayFabPlayerData currentSeason playfab now db) clubId playerKey
    = Some p'
    /\ sy_playfabId p' = sy_playfabId p
    /\ sy_name p'
       = match playfabName playfab p with Some n => Some n | None => sy_name p end
    /\ sy_trophyCount p'
       = match playfabTrophyCount playfab p with
         | Some v => Some v
         | None => sy_trophyCount p
         end
    /\ (sy_name p' = sy_name p -> sy_trophyCount p' = sy_trophyCount p -> p' = p)
    /\ (p' <> p -> sy_lastPlayFabSync p' = Some (now clubId playerKey)).
Proof.
  intros Henabled Hkeys Hp.
  rewrite (syncPlayFabPlayerData_entry currentSeason playfab now db clubId playerKey
             Henabled Hkeys), Hp.
  eexists. split; [reflexivity |].
  apply (syncedPlayer_fields playfab now clubId playerKey p).
Qed.

(** X21: After the sync, the trophy total of every club that has players,
    overall and for the season, is the sum of the trophy counts of its
    players. The total is written, and copied to the summary of the
    club, only when the overall or the season total was another number
    before: for a club whose totals were right, the summary stays what
    it was. A club without players is left as it is. *)
Theorem syncPlayFabPlayerData_club_trophies (db : SyncStore) (clubId : string)
    (club : SyncedClub) :
  PLAYFAB_ENABLED playfab = true ->
  syncKeysDistinct db ->
  lookupEntry clubId (sy_clubs db) = Some club ->
  let db' := syncPlayFabPlayerData currentSeason playfab now db in
  exists club',
    lookupEntry clubId (sy_clubs db') = Some club'
    /\ sy_clubName club' = sy_clubName club
    /\ map fst (sy_players club') = map fst (sy_players club)
    /\ (sy_players club = [] ->
        club' = club
        /\ sy_summaryTrophies db' !! clubId = sy_summaryTrophies db !! clubId)
    /\ (sy_players club <> [] ->
        let total := clubTotalTrophies (sy_players club') in
        orZeroZ (sy_totalTrophies club') = total
        /\ orZeroZ (sy_seasonTotalTrophies club' !! currentSeason) = total
        /\ (orZeroZ (sy_totalTrophies club) = total
            /\ orZeroZ (sy_seasonTotalTrophies club !! currentSeason) = total ->
            sy_totalTrophies club' = sy_totalTrophies club
            /\ sy_seasonTotalTrophies club' = sy_seasonTotalTrophies club
            /\ sy_summaryTrophies db' !! clubId = sy_summaryTrophies db !! clubId)
        /\ (~ (orZeroZ (sy_totalTrophies club) = total
               /\ orZeroZ (sy_seasonTotalTrophies club !! currentSeason) = total) ->
            sy_totalTrophies club' = Some total
            /\ sy_summaryTrophies db' !! clubId = Some total)).
Proof.
  intros Henabled Hkeys Hclub. cbv zeta.
  destruct (syncPlayFabPlayerData_clubs currentSeason playfab now db Henabled Hkeys)
    as [Hclubs Hsummary].
  cbv zeta in Hclubs, Hsummary. rewrite Hclubs, Hsummary.
  rewrite lookup_clubWithTrophies, lookup_clubWithSyncedPlayers, Hclub.
  cbn [fmap option_fmap option_map].
  rewrite (fold_insert_queued currentSeason _ _ clubId
             (snd (clubWithSyncedPlayers playfab now (clubId, club)))).
  2: { rewrite clubWithSyncedPlayers_keys. apply Hkeys. }
  2: { rewrite lookup_clubWithSyncedPlayers, Hclub. reflexivity. }
  eexists. split; [reflexivity |].
  unfold clubWithTrophies, queuedTrophies, clubWithSyncedPlayers, trophiesDiffer.
  cbn [fst snd sy_players sy_clubName sy_totalTrophies sy_seasonTotalTrophies].
  destruct (sy_players club) as [| e ps] eqn:Hps.
  - cbn [map snd sy_players sy_clubName].
    split; [reflexivity |]. split; [reflexivity |].
    split; [| congruence]. intros _. split; [| reflexivity].
    destruct club; cbn in *. congruence.
  - cbn [map].
    destruct (syncedPlayer playfab now clubId e :: map (syncedPlayer playfab now clubId) ps)
      as [| e' ps'] eqn:Hps'; [discriminate Hps' |].
    rewrite <- Hps'. clear e' ps' Hps'.
    set (players' := syncedPlayer playfab now clubId e
                     :: map (syncedPlayer playfab now clubId) ps).
    assert (Hkeys' : map fst players' = map fst (e :: ps)).
    { unfold players'. rewrite <- (map_cons (syncedPlayer playfab now clubId)), map_map.
      apply map_ext. intros entry. apply syncedPlayer_key. }
    destruct (Z.eqb_spec (clubTotalTrophies players') (orZeroZ (sy_totalTrophies club)))
      as [Htotal | Htotal]; cbn [negb orb].
    + destruct (Z.eqb_spec (clubTotalTrophies players')
                  (orZeroZ (sy_seasonTotalTrophies club !! currentSeason)))
        as [Hseason | Hseason]; cbn [negb snd fst sy_players sy_clubName sy_totalTrophies
          sy_seasonTotalTrophies].
      * split; [reflexivity |]. split; [exact Hkeys' |]. split; [discriminate |].
        intros _. split; [congruence |]. split; [congruence |]. split; [auto |].
        intros Hno. exfalso. apply Hno. split; congruence.
      * split; [reflexivity |]. split; [exact Hkeys' |]. split; [discriminate |].
        intros _. rewrite lookup_insert_eq. cbn [orZeroZ].
        split; [reflexivity |]. split; [reflexivity |]. split; [| auto].
        intros [_ H]. congruence.
    + cbn [negb snd fst sy_players sy_clubName sy_totalTrophies sy_seasonTotalTrophies].
      split; [reflexivity |]. split; [exact Hkeys' |]. split; [discriminate |].
      intros _. rewrite lookup_insert_eq. cbn [orZeroZ].
      split; [reflexivity |]. split; [reflexivity |]. split; [| auto].
      intros [H _]. congruence.
Qed.

Lemma queuePlayerUpdates_synced (now' : string -> string -> string) (c c' : string)
    (updates : list Update) (entry : string * SyncedPlayer) :
  queuePlayerUpdates playfab now' c' updates (syncedPlayer playfab now c entry) = updates.
Proof.
  destruct entry as [k p].
  unfold queuePlayerUpdates, syncedPlayer, nameUpdate, trophyCountUpdate.
  destruct (sy_playfabId p) as [id |] eqn:Hid; [| rewrite Hid; reflexivity].
  destruct (Str.truthy id) eqn:Hidt; [| rewrite Hid, Hidt; reflexivity].
  destruct (displayName playfab (normalizeId id)) as [n |] eqn:Hname;
    [destruct (Str.truthy n) eqn:Hnt; cbn [andb];
       [destruct (differsFromField n (sy_name p)) eqn:Hn |] |];
    (destruct (NUM_TROPHIES_SEASON playfab (normalizeId id)) as [v |] eqn:Hstat;
       [destruct (differsFromCount v (sy_trophyCount p)) eqn:Hv |]);
    cbn [sy_playfabId sy_name sy_trophyCount];
    rewrite ?Hid, ?Hidt; cbn [negb];
    rewrite ?Hname, ?Hstat, ?Hnt; cbn [andb differsFromField differsFromCount];
    rewrite ?String.eqb_refl, ?Z.eqb_refl, ?Hn, ?Hv; reflexivity.
Qed.

Lemma collectUpdates_synced (now' : string -> string -> string)
    (clubs : list (string * SyncedClub)) :
  collectUpdates playfab now'
    (map (clubWithTrophies currentSeason) (map (clubWithSyncedPlayers playfab now) clubs))
  = [].
Proof.
  unfold collectUpdates. generalize (@nil Update).
  induction clubs as [| [c cd] clubs IH]; intros acc; [reflexivity |].
  cbn [map fold_left]. rewrite clubWithTrophies_players, clubWithTrophies_key.
  cbn [fst snd clubWithSyncedPlayers sy_players].
  assert (Hplayers : forall ps acc',
    fold_left (queuePlayerUpdates playfab now' c)
      (map (syncedPlayer playfab now c) ps) acc' = acc').
  { induction ps as [| entry ps IHp]; intros acc'; [reflexivity |].
    cbn [map fold_left]. rewrite queuePlayerUpdates_synced. apply IHp. }
  rewrite Hplayers. apply IH.
Qed.

Lemma collectClubTrophyUpdates_settled (clubs : list (string * SyncedClub)) :
  collectClubTrophyUpdates currentSeason (map (clubWithTrophies currentSeason) clubs) = [].
Proof.
  unfold collectClubTrophyUpdates. generalize (@nil (string * Z)).
  induction clubs as [| [c cd] clubs IH]; intros acc; [reflexivity |].
  cbn [map fold_left]. unfold clubWithTrophies at 2, trophiesDiffer. cbn [fst snd].
  destruct (sy_players cd) as [| e ps] eqn:Hps.
  - rewrite Hps. apply IH.
  - destruct (negb _ || negb _) eqn:Hdiff.
    + cbn [sy_players sy_totalTrophies sy_seasonTotalTrophies orZeroZ].
      rewrite lookup_insert_eq. cbn [orZeroZ]. rewrite Z.eqb_refl. cbn [negb orb].
      apply IH.
    + rewrite Hps, Hdiff. apply IH.
Qed.

(** X23: A second sync for which PlayFab answers as for the first writes
    nothing: the store after the first sync is a fixed point. *)
Theorem syncPlayFabPlayerData_idempotent (now' : string -> string -> string)
    (db : SyncStore) :
  syncKeysDistinct db ->
  syncPlayFabPlayerData currentSeason playfab now'
    (syncPlayFabPlayerData currentSeason playfab now db)
  = syncPlayFabPlayerData currentSeason playfab now db.
Proof.
  intros Hkeys. destruct (PLAYFAB_ENABLED playfab) eqn:Henabled.
  - destruct (syncPlayFabPlayerData_clubs currentSeason playfab now db Henabled Hkeys)
      as [Hclubs _].
    cbv zeta in Hclubs.
    unfold syncPlayFabPlayerData at 1. rewrite Henabled. cbn [negb].
    rewrite Hclubs, collectUpdates_synced. cbn [batches length batchesFrom fold_left].
    rewrite Hclubs, collectClubTrophyUpdates_settled. reflexivity.
  - unfold syncPlayFabPlayerData. rewrite Henabled. reflexivity.
Qed.

End SyncGuarantees.

Lemma batches_cover_updates_witness :
  batchesFrom 7 [1; 2; 3] 0 = batches [1; 2; 3].
Proof.
  apply (proj2 (proj2 (proj2 (batches_cover_updates [1; 2; 3]))) 7%nat).
  cbn. lia.
Defined.

Lemma syncPlayFabPlayerData_entries_witness :
  exists p',
    syncedEntry
      (syncPlayFabPlayerData 3 SampleSync.playfab SampleSync.now SampleSync.db)
      "clubA" "k1" = Some p'
    /\ sy_name p' = Some "Anna"
    /\ sy_trophyCount p' = Some 12.
Proof.
  destruct (syncPlayFabPlayerData_entries 3 SampleSync.playfab SampleSync.now SampleSync.db
              "clubA" "k1" (SampleSync.player "A1" "Ann" (Some 10)))
    as (p' & Hp' & _ & Hname & Hcount & _).
  - reflexivity.
  - split.
    + apply (bool_decide_unpack _). vm_compute. exact I.
    + constructor; [| constructor]. apply (bool_decide_unpack _). vm_compute. exact I.
  - vm_compute. reflexivity.
  - exists p'. split; [exact Hp' |]. split; [exact Hname | exact Hcount].
Defined.

Lemma syncPlayFabPlayerData_club_trophies_witness :
  exists club',
    lookupEntry "clubA"
      (sy_clubs (syncPlayFabPlayerData 3 SampleSync.playfab SampleSync.now SampleSync.db))
    = Some club'
    /\ sy_clubName club' = Some "Club A".
Proof.
  destruct (syncPlayFabPlayerData_club_trophies 3 SampleSync.playfab SampleSync.now
              SampleSync.db "clubA" SampleSync.clubA)
    as (club' & Hclub' & Hname & _).
  - reflexivity.
  - split.
    + apply (bool_decide_unpack _). vm_compute. exact I.
    + constructor; [| constructor]. apply (bool_decide_unpack _). vm_compute. exact I.
  - reflexivity.
  - exists club'. split; [exact Hclub' | exact Hname].
Defined.

Lemma syncPlayFabPlayerData_idempotent_witness :
  syncPlayFabPlayerData 3 SampleSync.playfab SampleSync.now
    (syncPlayFabPlayerData 3 SampleSync.playfab SampleSync.now SampleSync.db)
  = syncPlayFabPlayerData 3 SampleSync.playfab SampleSync.now SampleSync.db.
Proof.
  apply (syncPlayFabPlayerData_idempotent 3 SampleSync.playfab SampleSync.now
           SampleSync.now SampleSync.db).
  split.
  - apply (bool_decide_unpack _). vm_compute. exact I.
  - constructor; [| constructor]. apply (bool_decide_unpack _). vm_compute. exact I.
Defined.

(** ** The [players] table after the sync *)

Section PlayersTable.
Variable currentSeason : Z.
Variable playfab : PlayFab.
Variable now : string -> string -> string.

Lemma setUpdate_Forall (P : Update -> Prop) (u : Update) (updates : list Update) :
  P u -> Forall P updates -> Forall P (setUpdate u updates).
Proof.
  intros Hu. induction 1 as [| v updates Hv Hrest IH]; cbn.
  - constructor; [exact Hu | constructor].
  - destruct (samePath v u); constructor; assumption.
Qed.

Lemma queuePlayerUpdates_fromPlayFab clubId updates entry :
  Forall (fromPlayFab playfab) updates ->
  Forall (fromPlayFab playfab) (queuePlayerUpdates playfab now clubId updates entry).
Proof.
  intros Hall. destruct entry as [k p]. unfold queuePlayerUpdates.
  destruct (sy_playfabId p) as [id |]; [| exact Hall].
  destruct (negb (Str.truthy id)); [exact Hall |].
  assert (Hname : forall n, nameUpdate playfab (normalizeId id) p = Some n ->
                    fromPlayFab playfab (SetPlayerName (normalizeId id) n)).
  { unfold nameUpdate. intros n.
    destruct (displayName playfab (normalizeId id)) as [n' |] eqn:Hd; [| discriminate].
    destruct (Str.truthy n') eqn:Hn'; [| discriminate].
    destruct (differsFromField n' (sy_name p)); [| discriminate].
    intros [= <-]. cbn. rewrite Hd. auto. }
  assert (Hcount : forall v, trophyCountUpdate playfab (normalizeId id) p = Some v ->
                     NUM_TROPHIES_SEASON playfab (normalizeId id) = Some v).
  { unfold trophyCountUpdate. intros v.
    destruct (NUM_TROPHIES_SEASON playfab (normalizeId id)) as [v' |]; [| discriminate].
    destruct (differsFromCount v' (sy_trophyCount p)); [| discriminate].
    intros H. exact H. }
  destruct (nameUpdate playfab (normalizeId id) p) as [n |];
    destruct (trophyCountUpdate playfab (normalizeId id) p) as [v |];
    repeat (apply setUpdate_Forall;
            [first [ exact I | apply Hname; reflexivity | apply Hcount; reflexivity ] |]);
    exact Hall.
Qed.

Lemma collectUpdates_fromPlayFab clubs :
  Forall (fromPlayFab playfab) (collectUpdates playfab now clubs).
Proof.
  unfold collectUpdates.
  assert (H : forall acc, Forall (fromPlayFab playfab) acc ->
    Forall (fromPlayFab playfab)
      (fold_left (fun updates (club : string * SyncedClub) =>
                    fold_left (queuePlayerUpdates playfab now (fst club))
                      (sy_players (snd club)) updates) clubs acc)).
  { induction clubs as [| [clubId clubData] clubs IH]; intros acc Hacc; cbn [fold_left];
      [exact Hacc |].
    apply IH. cbn [fst snd]. revert acc Hacc.
    induction (sy_players clubData) as [| entry ps IHp]; intros acc Hacc;
      cbn [fold_left]; [exact Hacc |].
    apply IHp, queuePlayerUpdates_fromPlayFab, Hacc. }
  apply H. constructor.
Qed.

Lemma nodeFromPlayFab_refl playerId (old : PlayerTrophies) :
  nodeFromPlayFab currentSeason playfab playerId old old.
Proof. unfold nodeFromPlayFab. auto. Qed.

Lemma applyUpdate_fromPlayFab (table : gmap string PlayerTrophies) (db : SyncStore)
    (u : Update) :
  fromPlayFab playfab u ->
  tableFromPlayFab currentSeason playfab table (sy_playersTable db) ->
  tableFromPlayFab currentSeason playfab table
    (sy_playersTable (applyUpdate currentSeason db u)).
Proof.
  intros Hu Hinv. destruct u as [c k p | i v | i v | i n];
    cbn [applyUpdate withSyncClubs withPlayersTable sy_playersTable]; [exact Hinv | | |];
    intros playerId; specialize (Hinv playerId);
    (destruct (decide (i = playerId)) as [-> | Hne];
       [rewrite lookup_insert_eq | rewrite lookup_insert_ne by exact Hne; exact Hinv]);
    cbn in Hu;
    (destruct (sy_playersTable db !! playerId) as [node |] eqn:Hnode;
       [destruct Hinv as (Hn & Ht & Hs)
       | rewrite Hinv; cbn [default noPlayerTrophies]]);
    unfold nodeFromPlayFab;
    cbn [default from_option pt_name pt_trophyCount pt_seasonTrophyCount noPlayerTrophies];
    unfold id.
  - split; [exact Hn |]. split; [right; eauto | exact Hs].
  - split; [auto |]. split; [right; eauto | auto].
  - split; [exact Hn |]. split; [exact Ht |]. right. exists v. split; [exact Hu |].
    destruct Hs as [-> | (v' & Hv' & ->)]; [reflexivity |].
    rewrite Hu in Hv'. injection Hv' as <-. apply insert_insert_eq.
  - split; [auto |]. split; [auto |]. right. eauto.
  - destruct Hu as [Hd Ht']. split; [right; eauto |]. split; [exact Ht | exact Hs].
  - destruct Hu as [Hd Ht']. split; [right; eauto |]. auto.
Qed.

(** X22: The sync removes no node of [players], and what it writes there is
    what PlayFab answers for the id of the node: a name that PlayFab
    gives as display name, a trophy count and a season trophy count that
    PlayFab gives as statistic. Every other field of every node holds
    what it held. *)
Theorem syncPlayFabPlayerData_players_table (db : SyncStore) :
  tableFromPlayFab currentSeason playfab (sy_playersTable db)
    (sy_playersTable (syncPlayFabPlayerData currentSeason playfab now db)).
Proof.
  assert (Hrefl : tableFromPlayFab currentSeason playfab (sy_playersTable db)
                    (sy_playersTable db)).
  { intros playerId. destruct (sy_playersTable db !! playerId); [| reflexivity].
    apply nodeFromPlayFab_refl. }
  unfold syncPlayFabPlayerData.
  destruct (PLAYFAB_ENABLED playfab); cbn [negb]; [| exact Hrefl].
  match goal with
  | |- context [fold_left (applyClubTrophies currentSeason) ?ups ?db1] =>
      destruct (fold_applyClubTrophies currentSeason ups db1) as (_ & _ & ->)
  end.
  rewrite update_in_batches by apply collectUpdates_NoDup.
  pose proof (collectUpdates_fromPlayFab (sy_clubs db)) as Hall.
  revert Hall. generalize (collectUpdates playfab now (sy_clubs db)). intros updates.
  assert (H : forall db0,
    tableFromPlayFab currentSeason playfab (sy_playersTable db) (sy_playersTable db0) ->
    Forall (fromPlayFab playfab) updates ->
    tableFromPlayFab currentSeason playfab (sy_playersTable db)
      (sy_playersTable (fold_left (applyUpdate currentSeason) updates db0))).
  { induction updates as [| u updates IH]; intros db0 Hinv Hall; [exact Hinv |].
    apply Forall_cons in Hall as [Hu Hall]. cbn [fold_left].
    apply IH; [| exact Hall]. apply applyUpdate_fromPlayFab; assumption. }
  apply H, Hrefl.
Qed.

End PlayersTable.

(** ** The order in which the teams are processed *)

(** X8: When no accepted row has a party id that is an array index, the
    teams of a tournament are processed in ascending order of their best
    placement, and teams with the same best placement in the order in
    which grouping enumerates them; every team is processed once. *)
Theorem teams_processed_by_placement (roster : gmap string PlayerInfo) (rows : list Row)
    (teams : JsObject.t Team) :
  groupPlayersByTeam rows roster = Returned teams ->
  Forall (fun m => plainKey (memberParty m)) (acceptedRows rows) ->
  let processed := JsObject.entries (sortTeamsByPlacement teams) in
  processed ≡ₚ JsObject.entries teams
  /\ StronglySorted entryLe processed
  /\ forall k, List.filter (hasBest k) processed
               = List.filter (hasBest k) (JsObject.entries teams).
Proof.
  intros Hgroup Hplain. cbv zeta.
  pose proof (groupPlayersByTeam_keys_NoDup roster rows teams Hgroup) as Hnodup.
  assert (Hkeys : Forall (fun e => plainKey (fst e)) teams).
  { apply Forall_forall. intros [party team] Hin. cbn [fst].
    apply elem_getOwn in Hin; [| exact Hnodup].
    rewrite (groupRows_contents roster rows [] JsObject.empty teams) in Hin;
      [| reflexivity | exact Hgroup].
    cbn [app] in Hin. unfold teamFor in Hin.
    destruct (membersOf party rows) as [| m members] eqn:Hmembers; [discriminate Hin |].
    assert (Hm : m ∈ membersOf party rows) by (rewrite Hmembers; apply list_elem_of_here).
    unfold membersOf in Hm. apply list_elem_of_In, filter_In in Hm as [Hm Hparty].
    apply String.eqb_eq in Hparty as <-.
    rewrite Forall_forall in Hplain. apply Hplain, list_elem_of_In, Hm. }
  destruct (sortTeamsByPlacement_plain_keys teams Hnodup Hkeys)
    as (Hentries & Hperm & Hsorted & Hstable).
  unfold JsObject.entries in *. rewrite Hentries. auto.
Qed.

Lemma teams_processed_by_placement_witness :
  JsObject.entries (sortTeamsByPlacement SampleStore.shuffled)
  ≡ₚ JsObject.entries SampleStore.shuffled
  /\ StronglySorted entryLe (JsObject.entries (sortTeamsByPlacement SampleStore.shuffled))
  /\ forall k,
       List.filter (hasBest k) (JsObject.entries (sortTeamsByPlacement SampleStore.shuffled))
       = List.filter (hasBest k) (JsObject.entries SampleStore.shuffled).
Proof.
  apply (teams_processed_by_placement ∅ SampleStore.shuffledRows SampleStore.shuffled).
  - vm_compute. reflexivity.
  - repeat constructor.
Defined.

(** ** From the rows of a tournament to the individual results *)

Lemma sortTeamsByPlacement_perm (teams : JsObject.t Team) :
  NoDup (map fst teams) -> JsObject.entries (sortTeamsByPlacement teams) ≡ₚ teams.
Proof.
  intros Hnodup. unfold sortTeamsByPlacement, JsObject.entries, JsObject.empty.
  rewrite copy_entries_perm; cbn [app]; [apply sortEntries_perm |].
  rewrite (sortEntries_perm teams). exact Hnodup.
Qed.

Lemma acceptedRow_place (row : Row) (m : string * string * Z) :
  acceptedRow row = Some m -> 1 <= memberPlace m <= 4.
Proof.
  unfold acceptedRow.
  destruct (userPlayfabId row) as [rawId |]; [| discriminate].
  destruct (partyId row) as [party |]; [| discriminate].
  destruct (userPlace row) as [placement |]; [| discriminate].
  destruct (negb (Str.truthy (Str.toUpperCase rawId))); [discriminate |].
  destruct (negb (Str.truthy party)); [discriminate |]. cbn [orb].
  destruct (Z.ltb_spec placement 1); [discriminate |]. cbn [orb].
  destruct (Z.gtb_spec placement 4); [discriminate |].
  intros [= <-]. cbn. lia.
Qed.

Lemma getStatFieldForPlacement_top4 (place : Z) :
  1 <= place <= 4 -> exists f, getStatFieldForPlacement (Some place) = Some f.
Proof.
  intros H.
  assert (Hcases : place = 1 \/ place = 2 \/ place = 3 \/ place = 4) by lia.
  destruct Hcases as [-> | [-> | [-> | ->]]]; eexists; reflexivity.
Qed.

(** X24: When the data of a tournament of a tracked tier is processed
    and every competitor is on one accepted row only, every accepted row
    gives its competitor one individual result: the lifetime and season
    totals stored are the totals read plus the points of the placement
    on the row, in the tier of the tournament, added as doubles, and the
    counter of that placement is one more. The nodes of all other
    competitors stay as they were. *)
Theorem accepted_rows_are_scored (currentSeason : Z) (feed : string -> option (list Row))
    (t : Tournament) (rows : list Row) (db : Db) :
  let tier := getTierFromName (tournamentName t) in
  let db' := fetchAndProcessTournaments currentSeason feed [t] db in
  feed (tournamentId t) = Some rows ->
  tournamentId t ∉ fetchedTournaments db ->
  existsb throwingRow rows = false ->
  NoDup (map memberId (acceptedRows rows)) ->
  tier <> "Unknown" ->
  (forall m, m ∈ acceptedRows rows ->
     exists f,
       getStatFieldForPlacement (Some (memberPlace m)) = Some f
       /\ individualResultAdded currentSeason db db' (memberId m) tier f
            (pointsAt (getPointsMapping tier) (Some (memberPlace m))))
  /\ (forall other, other ∉ map memberId (acceptedRows rows) ->
        players db' !! other = players db !! other).
Proof.
  cbv zeta. intros Hfeed Hunmarked Hthrow Hnodup Htier.
  set (tier := getTierFromName (tournamentName t)) in *.
  set (roster := fetchClubsAndPlayers db).
  pose proof (groupRows_throws roster rows JsObject.empty (fun k _ => eq_refl)) as Hgroup.
  rewrite Hthrow in Hgroup. destruct Hgroup as [teams Hgroup].
  fold (groupPlayersByTeam rows roster) in Hgroup.
  cbn [fetchAndProcessTournaments]. unfold isTournamentAlreadyProcessed.
  rewrite bool_decide_eq_false_2 by exact Hunmarked. cbn [negb].
  unfold fetchAndProcessTournamentData, processTournamentResults.
  rewrite Hfeed. fold roster. rewrite Hgroup. fold tier.
  set (sorted := JsObject.entries (sortTeamsByPlacement teams)).
  set (points := getPointsMapping tier).
  pose proof (groupPlayersByTeam_keys_NoDup roster rows teams Hgroup) as Hkeys.
  assert (Hsorted : sorted ≡ₚ teams) by (apply sortTeamsByPlacement_perm, Hkeys).
  assert (Hids : allPlayerIds sorted ≡ₚ map memberId (acceptedRows rows)).
  { rewrite (allPlayerIds_perm _ _ Hsorted).
    apply (groupRows_conserves roster rows [] JsObject.empty teams); [reflexivity |].
    exact Hgroup. }
  assert (Hnodup' : NoDup (allPlayerIds sorted)) by (rewrite Hids; exact Hnodup).
  assert (Hmembers : forall m, m ∈ acceptedRows rows ->
    exists f,
      getStatFieldForPlacement (Some (memberPlace m)) = Some f
      /\ individualResultAdded currentSeason db
           (snd (processTeams currentSeason sorted points tier ∅ roster db))
           (memberId m) tier f (pointsAt points (Some (memberPlace m)))).
  { intros m Hm.
    assert (Hplace : 1 <= memberPlace m <= 4).
    { pose proof Hm as Hrow. unfold acceptedRows in Hrow.
      apply list_elem_of_omap in Hrow as (row & _ & Hrow).
      apply (acceptedRow_place row m Hrow). }
    destruct (getStatFieldForPlacement_top4 _ Hplace) as [f Hf].
    exists f. split; [exact Hf |].
    set (party := memberParty m).
    assert (Hin : m ∈ membersOf party rows).
    { unfold membersOf. apply list_elem_of_In, filter_In. split.
      - apply list_elem_of_In, Hm.
      - apply String.eqb_refl. }
    assert (Hteam : (party, teamOfMembers roster (membersOf party rows)) ∈ sorted).
    { rewrite Hsorted. apply getOwn_elem.
      rewrite (groupRows_contents roster rows [] JsObject.empty teams
                 (fun _ => eq_refl) Hgroup party).
      cbn [app]. unfold teamFor.
      destruct (membersOf party rows); [inversion Hin | reflexivity]. }
    apply list_elem_of_split in Hin as (ms1 & ms2 & Hsplit).
    apply list_elem_of_split in Hteam as (pre & post & Hsplit').
    rewrite Hsplit' in Hnodup' |- *.
    rewrite allPlayerIds_app in Hnodup'.
    assert (Hplayers : playerIds (teamOfMembers roster (membersOf party rows))
                       = map memberId ms1 ++ memberId m :: map memberId ms2).
    { unfold teamOfMembers. cbn [playerIds]. rewrite Hsplit, map_app. reflexivity. }
    rewrite Hplayers in Hnodup'.
    apply NoDup_app in Hnodup' as (_ & Hpre & Hnodup').
    apply NoDup_app in Hnodup' as (Hown & Hpost & _).
    apply NoDup_app in Hown as (_ & Hms1 & Hms2).
    apply NoDup_cons in Hms2 as [Hms2 _].
    apply processTeams_member with (ids1 := map memberId ms1) (ids2 := map memberId ms2);
      try assumption.
    - intros Hin. apply (Hpre _ Hin). rewrite !elem_of_app, elem_of_cons. auto.
    - intros Hin. apply (Hpost (memberId m)); [| exact Hin].
      rewrite elem_of_app, elem_of_cons. auto.
    - intros Hin. apply (Hms1 _ Hin). apply list_elem_of_here.
    - unfold teamOfMembers. cbn [placements]. rewrite Hsplit, map_app, length_map.
      rewrite lookup_app_r by (rewrite length_map; lia).
      rewrite length_map, Nat.sub_diag. reflexivity. }
  assert (Hothers : forall other, other ∉ map memberId (acceptedRows rows) ->
    players (snd (processTeams currentSeason sorted points tier ∅ roster db)) !! other
    = players db !! other).
  { intros other Hother. apply processTeams_other. rewrite Hids. exact Hother. }
  destruct (processTeams currentSeason sorted points tier ∅ roster db) as [[rs a] db1].
  cbn [snd] in Hmembers, Hothers. split.
  - intros m Hm. destruct (Hmembers m Hm) as (f & Hf & Hadded). exists f.
    split; [exact Hf |].
    eapply individualResultAdded_players; [| exact Hadded]. reflexivity.
  - intros other Hother. rewrite <- (Hothers other Hother). reflexivity.
Qed.

Lemma accepted_rows_are_scored_witness :
  exists f,
    getStatFieldForPlacement (Some (memberPlace ("D1", "t4", 4))) = Some f
    /\ individualResultAdded 3 Sample.db
         (fetchAndProcessTournaments 3 Sample.feed [Sample.silverCup] Sample.db)
         (memberId ("D1", "t4", 4)) (getTierFromName (tournamentName Sample.silverCup)) f
         (pointsAt (getPointsMapping (getTierFromName (tournamentName Sample.silverCup)))
            (Some (memberPlace ("D1", "t4", 4)))).
Proof.
  apply (proj1 (accepted_rows_are_scored 3 Sample.feed Sample.silverCup Sample.rows
                  Sample.db ltac:(reflexivity)
                  ltac:(apply (bool_decide_unpack _); vm_compute; exact I)
                  ltac:(vm_compute; reflexivity)
                  ltac:(apply (bool_decide_unpack _); vm_compute; exact I)
                  ltac:(vm_compute; discriminate))).
  apply (bool_decide_unpack _). vm_compute. exact I.
Defined.
